(** * The ICON receiver of the bridge relay: model and properties

    A shallow embedding of [cmd/iconbridge/chain/icon/receiver.go] and of
    the parts of [cmd/iconbridge/chain/icon/client.go] the receiver and the
    sender helpers rely on.

    Conventions.
    - Go's [int64] and [uint64] are integers of [Z] with the wrap-around
      written out ([i64], [u64]).
    - A Go [error] value is an [option error]: [None] is [nil].
    - A Go function returning [(T, error)] returns a [result T].
    - Remote procedure calls, codecs and cryptographic primitives, the
      light-client verifier and the wallet are collaborators of the code
      modelled here: the classes [Node], [Codec], [VerifierOps] and
      [Wallet].
    - Goroutines that only compute a value for the orchestrator are run
      as functions; the order in which they complete is an input.
    - The orchestrator of [receiveLoop] is one goroutine: a pass of its
      [select] is one step, and what the monitor goroutine does (a
      notification sent, a call of [reconnect]) is a step between two
      passes.  The drain loop with a [reconnect] of the monitor inside
      it is [drain_racing]. *)

From Stdlib Require Import ZArith String List Lia Sorted Permutation.
From Stdlib Require Import Strings.Byte Ascii.
From stdpp Require Import base tactics option list gmap strings sorting.

Local Open Scope string_scope.
Local Open Scope list_scope.
Local Open Scope Z_scope.

(** ** Machine integers *)

Definition u64 (z : Z) : Z := z mod 2 ^ 64.
Definition i64 (z : Z) : Z := (z + 2 ^ 63) mod 2 ^ 64 - 2 ^ 63.

Definition is_i64 (z : Z) : Prop := - 2 ^ 63 <= z < 2 ^ 63.

(** ** Byte slices *)

Abbreviation bytes := (list byte).

#[global] Instance byte_eq_decision : EqDecision byte := Byte.byte_eq_dec.

Definition bytes_of (s : string) : bytes := list_byte_of_string s.

(** ** Errors

    [ErrNew] stands for [errors.New], [errors.Errorf] and [fmt.Errorf];
    [ErrWrap] for the value built by [errors.Wrapf] of github.com/pkg/errors
    around a cause.  [ErrSendFailByOverflow] is the sentinel the client
    compares with [==]; [JsonrpcError] is [*jsonrpc.Error]. *)

Inductive error : Type :=
| ErrNew (msg : string)
| ErrWrap (msg : string) (cause : error)
| ErrSendFailByOverflow
| JsonrpcError (code : Z) (message : string).

(** [errors.Wrapf(err, format, args...)] of github.com/pkg/errors:
    "If err is nil, Wrapf returns nil." *)
Definition Wrapf (err : option error) (msg : string) : option error :=
  match err with
  | None => None
  | Some e => Some (ErrWrap msg e)
  end.

Inductive result (A : Type) : Type :=
| Ok (a : A)
| Err (e : error).
Arguments Ok {A} a.
Arguments Err {A} e.

Definition rbind {A B} (m : result A) (k : A -> result B) : result B :=
  match m with
  | Ok a => k a
  | Err e => Err e
  end.

Notation "'let*' x ':=' m 'in' k" := (rbind m (fun x => k))
  (at level 10, x pattern, m at level 200, k at level 200).

(** A [for ... range] loop whose body may [return err]. *)
Fixpoint foldM {A S} (body : S -> A -> result S) (s : S) (l : list A)
  : result S :=
  match l with
  | [] => Ok s
  | a :: l' => let* s' := body s a in foldM body s' l'
  end.

(** ** Data of package [chain] *)

Module chain.

Record Event : Type := mkEvent {
  Next : string;
  Sequence : Z;
  EventMessage : bytes
}.

Record Receipt : Type := mkReceipt {
  Index : Z;
  Height : Z;
  Events : list Event
}.

Record Message : Type := mkMessage {
  Receipts : list Receipt
}.

Record SubscribeOptions : Type := mkSubscribeOptions {
  Seq : Z;
  OptHeight : Z
}.

End chain.

(** ** [Subscribe]: the callback handed to [receiveLoop]

    The closure owns [opts.Seq] and the sending end of [msgCh]; both are
    the state threaded through [callback]. *)

Module Sequencer.
Import chain.

Definition invalid_event_seq : error := ErrNew "invalid event seq".

(** The body of [for _, event := range receipt.Events]. *)
Definition event_step (st : list Event * Z) (event : Event)
  : result (list Event * Z) :=
  let '(events, seq) := st in
  if decide (Sequence event = seq) then
    Ok (events ++ [event], u64 (seq + 1))
  else if decide (Sequence event > seq) then
    Err invalid_event_seq
  else Ok (events, seq).

(** The body of [for _, receipt := range receipts]: the receipt stays in
    the slice, its [Events] replaced by the filtered ones.  (The code
    appends to [receipt.Events[:0]]: it writes the slice from its start,
    never past the element it is reading.) *)
Definition receipt_step (st : list Receipt * Z) (receipt : Receipt)
  : result (list Receipt * Z) :=
  let '(done, seq) := st in
  let* (events, seq') := foldM event_step ([], seq) (Events receipt) in
  Ok (done ++ [mkReceipt (Index receipt) (Height receipt) events], seq').

Record State : Type := mkState {
  seq : Z;
  msgCh : list Message
}.

Definition callback (st : State) (receipts : list Receipt) : result State :=
  let* (receipts', seq') := foldM receipt_step ([], seq st) receipts in
  if decide (0 < Z.of_nat (length receipts)) then
    Ok (mkState seq' (msgCh st ++ [mkMessage receipts']))
  else Ok (mkState seq' (msgCh st)).

(** [opts.Seq++] and the clamp of [opts.Height] at the head of
    [Subscribe]. *)
Definition init (opts : SubscribeOptions) : SubscribeOptions :=
  let s := u64 (Seq opts + 1) in
  if decide (OptHeight opts < 1) then mkSubscribeOptions s 1
  else mkSubscribeOptions s (OptHeight opts).





(** [n] consecutive [uint64] values from [s]. *)
Fixpoint chain_from (s : Z) (n : nat) : list Z :=
  match n with
  | O => []
  | S n' => s :: chain_from (u64 (s + 1)) n'
  end.

End Sequencer.

(** ** Wire types of package [icon]

    [HexInt] and [HexBytes] are Go string types; their decoders live in
    the package's type file and are collaborators here. *)

Abbreviation HexInt := string (only parsing).
Abbreviation HexBytes := string (only parsing).
Abbreviation HexHash := bytes (only parsing).
Abbreviation Address := bytes (only parsing).

Record BlockHeader : Type := mkBlockHeader {
  bh_Height : Z;
  NextValidatorsHash : HexHash;
  Result : bytes;
  serialized : bytes
}.

Record BlockHeaderResult : Type := mkBlockHeaderResult {
  ReceiptHash : bytes
}.

Record TxResult : Type := mkTxResult {
  EventLogsHash : bytes
}.

Record EventLog : Type := mkEventLog {
  Addr : bytes;
  Indexed : list bytes;
  Data : list bytes
}.

Record BlockNotification : Type := mkBlockNotification {
  bn_Hash : HexBytes;
  bn_Height : HexInt;
  bn_Indexes : list (list HexInt);
  bn_Events : list (list (list HexInt))
}.

Record ProofEventsParam : Type := mkProofEventsParam {
  pe_Index : HexInt;
  pe_BlockHash : HexBytes;
  pe_Events : list HexInt
}.

Record TransactionParam : Type := mkTransactionParam {
  tx_Body : string;
  Timestamp : HexInt;
  Signature : string;
  TxHash : HexBytes
}.

Record TransactionResult : Type := mkTransactionResult {
  txr_Status : HexInt;
  txr_Raw : string
}.

Record VerifierOptions : Type := mkVerifierOptions {
  BlockHeight : Z;
  ValidatorsHash : HexHash
}.

(** The verifier as [newVerifer] builds it. *)
Record Verifier : Type := mkVerifier {
  next : Z;
  nextValidatorsHash : HexHash;
  validators : gmap string (list Address)
}.

(** ** Collaborators

    Pure helpers of the package and of its libraries that are not part of
    the files modelled here. *)
Class Codec : Type := {
  SHA3Sum256 : bytes -> bytes;
  HexInt_Value : HexInt -> Z * option error;
  HexBytes_Value : HexBytes -> bytes * option error;
  NewHexInt : Z -> HexInt;
  NewHexBytes : bytes -> HexBytes;
  HexHash_String : HexHash -> string;
  HexInt_SetBytes_Uint64 : bytes -> Z;
  mapError : error -> error;
  RLP_BlockHeader : bytes -> BlockHeader * option error;
  RLP_BlockHeaderResult : bytes -> BlockHeaderResult * option error;
  RLP_TxResult : bytes -> TxResult * option error;
  RLP_EventLog : bytes -> EventLog * option error;
  BC_Validators : bytes -> list Address * option error;
  mptProve : HexInt -> list bytes -> bytes -> result bytes;
  json_Marshal : TransactionParam -> result bytes;
  SerializeJSON : bytes -> option bytes -> gmap string bool -> result bytes;
  base64_EncodeToString : bytes -> string;
  ParseInt : string -> Z -> Z -> result Z;
  JsonrpcErrorCodeSystem : Z;
  JsonrpcErrorCodePending : Z;
  JsonrpcErrorCodeExecuting : Z
}.

(** The node behind [c.Do]: one oracle per JSON-RPC method.  The first
    argument counts the calls made so far, so that the node may answer
    the same request differently over time. *)
Class Node : Type := {
  icx_getBlockHeaderByHeight : nat -> Z -> result bytes;
  icx_getVotesByHeight : nat -> Z -> result bytes;
  icx_getDataByHash : nat -> HexBytes -> result bytes;
  icx_getProofForEvents : nat -> ProofEventsParam -> result (list (list bytes));
  icx_sendTransaction : nat -> TransactionParam -> result HexBytes;
  icx_getTransactionResult : nat -> HexBytes -> result TransactionResult
}.

(** The methods of the light-client verifier the receiver calls. *)
Class VerifierOps : Type := {
  Next : Verifier -> Z;
  Validators : Verifier -> HexHash -> list Address;
  Verify : Verifier -> option BlockHeader -> bytes -> bool * option error;
  Update : Verifier -> option BlockHeader -> list Address
           -> Verifier * option error
}.

(** [type Wallet interface]. *)
Class Wallet : Type := {
  Sign : bytes -> result bytes;
  WalletAddress : string
}.

(** ** [client.go] *)

Module Client.
Section Client.
Context `{Codec} `{Node}.

Definition DefaultSendTransactionRetryInterval : Z := 3 * 1000000000.
Definition DefaultGetTransactionResultPollingInterval : Z := 1500 * 1000000.

Definition txSerializeExcludes : gmap string bool := {[ "signature" := true ]}.

Definition sendTransaction_prefix : bytes := bytes_of "icx_sendTransaction.".

(** [SignTransaction] writes through the pointer [p]: the parameter as
    it is left, and the error returned.  [now] is
    [time.Now().UnixNano()]. *)
Definition SignTransaction `{Wallet} (p : TransactionParam) (now : Z)
  : TransactionParam * option error :=
  let p1 := mkTransactionParam (tx_Body p)
              (NewHexInt (Z.quot now 1000)) (Signature p) (TxHash p) in
  match json_Marshal p1 with
  | Err e => (p1, Some e)
  | Ok js =>
      match SerializeJSON js None txSerializeExcludes with
      | Err e => (p1, Some e)
      | Ok bs =>
          let bs := sendTransaction_prefix ++ bs in
          let txHash := SHA3Sum256 bs in
          let p2 := mkTransactionParam (tx_Body p1) (Timestamp p1)
                      (Signature p1) (NewHexBytes txHash) in
          match Sign txHash with
          | Err e => (p2, Some e)
          | Ok sig =>
              (mkTransactionParam (tx_Body p2) (Timestamp p2)
                 (base64_EncodeToString sig) (TxHash p2), None)
          end
      end
  end.

(** [SendTransaction] and [GetTransactionResult]: on an error of [c.Do]
    the pointer returned is [nil]. *)
Definition SendTransaction (w : nat) (p : TransactionParam)
  : option HexBytes * option error :=
  match icx_sendTransaction w p with
  | Err e => (None, Some e)
  | Ok r => (Some r, None)
  end.

Definition GetTransactionResult (w : nat) (hash : HexBytes)
  : option TransactionResult * option error :=
  match icx_getTransactionResult w hash with
  | Err e => (None, Some e)
  | Ok tr => (Some tr, None)
  end.

(** What a call of [SendTransactionAndGetResult] comes to: it returns,
    it panics, or it is still looping when the fuel is spent. *)
Inductive outcome : Type :=
| Returned (hash : HexBytes) (txr : option TransactionResult)
           (err : option error)
| Panicked (msg : string)
| Looping.

(** The state of the helper: [thp.Hash], the calls made so far, and the
    durations passed to [time.Sleep], latest last. *)
Record sstate : Type := mkSstate {
  thp_Hash : HexBytes;
  calls : nat;
  slept : list Z
}.

(** [re.Message[1:5]]: a slice expression on a string panics out of
    range. *)
Definition slice_1_5 (m : string) : option string :=
  if decide (5 <= Z.of_nat (String.length m)) then Some (substring 1 4 m)
  else None.

Inductive phase1 : Type :=
| Accepted (st : sstate)
| Stopped (o : outcome).

(** One pass of [txLoop] on the error of [SendTransaction]; [None] is
    [continue txLoop]. *)
Definition on_send_error (st : sstate) (txh : option HexBytes) (err : error)
  : option phase1 :=
  let fallthrough := Some (Stopped (Returned (thp_Hash st) None (Some err))) in
  match err with
  | ErrSendFailByOverflow =>
      None
  | JsonrpcError code message =>
      if decide (code = JsonrpcErrorCodeSystem) then
        match slice_1_5 message with
        | None => Some (Stopped (Panicked "slice bounds out of range"))
        | Some sub =>
            match ParseInt sub 0 32 with
            | Ok subEc =>
                if decide (subEc = 2000) then
                  (* thp.Hash = *txh *)
                  match txh with
                  | Some h =>
                      Some (Accepted (mkSstate h (calls st) (slept st)))
                  | None =>
                      Some (Stopped (Panicked "nil pointer dereference"))
                  end
                else fallthrough
            | Err _ => fallthrough
            end
        end
      else fallthrough
  | _ => fallthrough
  end.

Fixpoint txLoop (fuel : nat) (p : TransactionParam) (st : sstate) : phase1 :=
  match fuel with
  | O => Stopped Looping
  | S fuel' =>
      let '(txh, err) := SendTransaction (calls st) p in
      let st := mkSstate (thp_Hash st) (S (calls st)) (slept st) in
      match err with
      | Some e =>
          match on_send_error st txh e with
          | None =>
              txLoop fuel' p
                (mkSstate (thp_Hash st) (calls st)
                   (slept st ++ [DefaultSendTransactionRetryInterval]))
          | Some ph => ph
          end
      | None =>
          match txh with
          | Some h => Accepted (mkSstate h (calls st) (slept st))
          | None => Stopped (Panicked "nil pointer dereference")
          end
      end
  end.

Definition is_pending_or_executing (err : option error) : bool :=
  match err with
  | Some (JsonrpcError code _) =>
      bool_decide (code = JsonrpcErrorCodePending \/
                   code = JsonrpcErrorCodeExecuting)
  | _ => false
  end.

Fixpoint txrLoop (fuel : nat) (st : sstate) : outcome * sstate :=
  match fuel with
  | O => (Looping, st)
  | S fuel' =>
      let st := mkSstate (thp_Hash st) (calls st)
                  (slept st ++ [DefaultGetTransactionResultPollingInterval]) in
      let '(txr, err) := GetTransactionResult (calls st) (thp_Hash st) in
      let st := mkSstate (thp_Hash st) (S (calls st)) (slept st) in
      if is_pending_or_executing err then txrLoop fuel' st
      else (Returned (thp_Hash st) txr err, st)
  end.

Definition SendTransactionAndGetResult (fuel : nat) (p : TransactionParam)
  : outcome :=
  match txLoop fuel p (mkSstate "" O []) with
  | Stopped o => o
  | Accepted st => fst (txrLoop fuel st)
  end.

(** [getBlockHeaderByHeight]. *)
Definition getBlockHeaderByHeight (w : nat) (height : Z) : result BlockHeader :=
  match icx_getBlockHeaderByHeight w height with
  | Err e => Err (mapError e)
  | Ok b =>
      match RLP_BlockHeader b with
      | (_, Some e) => Err e
      | (bh, None) =>
          Ok (mkBlockHeader (bh_Height bh) (NextValidatorsHash bh)
                (Result bh) b)
      end
  end.

(** [getValidatorsByHash]. *)
Definition getValidatorsByHash (w : nat) (hash : HexHash)
  : result (list Address) :=
  match icx_getDataByHash w (NewHexBytes hash) with
  | Err e => Err (ErrWrap "GetDataByHash" e)
  | Ok data =>
      if decide (hash = SHA3Sum256 data) then
        match BC_Validators data with
        | (_, Some e) => Err (ErrWrap "Unmarshal Validators" e)
        | (validators, None) => Ok validators
        end
      else Err (ErrNew "invalid data")
  end.

(** [WaitForResults].  What the [select] takes at each pass is an input:
    the context is done, or the ticker has fired. *)
Inductive wait_event : Type :=
| WaitCtxDone
| WaitTick.

Definition retryLimit : Z := 10.

(** The named results [txr] and [err], the counter, and the calls
    made so far. *)
Record wstate : Type := mkWstate {
  retryCounter : Z;
  w_txr : option TransactionResult;
  w_err : option error;
  w_calls : nat
}.

Fixpoint waitLoop (evs : list wait_event) (hash : HexBytes) (st : wstate)
  : outcome * wstate :=
  match evs with
  | [] => (Looping, st)
  | WaitCtxDone :: _ =>
      (Returned hash (w_txr st)
         (Some (ErrNew "Context Cancelled ReceiptWait Exiting ")), st)
  | WaitTick :: evs' =>
      if decide (retryCounter st >= retryLimit) then
        (Returned hash (w_txr st)
           (Some (ErrNew
              "Retry Limit Exceeded while waiting for results of transaction")),
         st)
      else
        let '(txr, err) := GetTransactionResult (w_calls st) hash in
        let st := mkWstate (retryCounter st + 1) txr err (S (w_calls st)) in
        if is_pending_or_executing err then waitLoop evs' hash st
        else (Returned hash txr err, st)
  end.

(** [w] is the number of calls the node has seen before. *)
Definition WaitForResults (w : nat) (evs : list wait_event) (hash : HexBytes)
  : outcome * wstate :=
  waitLoop evs hash (mkWstate 0 None None w).

End Client.
End Client.

(** ** [client.go]: the options sent in the [Icon-Options] header *)

Module IconOptions.

Definition HeaderKeyIconOptions : string := "Icon-Options".
Definition IconOptionsDebug : string := "debug".
Definition IconOptionsTimeout : string := "timeout".

(** [type IconOptions map[string]string]; [None] is the nil map. *)
Definition t : Type := option (gmap string string).

(** What a method that writes the map comes to: an assignment to an
    entry of a nil map panics. *)
Inductive written : Type :=
| Stored (opts : t)
| NilMapPanic.

(** [Set]; the name is a keyword here. *)
Definition Set_ (opts : t) (key value : string) : written :=
  match opts with
  | None => NilMapPanic
  | Some m => Stored (Some (<[key := value]> m))
  end.

Definition Get (opts : t) (key : string) : string :=
  match opts with
  | None => ""
  | Some m =>
      let v := default "" (m !! key) in
      if decide (String.length v = 0%nat) then "" else v
  end.

Definition Del (opts : t) (key : string) : t :=
  match opts with
  | None => None
  | Some m => Some (delete key m)
  end.

(** [strconv.FormatBool] and [strconv.ParseBool] of Go's library, with
    the [*strconv.NumError] the latter returns for a string it does not
    know. *)
Definition FormatBool (b : bool) : string := if b then "true" else "false".

Definition ErrSyntax : error := ErrNew "invalid syntax".

Record NumError : Type := mkNumError {
  Func : string;
  Num : string;
  ne_Err : error
}.

Definition ParseBool (str : string) : bool * option NumError :=
  if decide (str ∈ ["1"; "t"; "T"; "true"; "TRUE"; "True"])
  then (true, None)
  else if decide (str ∈ ["0"; "f"; "F"; "false"; "FALSE"; "False"])
  then (false, None)
  else (false, Some (mkNumError "ParseBool" str ErrSyntax)).

Definition SetBool (opts : t) (key : string) (value : bool) : written :=
  Set_ opts key (FormatBool value).

Definition GetBool (opts : t) (key : string) : bool * option NumError :=
  ParseBool (Get opts key).

(** [fmt.Sprintf("%s=%s", k, v)] *)
Definition entry (kv : string * string) : string := kv.1 ++ "=" ++ kv.2.

(** [strings.Join]. *)
Fixpoint Join (strs : list string) (sep : string) : string :=
  match strs with
  | [] => ""
  | [s] => s
  | s :: rest => s ++ sep ++ Join rest sep
  end.

(** [ToHeaderValue].  The order in which [range] visits a map is not
    specified: it is an input, a list holding the entries of the
    map. *)
Definition visits (opts : t) (order : list (string * string)) : Prop :=
  match opts with
  | None => order = []
  | Some m => order ≡ₚ map_to_list m
  end.

Definition ToHeaderValue (opts : t) (order : list (string * string))
  : string :=
  match opts with
  | None => ""
  | Some _ => Join (map entry order) ","
  end.

(** [strings.Split] and [strings.Index] for a separator of one byte. *)
Fixpoint Split (s : string) (sep : ascii) : list string :=
  match s with
  | EmptyString => [""]
  | String a s' =>
      if decide (a = sep) then "" :: Split s' sep
      else match Split s' sep with
           | piece :: rest => String a piece :: rest
           | [] => [String a ""]
           end
  end.

Fixpoint Index (s : string) (c : ascii) : Z :=
  match s with
  | EmptyString => -1
  | String a s' =>
      if decide (a = c) then 0
      else let i := Index s' c in
           if decide (i < 0) then -1 else i + 1
  end.

(** [http.Header] and its [Get]: the first value of the key, which is
    here in canonical form. *)
Definition http_Header : Type := gmap string (list string).

Definition Header_Get (h : http_Header) (key : string) : string :=
  match h !! key with
  | Some (v :: _) => v
  | _ => ""
  end.

(** The body of [for _, kv := range kvs]. *)
Definition parse_entry (m : gmap string string) (kv : string)
  : gmap string string :=
  if decide (kv <> "") then
    let idx := Index kv "="%char in
    if decide (idx > 0) then
      <[ substring 0 (Z.to_nat idx) kv :=
           substring (Z.to_nat idx + 1)
             (String.length kv - (Z.to_nat idx + 1)) kv ]> m
    else <[ kv := "" ]> m
  else m.

Definition NewIconOptionsByHeader (h : http_Header) : t :=
  let s := Header_Get h HeaderKeyIconOptions in
  if decide (s <> "") then Some (fold_left parse_entry (Split s ","%char) ∅)
  else None.

(** The header value [NewClient] sets: [opts := IconOptions{}],
    [opts.SetBool(IconOptionsDebug, true)], [opts.ToHeaderValue()].  A
    map with one entry is visited in one way. *)
Definition NewClient_header : written * string :=
  match SetBool (Some ∅) IconOptionsDebug true with
  | Stored opts =>
      (Stored opts,
       ToHeaderValue opts
         (match opts with Some m => map_to_list m | None => [] end))
  | NilMapPanic => (NilMapPanic, "")
  end.

End IconOptions.

(** ** [client.go]: the websocket monitor

    The connection is driven by the peer and the network: what a dial,
    a write or a read comes to is an input of the model.  The client
    keeps the table [conns] of its open connections; the operations it
    performs on the network are recorded in [wire]. *)

Module Ws.

(** [WSEvent], [WSResponse] and [ErrConnectFail] come from the type file
    of the package. *)
Inductive WSEvent : Type :=
| WSEventInit
| WSEventOther (name : string).

Record WSResponse : Type := mkWSResponse {
  ws_Code : Z;
  ws_Message : string
}.

(** [websocket.CloseNormalClosure]. *)
Definition CloseNormalClosure : Z := 1000.

(** The error values the monitor tells apart.  [Errorf_err f err] is
    [fmt.Errorf(f, err)] and [Errorf_response f code message] is
    [fmt.Errorf(f, code, message)]; [wsConnectError] and
    [wsRequestError] are the structs of these names. *)
Inductive wserror : Type :=
| Plain (e : error)
| CloseError (code : Z)                  (* *websocket.CloseError *)
| io_EOF
| context_Canceled
| context_DeadlineExceeded
| ErrConnectFail
| wsConnectError (e : wserror)
| Errorf_err (format : string) (err : wserror)
| Errorf_response (format : string) (code : Z) (message : string)
| wsRequestError (e : wserror) (wsResp : option WSResponse).

Inductive wres (A : Type) : Type :=
| WOk (a : A)
| WErr (e : wserror).
Arguments WOk {A} a.
Arguments WErr {A} e.

Record Conn : Type := mkConn {
  LocalAddr : string;
  serial : nat
}.

(** What the callback of [Monitor] is handed as an [interface{}]. *)
Inductive wsvalue (V : Type) : Type :=
| VResponse (v : V)
| VEvent (e : WSEvent)
| VError (e : wserror)
| VOther (typ : string).
Arguments VResponse {V} v.
Arguments VEvent {V} e.
Arguments VError {V} e.
Arguments VOther {V} typ.

Inductive op : Type :=
| Dial (url : string)
| WriteJSON (conn : Conn)
| ReadJSON (conn : Conn)
| NextReader (conn : Conn)
| WriteCloseMessage (conn : Conn)
| CloseConn (conn : Conn).

Record client : Type := mkClient {
  Endpoint : string;
  conns : gmap string Conn;
  wire : list op
}.

Definition did (c : client) (o : op) : client :=
  mkClient (Endpoint c) (conns c) (wire c ++ [o]).

Definition _addWsConn (c : client) (conn : Conn) : client :=
  mkClient (Endpoint c) (<[LocalAddr conn := conn]> (conns c)) (wire c).

Definition _removeWsConn (c : client) (conn : Conn) : client :=
  let la := LocalAddr conn in
  match conns c !! la with
  | Some _ => mkClient (Endpoint c) (delete la (conns c)) (wire c)
  | None => c
  end.

(** [strings.Replace(s, old, new, 1)] for a non-empty [old]. *)
Fixpoint Replace1 (s old new : string) : string :=
  match s with
  | EmptyString => EmptyString
  | String a s' =>
      if String.prefix old s then
        new +:+ substring (String.length old)
                  (String.length s - String.length old) s
      else String a (Replace1 s' old new)
  end.

Definition wsConnect (c : client) (reqUrl : string) (dialed : wres Conn)
  : client * wres Conn :=
  let wsEndpoint := Replace1 (Endpoint c) "http" "ws" in
  let c := did c (Dial (wsEndpoint +:+ reqUrl)) in
  match dialed with
  | WErr e => (c, WErr (wsConnectError e))
  | WOk conn => (_addWsConn c conn, WOk conn)
  end.

Inductive requested : Type :=
| RequestOk
| RequestErr (e : wserror)
| RequestPanic (msg : string).

Definition wsRequest {R : Type} (c : client) (conn : Conn)
    (reqPtr : option R) (written : option wserror) (response : wres WSResponse)
  : client * requested :=
  match reqPtr with
  | None => (c, RequestPanic "reqPtr cannot be nil")
  | Some _ =>
      let c := did c (WriteJSON conn) in
      match written with
      | Some err =>
          (c, RequestErr
                (wsRequestError (Errorf_err "fail to WriteJSON err:%+v" err)
                   None))
      | None =>
          let c := did c (ReadJSON conn) in
          match response with
          | WErr err =>
              (c, RequestErr
                    (wsRequestError
                       (Errorf_err "fail to ReadJSON err:%+v" err) None))
          | WOk wsResp =>
              if decide (ws_Code wsResp <> 0) then
                (c, RequestErr
                      (wsRequestError
                         (Errorf_response
                            "invalid WSResponse code:%d, message:%s"
                            (ws_Code wsResp) (ws_Message wsResp))
                         (Some wsResp)))
              else (c, RequestOk)
          end
      end
  end.

(** [wsClose]; the errors of the two writes are only logged. *)
Definition wsClose (c : client) (conn : Conn) : client :=
  did (did (_removeWsConn c conn) (WriteCloseMessage conn)) (CloseConn conn).

Definition CloseMonitor (c : client) (conn : Conn) : client := wsClose c conn.

(** [CloseAllMonitor]: the [range] over [c.conns] in the order [order];
    an entry removed before the loop reaches it is not visited. *)
Fixpoint CloseAllMonitor (order : list (string * Conn)) (c : client)
  : client :=
  match order with
  | [] => c
  | (k, conn) :: rest =>
      match conns c !! k with
      | Some _ => CloseAllMonitor rest (wsClose c conn)
      | None => CloseAllMonitor rest c
      end
  end.

Inductive mres : Type :=
| Returned (err : option wserror)
| Panicked (msg : string)
| Reading.

Section Monitor.
Context {V S : Type}.

(** [type wsReadCallback]: a function of the connection and of an
    [interface{}] value that returns an error; here with the state the
    closure works on. *)
Definition wsReadCallback : Type := S -> Conn -> wsvalue V -> S * option wserror.

(** What one call of [wsRead] finds. *)
Inductive frame : Type :=
| NextReaderErr (e : wserror)
| CloseMessage
| Decoded (v : V)
| DecodeErr (e : wserror).

Definition wsRead (f : frame) : wres V :=
  match f with
  | NextReaderErr e => WErr e
  | CloseMessage => WErr io_EOF
  | Decoded v => WOk v
  | DecodeErr e => WErr e
  end.

(** What happens around one pass of the loop of [wsReadJSONLoop]: the
    context is found done, another goroutine has closed the connection
    and taken it out of [conns], or a read comes to [f]. *)
Inductive wsevent : Type :=
| CtxDone (err : wserror)
| Removed
| Frame (f : frame).

(** The test before [cb(conn, err)]: the error is not a
    [websocket.CloseError], or its code is not [CloseNormalClosure]. *)
Definition reported (err : wserror) : bool :=
  match err with
  | CloseError code => negb (bool_decide (code = CloseNormalClosure))
  | _ => true
  end.

Fixpoint wsReadJSONLoop (cb : wsReadCallback) (conn : Conn)
    (evs : list wsevent) (c : client) (s : S) : client * S * mres :=
  match evs with
  | [] => (c, s, Reading)
  | CtxDone err :: _ => (c, s, Returned (Some err))
  | Removed :: evs' => wsReadJSONLoop cb conn evs' (wsClose c conn) s
  | Frame f :: evs' =>
      match conns c !! LocalAddr conn with
      | None =>
          (c, s, Returned (Some (Plain (ErrNew "wsReadJSONLoop c.conns is nil"))))
      | Some _ =>
          let c := did c (NextReader conn) in
          match wsRead f with
          | WErr err =>
              let s := if reported err then fst (cb s conn (VError err))
                       else s in
              (c, s, Returned (Some err))
          | WOk v =>
              match cb s conn (VResponse v) with
              | (s, Some err) => (c, s, Returned (Some err))
              | (s, None) => wsReadJSONLoop cb conn evs' c s
              end
          end
      end
  end.

(** What the network does during one call of [Monitor]. *)
Record network : Type := mkNetwork {
  dialed : wres Conn;
  written : option wserror;
  response : wres WSResponse;
  events : list wsevent
}.

Definition Monitor {R : Type} (c : client) (reqUrl : string)
    (reqPtr : option R) (cb : option wsReadCallback) (net : network) (s : S)
  : client * S * mres :=
  match cb with
  | None =>
      (c, s, Returned (Some (Plain (ErrNew "callback function cannot be nil"))))
  | Some cb =>
      match wsConnect c reqUrl (dialed net) with
      | (c, WErr _) => (c, s, Returned (Some ErrConnectFail))
      | (c, WOk conn) =>
          let '(c, s, res) :=
            match wsRequest c conn reqPtr (written net) (response net) with
            | (c, RequestPanic msg) => (c, s, Panicked msg)
            | (c, RequestErr err) => (c, s, Returned (Some err))
            | (c, RequestOk) =>
                match cb s conn (VEvent WSEventInit) with
                | (s, Some err) => (c, s, Returned (Some err))
                | (s, None) => wsReadJSONLoop cb conn (events net) c s
                end
            end in
          (* the deferred c.wsClose(conn) *)
          match res with
          | Reading => (c, s, res)
          | _ => (wsClose c conn, s, res)
          end
      end
  end.

End Monitor.

Section MonitorBlock.
Context {V S R : Type}.

(** The closure [MonitorBlock] hands to [Monitor]. *)
Definition block_callback
    (cb : S -> Conn -> V -> S * option wserror)
    (scb : option (S -> Conn -> S))
    (errCb : S -> Conn -> wserror -> S) : wsReadCallback (V := V) (S := S) :=
  fun s conn v =>
    match v with
    | VResponse t => cb s conn t
    | VEvent t =>
        match t with
        | WSEventInit =>
            match scb with
            | Some f => (f s conn, None)
            | None =>
                (s, Some (Plain
                            (ErrNew "Second Callback function (scb) is nil ")))
            end
        | WSEventOther _ => (s, None)
        end
    | VError t => (errCb s conn t, Some t)
    | VOther typ =>
        (errCb s conn (Plain (ErrNew ("not supported type " +:+ typ))),
         Some (Plain (ErrNew "Not supported type")))
    end.

Definition MonitorBlock (c : client) (p : R)
    (cb : S -> Conn -> V -> S * option wserror)
    (scb : option (S -> Conn -> S))
    (errCb : S -> Conn -> wserror -> S) (net : network) (s : S)
  : client * S * mres :=
  Monitor c "/block" (Some p) (Some (block_callback cb scb errCb)) net s.

(** The closure [MonitorEvent] hands to [Monitor]: it has no case for a
    [WSEvent], which goes to [default], and it returns [nil] in every
    case. *)
Definition event_callback
    (cb : S -> Conn -> V -> S * option wserror)
    (errCb : S -> Conn -> wserror -> S) : wsReadCallback (V := V) (S := S) :=
  fun s conn v =>
    match v with
    | VResponse t => (fst (cb s conn t), None)
    | VError t => (errCb s conn t, None)
    | VEvent _ =>
        (errCb s conn (Plain (ErrNew "not supported type icon.WSEvent")),
         None)
    | VOther typ =>
        (errCb s conn (Plain (ErrNew ("not supported type " +:+ typ))), None)
    end.

Definition MonitorEvent (c : client) (p : R)
    (cb : S -> Conn -> V -> S * option wserror)
    (errCb : S -> Conn -> wserror -> S) (net : network) (s : S)
  : client * S * mres :=
  Monitor c "/event" (Some p) (Some (event_callback cb errCb)) net s.

End MonitorBlock.

End Ws.

(** ** [receiver.go] *)

Record ReceiverOptions : Type := mkReceiverOptions {
  SyncConcurrency : Z;
  ro_Verifier : option VerifierOptions
}.

Record EventFilter : Type := mkEventFilter {
  ef_Addr : string;
  ef_Signature : string;
  ef_Indexed : list string
}.

Record BlockRequest : Type := mkBlockRequest {
  br_Height : HexInt;
  EventFilters : list EventFilter
}.

(** What [NewReceiver] takes from other packages: the JSON decoder for
    the options, and the methods of [chain.BTPAddress] and
    [Address]. *)
Class Config : Type := {
  json_Unmarshal_ReceiverOptions : bytes -> ReceiverOptions * option error;
  BTPAddress_String : string -> string;
  BTPAddress_ContractAddress : string -> string;
  Address_Value : string -> result bytes
}.

Module Receiver.

Definition EventSignature : string := "Message(str,int,bytes)".
Definition EventIndexSignature : nat := 0.
Definition EventIndexNext : nat := 1.
Definition EventIndexSequence : nat := 2.
Definition RPCCallRetry : Z := 5.
Definition MonitorBlockMaxConcurrency : Z := 300.

Record eventLogRawFilter : Type := mkFilter {
  f_addr : bytes;
  f_signature : bytes;
  f_next : bytes;
  f_seq : Z
}.

(** [type res struct] of [receiveLoop]; [syncVerifier] declares the same
    without [Hash] and [Receipts]. *)
Record res : Type := mkRes {
  r_Height : Z;
  r_Hash : bytes;
  r_Header : option BlockHeader;
  r_Votes : bytes;
  r_NextValidators : list Address;
  r_Receipts : list chain.Receipt
}.

Definition zero_res : res := mkRes 0 [] None [] [] [].

(** [type req struct]. *)
Record req : Type := mkReq {
  q_height : Z;
  q_hash : HexBytes;
  q_indexes : list (list HexInt);
  q_events : list (list (list HexInt));
  q_retry : Z;
  q_err : option error;
  q_res : option res
}.

Definition with_Height (h : Z) (r : res) : res :=
  mkRes h (r_Hash r) (r_Header r) (r_Votes r) (r_NextValidators r) (r_Receipts r).
Definition with_Hash (h : bytes) (r : res) : res :=
  mkRes (r_Height r) h (r_Header r) (r_Votes r) (r_NextValidators r) (r_Receipts r).
Definition with_Header (h : option BlockHeader) (r : res) : res :=
  mkRes (r_Height r) (r_Hash r) h (r_Votes r) (r_NextValidators r) (r_Receipts r).
Definition with_Votes (v : bytes) (r : res) : res :=
  mkRes (r_Height r) (r_Hash r) (r_Header r) v (r_NextValidators r) (r_Receipts r).
Definition with_NextValidators (v : list Address) (r : res) : res :=
  mkRes (r_Height r) (r_Hash r) (r_Header r) (r_Votes r) v (r_Receipts r).
Definition add_Receipt (rc : chain.Receipt) (r : res) : res :=
  mkRes (r_Height r) (r_Hash r) (r_Header r) (r_Votes r) (r_NextValidators r)
    (r_Receipts r ++ [rc]).

(** *** The fetch goroutine

    The goroutine writes [q.res] and [q.err] as it goes and may return
    early; a slice or pointer access out of range panics. *)

(** The remote calls a goroutine makes, for the record. *)
Inductive call : Type :=
| CallGetBlockHeaderByHeight (height : Z)
| CallGetVotesByHeight (height : Z)
| CallGetDataByHash (hash : HexHash)
| CallGetProofForEvents (p : ProofEventsParam).

Record tstate : Type := mkT {
  t_res : res;
  t_err : option error;
  t_calls : list call
}.

Inductive tstep (A : Type) : Type :=
| Next_ (a : A) (s : tstate)
| Exit (s : tstate)
| Panic (msg : string).
Arguments Next_ {A} a s.
Arguments Exit {A} s.
Arguments Panic {A} msg.

Definition T (A : Type) : Type := tstate -> tstep A.

Definition tret {A} (a : A) : T A := fun s => Next_ a s.
Definition tbind {A B} (m : T A) (k : A -> T B) : T B :=
  fun s => match m s with
           | Next_ a s' => k a s'
           | Exit s' => Exit s'
           | Panic msg => Panic msg
           end.

Notation "'do*' x ':=' m 'in' k" := (tbind m (fun x => k))
  (at level 10, x pattern, m at level 200, k at level 200).
Notation "m ';;' k" := (tbind m (fun _ => k))
  (at level 100, k at level 200, right associativity).

Definition set_res (f : res -> res) : T unit :=
  fun s => Next_ tt (mkT (f (t_res s)) (t_err s) (t_calls s)).
Definition set_err (e : option error) : T unit :=
  fun s => Next_ tt (mkT (t_res s) e (t_calls s)).
Definition calling (c : call) : T unit :=
  fun s => Next_ tt (mkT (t_res s) (t_err s) (t_calls s ++ [c])).
Definition panic {A} (msg : string) : T A := fun _ => Panic msg.

(** [if q.err != nil { q.err = errors.Wrapf(q.err, msg); return }] *)
Definition return_if_err (msg : string) : T unit :=
  fun s => match t_err s with
           | Some _ => Exit (mkT (t_res s) (Wrapf (t_err s) msg) (t_calls s))
           | None => Next_ tt s
           end.

(** [q.err = errors.Wrapf(q.err, msg); return] *)
Definition wrap_q_err_and_return {A} (msg : string) : T A :=
  fun s => Exit (mkT (t_res s) (Wrapf (t_err s) msg) (t_calls s)).

(** [q.err = e; return] *)
Definition fail {A} (e : error) : T A :=
  fun s => Exit (mkT (t_res s) (Some e) (t_calls s)).

(** [x[i]] on a slice. *)
Definition index {A} (l : list A) (i : nat) : T A :=
  match l !! i with
  | Some a => tret a
  | None => panic "index out of range"
  end.

(** A [for] loop over a slice with its index. *)
Fixpoint for_range {A} (body : nat -> A -> T unit) (i : nat) (l : list A)
  : T unit :=
  match l with
  | [] => tret tt
  | a :: l' => body i a ;; for_range body (S i) l'
  end.

(** A [for] loop over a slice that carries a local accumulator. *)
Fixpoint for_acc {A St} (body : St -> nat -> A -> T St) (acc : St) (i : nat)
    (l : list A) : T St :=
  match l with
  | [] => tret acc
  | a :: l' => do* acc' := body acc i a in for_acc body acc' (S i) l'
  end.

Section Fetch.
Context `{Codec} `{Node} `{VerifierOps}.

Definition matches (lf : eventLogRawFilter) (el : EventLog) (sig nxt : bytes)
  : bool :=
  bool_decide (Addr el = f_addr lf) &&
  bool_decide (sig = f_signature lf) &&
  bool_decide (nxt = f_next lf).

(** The body of [for j := 0; j < len(p.Events); j++]; the accumulator is
    [receipt.Events]. *)
Definition event_body (lf : eventLogRawFilter) (proofs : list (list bytes))
    (result : TxResult) (evs : list chain.Event) (j : nat) (ev : HexInt)
  : T (list chain.Event) :=
  do* proof := index proofs (S j) in
  match mptProve ev proof (EventLogsHash result) with
  | Err e => fail (ErrWrap "event.MPTProve" e)
  | Ok serializedEventLog =>
      match RLP_EventLog serializedEventLog with
      | (_, Some e) => fail (ErrWrap "event.UnmarshalFromBytes" e)
      | (el, None) =>
          do* sig := index (Indexed el) EventIndexSignature in
          do* nxt := index (Indexed el) EventIndexNext in
          if matches lf el sig nxt then
            do* sq := index (Indexed el) EventIndexSequence in
            do* msg := index (Data el) 0%nat in
            tret (evs ++ [chain.mkEvent (string_of_list_byte nxt)
                            (HexInt_SetBytes_Uint64 sq) msg])
          else fail (ErrNew "invalid event")
      end
  end.

(** The body of [for i, index := range q.indexes[0]]. *)
Definition receipt_body (w : nat) (lf : eventLogRawFilter) (q : req)
    (hr : BlockHeaderResult) (i : nat) (idx : HexInt) : T unit :=
  do* events0 := index (q_events q) 0%nat in
  do* p_Events := index events0 i in
  let p := mkProofEventsParam idx (q_hash q) p_Events in
  calling (CallGetProofForEvents p) ;;
  match icx_getProofForEvents w p with
  | Err e => fail (ErrWrap "GetProofForEvents" e)
  | Ok proofs =>
      if negb (bool_decide (length proofs = S (length p_Events))) then
        wrap_q_err_and_return "Proof does not include all events"
      else
        do* proof0 := index proofs 0%nat in
        match mptProve idx proof0 (ReceiptHash hr) with
        | Err e => fail (ErrWrap "MPTProve Receipt" e)
        | Ok serializedReceipt =>
            match RLP_TxResult serializedReceipt with
            | (_, Some e) => fail (ErrWrap "Unmarshal Receipt" e)
            | (result, None) =>
                let rIndex := u64 (fst (HexInt_Value idx)) in
                let rHeight := u64 (q_height q) in
                do* evs := for_acc (event_body lf proofs result) [] 0%nat
                             p_Events in
                if decide (0 < length evs)%nat then
                  if decide (length evs = length p_Events) then
                    set_res (add_Receipt (chain.mkReceipt rIndex rHeight evs))
                  else fail (ErrNew "failed to verify all events for the receipt")
                else tret tt
            end
        end
  end.

(** The votes and next validators, fetched only if a verifier exists. *)
Definition fetch_votes (w : nat) (vr : option Verifier) (q : req)
    (header : BlockHeader) : T unit :=
  match vr with
  | None => tret tt
  | Some vr =>
      calling (CallGetVotesByHeight (q_height q)) ;;
      match icx_getVotesByHeight w (q_height q) with
      | Err e => set_err (Some e) ;; return_if_err "GetVotesByHeight"
      | Ok votes =>
          set_res (with_Votes votes) ;; set_err None ;;
          if decide (length (Validators vr (NextValidatorsHash header)) = 0%nat)
          then
            calling (CallGetDataByHash (NextValidatorsHash header)) ;;
            match Client.getValidatorsByHash w (NextValidatorsHash header) with
            | Err e => set_err (Some e) ;; return_if_err "getValidatorsByHash"
            | Ok vs => set_res (with_NextValidators vs) ;; set_err None
            end
          else tret tt
      end
  end.

(** The goroutine started for a request of [receiveLoop]. *)
Definition fetch (vr : option Verifier) (lf : eventLogRawFilter) (w : nat)
    (q : req) : T unit :=
  set_res (with_Height (q_height q)) ;;
  (let '(h, e) := HexBytes_Value (q_hash q) in
   set_res (with_Hash h) ;; set_err e) ;;
  return_if_err "invalid hash" ;;
  calling (CallGetBlockHeaderByHeight (q_height q)) ;;
  match Client.getBlockHeaderByHeight w (q_height q) with
  | Err e =>
      set_res (with_Header None) ;; set_err (Some e) ;;
      return_if_err "getBlockHeader"
  | Ok header =>
      set_res (with_Header (Some header)) ;; set_err None ;;
      fetch_votes w vr q header ;;
      if (bool_decide (0 < length (q_indexes q))%nat &&
          bool_decide (0 < length (q_events q))%nat)%bool then
        let '(hr, _) := RLP_BlockHeaderResult (Result header) in
        return_if_err "BlockHeaderResult.UnmarshalFromBytes" ;;
        do* indexes0 := index (q_indexes q) 0%nat in
        for_range (receipt_body w lf q hr) 0%nat indexes0
      else tret tt
  end.

(** The goroutine started for a request of [syncVerifier]. *)
Definition fetch_sync (vr : Verifier) (w : nat) (q : req) : T unit :=
  set_res (with_Height (q_height q)) ;;
  calling (CallGetBlockHeaderByHeight (q_height q)) ;;
  match Client.getBlockHeaderByHeight w (q_height q) with
  | Err e =>
      set_res (with_Header None) ;; set_err (Some e) ;;
      return_if_err "syncVerifier: getBlockHeader"
  | Ok header =>
      set_res (with_Header (Some header)) ;; set_err None ;;
      calling (CallGetVotesByHeight (q_height q)) ;;
      match icx_getVotesByHeight w (q_height q) with
      | Err e => set_err (Some e) ;; return_if_err "syncVerifier: GetVotesByHeight"
      | Ok votes =>
          set_res (with_Votes votes) ;; set_err None ;;
          if decide (length (Validators vr (NextValidatorsHash header)) = 0%nat)
          then
            calling (CallGetDataByHash (NextValidatorsHash header)) ;;
            match Client.getValidatorsByHash w (NextValidatorsHash header) with
            | Err e =>
                set_err (Some e) ;;
                return_if_err "syncVerifier: getValidatorsByHash"
            | Ok vs => set_res (with_NextValidators vs) ;; set_err None
            end
          else tret tt
      end
  end.

(** Running a goroutine on [q]: it starts from a fresh [res] when
    [q.res] is nil, and leaves [q] with what it wrote, together with the
    calls it made.  [None] is a panic. *)
Definition run_task (task : req -> T unit) (q : req)
  : option (req * list call) :=
  let init := mkT (default zero_res (q_res q)) (q_err q) [] in
  match task q init with
  | Next_ _ s | Exit s =>
      Some (mkReq (q_height q) (q_hash q) (q_indexes q) (q_events q)
              (q_retry q) (t_err s) (Some (t_res s)), t_calls s)
  | Panic _ => None
  end.

End Fetch.

(** *** The collector: [for q := range qch]

    The collector and the goroutines it starts meet only on [qch].  A
    schedule says, step after step, whether the collector takes the
    next request from [qch] ([Pop]) or the [i]-th goroutine still
    running finishes and sends its request back ([Finish i]). *)

Inductive sched_step : Type :=
| Pop
| Finish (i : nat).

Record cstate : Type := mkC {
  c_qch : list req;
  c_running : list req;
  c_brs : list (option res);
  c_cap : nat;
  c_closed : bool;
  c_clock : nat;
  c_calls : list call;
  c_sleeps : nat;
  c_panicked : bool
}.

(** [brs = append(brs, v); if len(brs) == cap(brs) { close(qch) }] *)
Definition append_result (st : cstate) (rest : list req) (v : option res)
  : cstate :=
  let brs := c_brs st ++ [v] in
  mkC rest (c_running st) brs (c_cap st)
    (if decide (length brs = c_cap st) then true else c_closed st)
    (c_clock st) (c_calls st) (c_sleeps st) (c_panicked st).

Definition collect_step (task : nat -> req -> T unit) (st : cstate)
    (ev : sched_step) : cstate :=
  if c_panicked st then st else
  match ev with
  | Pop =>
      match c_qch st with
      | [] => st
      | q :: rest =>
          match q_err q, q_res q with
          | Some _, _ =>
              if decide (q_retry q > 0) then
                let q' := mkReq (q_height q) (q_hash q) (q_indexes q)
                            (q_events q) (q_retry q - 1) None None in
                if c_closed st then
                  mkC rest (c_running st) (c_brs st) (c_cap st) (c_closed st)
                    (c_clock st) (c_calls st) (c_sleeps st) true
                else
                  mkC (rest ++ [q']) (c_running st) (c_brs st) (c_cap st)
                    (c_closed st) (c_clock st) (c_calls st) (c_sleeps st)
                    (c_panicked st)
              else append_result st rest None
          | None, Some r => append_result st rest (Some r)
          | None, None =>
              match run_task (task (c_clock st)) q with
              | Some (q', calls) =>
                  mkC rest (c_running st ++ [q']) (c_brs st) (c_cap st)
                    (c_closed st) (S (c_clock st)) (c_calls st ++ calls)
                    (c_sleeps st) (c_panicked st)
              | None =>
                  mkC rest (c_running st) (c_brs st) (c_cap st) (c_closed st)
                    (S (c_clock st)) (c_calls st) (c_sleeps st) true
              end
          end
      end
  | Finish i =>
      match c_running st !! i with
      | None => st
      | Some q =>
          (* time.Sleep(500 * time.Millisecond); qch <- q *)
          if c_closed st then
            mkC (c_qch st) (delete i (c_running st)) (c_brs st) (c_cap st)
              (c_closed st) (c_clock st) (c_calls st) (S (c_sleeps st)) true
          else
            mkC (c_qch st ++ [q]) (delete i (c_running st)) (c_brs st)
              (c_cap st) (c_closed st) (c_clock st) (c_calls st)
              (S (c_sleeps st)) (c_panicked st)
      end
  end.

Definition collect_init (qch : list req) (clock : nat) : cstate :=
  mkC qch [] [] (length qch) false clock [] 0 false.

Definition collect (task : nat -> req -> T unit) (sch : list sched_step)
    (qch : list req) (clock : nat) : cstate :=
  fold_left (collect_step task) sch (collect_init qch clock).

(** The [range] loop is over when [qch] is closed and empty. *)
Definition collected (st : cstate) : bool :=
  c_closed st && bool_decide (c_qch st = []) && negb (c_panicked st).

(** The schedule of a single request tried [n] times: each time the
    goroutine is started, finishes, and what it left is looked at. *)
Fixpoint attempts (n : nat) : list sched_step :=
  match n with
  | O => []
  | S n' => Pop :: Finish 0 :: Pop :: attempts n'
  end.

(** *** After the batch: filter nil, sort, forward *)

Definition filter_nil (brs : list (option res)) : list res := omap id brs.

(** [sort.SliceStable] with [less(i, j) = brs[i].Height < brs[j].Height]:
    the stable sort, here by insertion. *)
Fixpoint insert_by_height (x : res) (l : list res) : list res :=
  match l with
  | [] => [x]
  | y :: l' =>
      if decide (r_Height y < r_Height x) then y :: insert_by_height x l'
      else x :: y :: l'
  end.

Definition sort_by_height (l : list res) : list res :=
  foldr insert_by_height [] l.

(** [for i, d := range brs { if d.Height == int64(next)+int64(i) { brch <- d } }] *)
Fixpoint forward_from (next : Z) (i : Z) (brs : list res) : list res :=
  match brs with
  | [] => []
  | d :: brs' =>
      if decide (r_Height d = i64 (next + i)) then
        d :: forward_from next (i64 (i + 1)) brs'
      else forward_from next (i64 (i + 1)) brs'
  end.

Definition forward (next : Z) (brs : list res) : list res :=
  forward_from next 0 brs.

Definition batch_results (next : Z) (brs : list (option res)) : list res :=
  let brs := filter_nil brs in
  if decide (0 < length brs)%nat then forward next (sort_by_height brs)
  else [].

(** *** [receiveLoop]: the orchestrator

    The orchestrator is one goroutine; each pass of its [select] is one
    step of the model.  What the environment decides is in the event:
    which arm fires, what the monitor goroutine has put on [bnch], in
    which order the fetch goroutines complete. *)

Record receiver : Type := mkReceiver {
  opts_SyncConcurrency : Z;
  opts_Verifier : option VerifierOptions;
  logFilter : eventLogRawFilter
}.

(** The clamp of [SyncConcurrency] in [NewReceiver]. *)
Definition clamp_SyncConcurrency (n : Z) : Z :=
  if decide (n < 1) then 1
  else if decide (n > MonitorBlockMaxConcurrency) then MonitorBlockMaxConcurrency
  else n.

Inductive event : Type :=
| CtxDone                                (* case <-ctx.Done() *)
| EchRecv (err : option error)           (* case err := <-ech *)
| RechRecv (scheds : list (list sched_step))   (* case <-rech *)
| BrchRecv                               (* case br := <-brch *)
| Default (sch : list sched_step)        (* default *)
| Notify (bn : BlockNotification)        (* the monitor: bnch <- v *)
| MonitorFailed.                         (* the monitor: reconnect() *)

Inductive lres (St : Type) : Type :=
| Running (st : St)
| Returned (err : option error)
| Panicked (msg : string)
| Blocked.
Arguments Running {St} st.
Arguments Returned {St} err.
Arguments Panicked {St} msg.
Arguments Blocked {St}.

Section Loop.
Context `{Codec} `{Node} `{VerifierOps}.
Context {CB : Type} (callback : CB -> list chain.Receipt -> result CB).
Variable r : receiver.

Definition capacity : nat := Z.to_nat (opts_SyncConcurrency r).

Record lstate : Type := mkL {
  l_next : Z;
  l_vr : option Verifier;
  l_brch : list res;
  l_bnch : list BlockNotification;
  l_rech : bool;
  l_cb : CB;
  l_clock : nat;
  l_calls : list call;
  l_monitors : list Z;
  l_delivered : list res
}.

(** [reconnect()]: signal [rech] unless a signal is pending, then empty
    [brch] and [bnch]. *)
Definition reconnect (st : lstate) : lstate :=
  mkL (l_next st) (l_vr st) [] [] true (l_cb st) (l_clock st) (l_calls st)
    (l_monitors st) (l_delivered st).

(** [newVerifer]. *)
Definition newVerifer (w : nat) (opts : VerifierOptions) : result Verifier :=
  let* validators := Client.getValidatorsByHash w (ValidatorsHash opts) in
  let vr := mkVerifier (i64 (BlockHeight opts)) (ValidatorsHash opts)
              {[ HexHash_String (ValidatorsHash opts) := validators ]} in
  let* header := Client.getBlockHeaderByHeight w (next vr) in
  let* votes := icx_getVotesByHeight w (next vr) in
  let '(ok, err) := Verify vr (Some header) votes in
  let err := if ok then err else Some (ErrNew "verification failed") in
  match err with
  | Some e => Err e
  | None => Ok vr
  end.

(** **** [syncVerifier] *)

(** [for i := vr.Next(); len(rqch) < cap(rqch); i++ { rqch <- &req{height: i} }] *)
Fixpoint sync_requests (i : Z) (n : nat) : list req :=
  match n with
  | O => []
  | S n' => mkReq i "" [] [] 0 None None :: sync_requests (i64 (i + 1)) n'
  end.

(** The verify-and-update pass over the sorted results. *)
Fixpoint sync_apply (vr : Verifier) (sres : list res)
  : Verifier * option error :=
  match sres with
  | [] => (vr, None)
  | x :: rest =>
      if decide (Next vr = r_Height x) then
        match Verify vr (r_Header x) (r_Votes x) with
        | (_, Some e) => (vr, Some (ErrWrap "syncVerifier: Verify" e))
        | (false, None) => (vr, Some (ErrNew "syncVerifier: invalid header"))
        | (true, None) =>
            match Update vr (r_Header x) (r_NextValidators x) with
            | (vr', Some e) => (vr', Some (ErrWrap "syncVerifier: Update" e))
            | (vr', None) => sync_apply vr' rest
            end
        end
      else sync_apply vr rest
  end.

Record sync_result : Type := mkSync {
  s_err : lres unit;
  s_vr : Verifier;
  s_clock : nat;
  s_calls : list call
}.

(** The loop [for vr.Next() < height]; one schedule per batch. *)
Fixpoint sync_loop (scheds : list (list sched_step)) (vr : Verifier)
    (height : Z) (clock : nat) (calls : list call) : sync_result :=
  if decide (Next vr < height) then
    match scheds with
    | [] => mkSync Blocked vr clock calls
    | sch :: scheds' =>
        let rqch := sync_requests (Next vr) capacity in
        let c := collect (fetch_sync vr) sch rqch clock in
        let calls := calls ++ c_calls c in
        if c_panicked c then
          mkSync (Panicked "panic in goroutine") vr (c_clock c) calls
        else if collected c then
          let sres := filter_nil (c_brs c) in
          let '(vr', err) :=
            if decide (0 < length sres)%nat
            then sync_apply vr (sort_by_height sres)
            else (vr, None) in
          match err with
          | Some e => mkSync (Returned (Some e)) vr' (c_clock c) calls
          | None => sync_loop scheds' vr' height (c_clock c) calls
          end
        else mkSync Blocked vr (c_clock c) calls
    end
  else mkSync (Returned None) vr clock calls.

Definition syncVerifier (scheds : list (list sched_step)) (vr : Verifier)
    (height : Z) (clock : nat) : sync_result :=
  if decide (height = Next vr) then mkSync (Returned None) vr clock []
  else if decide (Next vr > height) then
    mkSync (Returned (Some (ErrNew "invalid target height"))) vr clock []
  else sync_loop scheds vr height clock [].

(** **** The arms of the [select] *)

Inductive verdict : Type :=
| Verified (vr : option Verifier)
| VerificationFailed
| UpdateFailed (e : error).

(** [if vr != nil { Verify ...; Update ... }] on a block result. *)
Definition verify_block (vr : option Verifier) (br : res) : verdict :=
  match vr with
  | None => Verified None
  | Some vr =>
      let '(ok, err) := Verify vr (r_Header br) (r_Votes br) in
      if negb ok || bool_decide (err <> None) then VerificationFailed
      else
        match Update vr (r_Header br) (r_NextValidators br) with
        | (_, Some e) => UpdateFailed e
        | (vr', None) => Verified (Some vr')
        end
  end.

(** [case br := <-brch]: the loop [for ; br != nil; next++].  [brs] is
    [br] followed by what is left on [brch]. *)
Fixpoint drain (brs : list res) (st : lstate) : lres lstate :=
  match brs with
  | [] => Running st
  | br :: rest =>
      let st := mkL (l_next st) (l_vr st) rest (l_bnch st) (l_rech st)
                  (l_cb st) (l_clock st) (l_calls st) (l_monitors st)
                  (l_delivered st) in
      match verify_block (l_vr st) br with
      | VerificationFailed => Running (reconnect st)  (* reconnect(); break *)
      | UpdateFailed e =>
          Returned (Wrapf (Some e) "receiveLoop: update verifier")
      | Verified vr' =>
          match callback (l_cb st) (r_Receipts br) with
          | Err e => Returned (Wrapf (Some e) "receiveLoop: callback")
          | Ok cb' =>
              drain rest
                (mkL (i64 (l_next st + 1)) vr' rest (l_bnch st) (l_rech st)
                   cb' (l_clock st) (l_calls st) (l_monitors st)
                   (l_delivered st ++ [br]))
          end
      end
  end.

(** The same loop when the monitor goroutine is inside [reconnect()]
    meanwhile, receiving from [brch] as well: before the orchestrator
    looks at [len(brch)] for the [i]-th time, the monitor has taken
    [steals[i]] results off the channel and signalled [rech].  With no
    steal left this is [drain]. *)
Fixpoint drain_racing (steals : list nat) (brs : list res) (st : lstate)
  : lres lstate :=
  match steals with
  | [] => drain brs st
  | k :: steals' =>
      match brs with
      | [] => Running st
      | br :: rest =>
          let st := mkL (l_next st) (l_vr st) rest (l_bnch st) (l_rech st)
                      (l_cb st) (l_clock st) (l_calls st) (l_monitors st)
                      (l_delivered st) in
          match verify_block (l_vr st) br with
          | VerificationFailed => Running (reconnect st)
          | UpdateFailed e =>
              Returned (Wrapf (Some e) "receiveLoop: update verifier")
          | Verified vr' =>
              match callback (l_cb st) (r_Receipts br) with
              | Err e => Returned (Wrapf (Some e) "receiveLoop: callback")
              | Ok cb' =>
                  let rest' := drop k rest in
                  drain_racing steals' rest'
                    (mkL (i64 (l_next st + 1)) vr' rest' (l_bnch st)
                       (if decide (0 < k)%nat then true else l_rech st)
                       cb' (l_clock st) (l_calls st) (l_monitors st)
                       (l_delivered st ++ [br]))
              end
          end
      end
  end.

Inductive batch : Type :=
| BatchReady (qch : list req) (bnch : list BlockNotification)
| BatchReconnect
| BatchPanic
| BatchBlocked.

(** [for i := int64(0); bn != nil; i++]: fill [qch] with requests. *)
Fixpoint build_batch (next i : Z) (bn : BlockNotification)
    (bnch : list BlockNotification) (qch : list req) : batch :=
  match HexInt_Value (bn_Height bn) with
  | (_, Some _) => BatchPanic
  | (height, None) =>
      if decide (height <> i64 (next + i)) then BatchReconnect
      else if decide (length qch < capacity)%nat then
        let qch := qch ++ [mkReq height (bn_Hash bn) (bn_Indexes bn)
                             (bn_Events bn) RPCCallRetry None None] in
        match bnch with
        | bn' :: bnch' =>
            if decide (length qch < capacity)%nat
            then build_batch next (i64 (i + 1)) bn' bnch' qch
            else BatchReady qch bnch
        | [] => BatchReady qch []
        end
      else BatchBlocked
  end.

Definition step (st : lstate) (ev : event) : lres lstate :=
  match ev with
  | CtxDone => Returned None
  | EchRecv err => Returned err
  | RechRecv scheds =>
      if l_rech st then
        (* the new monitor goroutine: blockReq.Height = NewHexInt(next) *)
        let st := mkL (l_next st) (l_vr st) (l_brch st) (l_bnch st) false
                    (l_cb st) (l_clock st) (l_calls st)
                    (l_monitors st ++ [l_next st]) (l_delivered st) in
        match l_vr st with
        | None => Running st
        | Some vr =>
            let s := syncVerifier scheds vr (l_next st) (l_clock st) in
            match s_err s with
            | Returned None =>
                Running (mkL (l_next st) (Some (s_vr s)) (l_brch st)
                           (l_bnch st) (l_rech st) (l_cb st) (s_clock s)
                           (l_calls st ++ s_calls s) (l_monitors st)
                           (l_delivered st))
            | Returned (Some e) => Returned (Wrapf (Some e) "sync verifier")
            | Running _ | Blocked => Blocked
            | Panicked m => Panicked m
            end
        end
      else Blocked
  | BrchRecv =>
      match l_brch st with
      | [] => Blocked
      | brs => drain brs st
      end
  | Default sch =>
      if l_rech st then Blocked else
      match l_brch st with
      | _ :: _ => Blocked
      | [] =>
          match l_bnch st with
          | [] => Running st
          | bn :: bnch =>
              match build_batch (l_next st) 0 bn bnch [] with
              | BatchPanic => Panicked "bn.Height.Value"
              | BatchBlocked => Blocked
              | BatchReconnect => Running (reconnect st)
              | BatchReady qch bnch' =>
                  let c := collect (fetch (l_vr st) (logFilter r)) sch qch
                             (l_clock st) in
                  if c_panicked c then Panicked "panic in goroutine"
                  else if collected c then
                    let pushed := batch_results (l_next st) (c_brs c) in
                    if decide (length pushed <= capacity)%nat then
                      Running (mkL (l_next st) (l_vr st) pushed bnch'
                                 (l_rech st) (l_cb st) (c_clock c)
                                 (l_calls st ++ c_calls c) (l_monitors st)
                                 (l_delivered st))
                    else Blocked
                  else Blocked
              end
          end
      end
  | Notify bn =>
      if decide (length (l_bnch st) < capacity)%nat then
        Running (mkL (l_next st) (l_vr st) (l_brch st) (l_bnch st ++ [bn])
                   (l_rech st) (l_cb st) (l_clock st) (l_calls st)
                   (l_monitors st) (l_delivered st))
      else Blocked
  | MonitorFailed => Running (reconnect st)
  end.

(** A run of the loop: the events in turn, up to the first that makes
    the loop return or panic.  An event that cannot happen in the
    current state leaves it as it is. *)
Fixpoint run (st : lstate) (evs : list event) : lres lstate :=
  match evs with
  | [] => Running st
  | ev :: evs' =>
      match step st ev with
      | Running st' => run st' evs'
      | Blocked => run st evs'
      | Returned e => Returned e
      | Panicked m => Panicked m
      end
  end.



End Loop.

(** *** [Subscribe]: the goroutine around [receiveLoop] *)



Section Subscribe.
Context `{Codec} `{Node} `{VerifierOps}.



End Subscribe.

(** The [receiver] built, with the block request it keeps for the
    monitor and the URL its client is made for. *)
Record built : Type := mkBuilt {
  b_receiver : receiver;
  b_blockReq : BlockRequest;
  b_url : string
}.

Definition NewReceiver `{Config} (src dst : string) (urls : list string)
    (rawOpts : bytes) : result built :=
  match urls with
  | [] => Err (ErrNew "List of Urls is empty")
  | url :: _ =>
      match json_Unmarshal_ReceiverOptions rawOpts with
      | (_, Some e) => Err (ErrWrap "recvOpts.Unmarshal" e)
      | (recvOpts, None) =>
          let dstAddr := BTPAddress_String dst in
          let ef := mkEventFilter (BTPAddress_ContractAddress src)
                      EventSignature [dstAddr] in
          let evtReq := mkBlockRequest "" [ef] in
          match Address_Value (ef_Addr ef) with
          | Err e => Err (ErrWrap "ef.Addr.Value" e)
          | Ok efAddr =>
              Ok (mkBuilt
                    (mkReceiver
                       (clamp_SyncConcurrency (SyncConcurrency recvOpts))
                       (ro_Verifier recvOpts)
                       (mkFilter efAddr (bytes_of EventSignature)
                          (bytes_of dstAddr) 0))
                    evtReq url)
          end
      end
  end.

End Receiver.

(** ** A small node for the examples

    A chain on which the event log number [k] of every receipt is a
    [Message] event of the bridge contract for [btp://dst] with sequence
    [k]; a trie proof is its leaf; the hash of a byte string is the
    string reversed.  The node answers [icx_getProofForEvents] for
    receipt [0xff] with the receipt proof alone. *)

Module Mock.

Definition hex_digit (a : Ascii.ascii) : option Z :=
  let n := Z.of_nat (Ascii.nat_of_ascii a) in
  if decide (48 <= n <= 57) then Some (n - 48)
  else if decide (97 <= n <= 102) then Some (n - 87)
  else None.

Fixpoint hex_value (acc : Z) (s : string) : option Z :=
  match s with
  | EmptyString => Some acc
  | String a s' =>
      match hex_digit a with
      | Some d => hex_value (acc * 16 + d) s'
      | None => None
      end
  end.

Definition hex_int (s : string) : Z * option error :=
  match s with
  | String _ (String _ (String a rest)) =>
      if decide (substring 0 2 s = "0x") then
        match hex_value 0 (String a rest) with
        | Some z => (z, None)
        | None => (0, Some (ErrNew "invalid hex"))
        end
      else (0, Some (ErrNew "invalid hex"))
  | _ => (0, Some (ErrNew "invalid hex"))
  end.

Fixpoint dec_value (acc : Z) (s : string) : option Z :=
  match s with
  | EmptyString => Some acc
  | String a s' =>
      let n := Z.of_nat (Ascii.nat_of_ascii a) in
      if decide (48 <= n <= 57) then dec_value (acc * 10 + (n - 48)) s'
      else None
  end.

Definition contract : bytes := bytes_of "cx01".
Definition dst : bytes := bytes_of "btp://dst".

Definition filter : Receiver.eventLogRawFilter :=
  Receiver.mkFilter contract (bytes_of Receiver.EventSignature) dst 0.

#[export] Instance codec : Codec := {|
  SHA3Sum256 := fun b => rev b;
  HexInt_Value := hex_int;
  HexBytes_Value := fun s => (bytes_of s, None);
  NewHexInt := fun z => "0x";
  NewHexBytes := string_of_list_byte;
  HexHash_String := string_of_list_byte;
  HexInt_SetBytes_Uint64 := fun b => u64 (fst (hex_int (string_of_list_byte b)));
  mapError := fun e => e;
  RLP_BlockHeader := fun b =>
    (mkBlockHeader (fst (hex_int (string_of_list_byte b))) [] [] [], None);
  RLP_BlockHeaderResult := fun b => (mkBlockHeaderResult [], None);
  RLP_TxResult := fun b => (mkTxResult [], None);
  RLP_EventLog := fun b =>
    (mkEventLog contract [bytes_of Receiver.EventSignature; dst; b]
       [bytes_of "DEAD"], None);
  BC_Validators := fun b => ([b], None);
  mptProve := fun key proof root =>
    match proof with
    | leaf :: _ => Ok leaf
    | [] => Err (ErrNew "empty proof")
    end;
  json_Marshal := fun p => Ok (bytes_of (tx_Body p));
  SerializeJSON := fun js _ _ => Ok js;
  base64_EncodeToString := string_of_list_byte;
  ParseInt := fun s _ _ =>
    match s with
    | EmptyString => Err (ErrNew "invalid syntax")
    | _ => match dec_value 0 s with
           | Some z => Ok z
           | None => Err (ErrNew "invalid syntax")
           end
    end;
  JsonrpcErrorCodeSystem := -31000;
  JsonrpcErrorCodePending := -31002;
  JsonrpcErrorCodeExecuting := -31003
|}.

Definition hex_of_height (h : Z) : string :=
  if decide (h = 100) then "0x64"
  else if decide (h = 101) then "0x65"
  else if decide (h = 102) then "0x66"
  else "0x0".

#[export] Instance node : Node := {|
  icx_getBlockHeaderByHeight := fun _ h => Ok (bytes_of (hex_of_height h));
  icx_getVotesByHeight := fun _ h => Ok [];
  icx_getDataByHash := fun _ h => Ok (rev (bytes_of h));
  icx_getProofForEvents := fun _ p =>
    if decide (pe_Index p = "0xff") then Ok [[bytes_of (pe_Index p)]]
    else Ok ([bytes_of (pe_Index p)]
               :: map (fun e : string => [bytes_of e]) (pe_Events p));
  icx_sendTransaction := fun _ p =>
    Err (JsonrpcError (-31000) "E2000:duplicate transaction");
  icx_getTransactionResult := fun _ h => Ok (mkTransactionResult "0x1" "")
|}.

#[export] Instance verifier : VerifierOps := {|
  Next := next;
  Validators := fun vr h => default [] (validators vr !! string_of_list_byte h);
  Verify := fun vr header votes =>
    match header with
    | Some h => (bool_decide (bh_Height h = next vr), None)
    | None => (false, Some (ErrNew "nil header"))
    end;
  Update := fun vr header vs =>
    match header with
    | Some h =>
        (mkVerifier (bh_Height h + 1) (NextValidatorsHash h)
           (match vs with
            | [] => validators vr
            | _ => <[ string_of_list_byte (NextValidatorsHash h) := vs ]>
                     (validators vr)
            end), None)
    | None => (vr, Some (ErrNew "nil header"))
    end
|}.

#[export] Instance wallet : Wallet := {|
  Sign := fun h => Ok (h ++ h);
  WalletAddress := "hx01"
|}.

Definition receiver : Receiver.receiver :=
  Receiver.mkReceiver 2 None filter.

(** One fetch goroutine at a time: started, finished, collected. *)
Definition one_by_one : list Receiver.sched_step :=
  [Receiver.Pop; Receiver.Finish 0; Receiver.Pop].


(** Block 100 with two receipts, listed as 2 then 1, carrying the events
    with sequences 7 and 8. *)
Definition notification_2_1 : BlockNotification :=
  mkBlockNotification "0xaa" "0x64" [["0x2"; "0x1"]] [[["0x7"]; ["0x8"]]].


(** A request for block 100 whose first receipt is [0xff]. *)
Definition request_0xff : Receiver.req :=
  Receiver.mkReq 100 "0xaa" [["0xff"; "0x1"]] [[["0x7"]; ["0x8"]]]
    Receiver.RPCCallRetry None None.

(** A verifier at height 100, and a block result for height 101. *)
Definition verifier_at_100 : Verifier := mkVerifier 100 [] ∅.


(** Three block results on [brch], no verifier. *)
Definition result_at (h : Z) : Receiver.res :=
  Receiver.mkRes h [] (Some (mkBlockHeader h [] [] [])) [] [] [].

Definition state_with_three : Receiver.lstate (CB := Sequencer.State) :=
  Receiver.mkL 100 None [result_at 100; result_at 101; result_at 102] []
    false (Sequencer.mkState 7 []) 1 [] [100] [].


(** A node that does not answer for block headers. *)
Definition silent_node : Node := {|
  icx_getBlockHeaderByHeight := fun _ h => Err (ErrNew "timeout");
  icx_getVotesByHeight := fun _ h => Ok [];
  icx_getDataByHash := fun _ h => Ok (rev (bytes_of h));
  icx_getProofForEvents := fun _ p => Ok [];
  icx_sendTransaction := fun _ p => Err (ErrNew "timeout");
  icx_getTransactionResult := fun _ h => Err (ErrNew "timeout")
|}.

(** A node under load: its first [overflows] answers to a transaction
    are the overflow of its pool, then the transaction is taken; the
    result is pending until the node has been called [pendings]
    times. *)
Definition busy_node (overflows pendings : nat) : Node := {|
  icx_getBlockHeaderByHeight := fun _ h => Ok (bytes_of (hex_of_height h));
  icx_getVotesByHeight := fun _ h => Ok [];
  icx_getDataByHash := fun _ h => Ok (rev (bytes_of h));
  icx_getProofForEvents := fun _ p => Ok [];
  icx_sendTransaction := fun w p =>
    if (w <? overflows)%nat then Err ErrSendFailByOverflow else Ok "0xbeef";
  icx_getTransactionResult := fun w h =>
    if (w <? pendings)%nat then Err (JsonrpcError (-31002) "pending")
    else Ok (mkTransactionResult "0x1" "")
|}.

(** A node that refuses every transaction with the system error of
    message [m]. *)
Definition failing_node (m : string) : Node := {|
  icx_getBlockHeaderByHeight := fun _ h => Ok (bytes_of (hex_of_height h));
  icx_getVotesByHeight := fun _ h => Ok [];
  icx_getDataByHash := fun _ h => Ok (rev (bytes_of h));
  icx_getProofForEvents := fun _ p => Ok [];
  icx_sendTransaction := fun _ p => Err (JsonrpcError (-31000) m);
  icx_getTransactionResult := fun _ h => Ok (mkTransactionResult "0x1" "")
|}.

(** A request for block 100 with the receipts 2 and 1. *)
Definition request_2_1 : Receiver.req :=
  Receiver.mkReq 100 "0xaa" [["0x2"; "0x1"]] [[["0x7"]; ["0x8"]]]
    Receiver.RPCCallRetry None None.

(** Block 100 with one receipt and no list of events for it, and the
    blocks 100 and 102 without receipts. *)
Definition notification_short : BlockNotification :=
  mkBlockNotification "0xaa" "0x64" [["0x1"]] [[]].

Definition notification_100 : BlockNotification :=
  mkBlockNotification "0xaa" "0x64" [] [].

Definition notification_102 : BlockNotification :=
  mkBlockNotification "0xcc" "0x66" [] [].

Definition state_at_100 (bnch : list BlockNotification)
  : Receiver.lstate (CB := Sequencer.State) :=
  Receiver.mkL 100 None [] bnch false (Sequencer.mkState 7 []) 1 [] [100] [].

(** A websocket client with no connection open, and a connection. *)
Definition ws_client : Ws.client :=
  Ws.mkClient "https://node/api/v3" ∅ [].

Definition ws_conn : Ws.Conn := Ws.mkConn "10.0.0.1:40000" 1.

End Mock.


(** ** Vocabulary of the statements *)

Module Spec.
Import Receiver.



Section Fetched.
Context `{Codec} `{Node}.

(** The receipt index a goroutine writes for the index [i] of a
    notification. *)
Definition idx_value (i : HexInt) : Z := u64 (fst (HexInt_Value i)).

(** What a receipt appended by the goroutine of [q] looks like. *)
Definition fetched_receipt (q : req) (rc : chain.Receipt) : Prop :=
  chain.Height rc = u64 (q_height q) /\ chain.Events rc <> [].

(** A validator list that was decoded from data whose hash is [hash]. *)
Definition certified (w : nat) (hash : HexHash) (vs : list Address) : Prop :=
  exists data,
    icx_getDataByHash w (NewHexBytes hash) = Ok data /\
    SHA3Sum256 data = hash /\
    BC_Validators data = (vs, None).

(** A validator list handed to [Update] beside [header]: empty, or
    checked against the header's next-validators hash. *)
Definition validators_checked (w : nat) (header : option BlockHeader)
    (vs : list Address) : Prop :=
  vs = [] \/
  exists h, header = Some h /\ certified w (NextValidatorsHash h) vs.

(** What a fetch goroutine has written to [q.res] when it is over,
    whether it ends with [q.err] set or not. *)
Definition fetch_post (w : nat) (q : req) (x : res) : Prop :=
  r_Height x = q_height q /\
  Forall (fetched_receipt q) (r_Receipts x) /\
  sublist (map chain.Index (r_Receipts x))
    (map idx_value (default [] (q_indexes q !! 0%nat))) /\
  validators_checked w (r_Header x) (r_NextValidators x).


End Fetched.

End Spec.

(** * Properties *)

Import Spec.

(** ** Arithmetic and monad facts *)

Lemma i64_small z : is_i64 z -> i64 z = z.
Proof.
  unfold is_i64, i64. intros Hz.
  rewrite Z.mod_small; lia.
Qed.


(** ** The sequence policy of [Subscribe] *)

Section SequencerFacts.
Import chain Sequencer.



Lemma chain_from_length s n : length (chain_from s n) = n.
Proof. revert s. induction n; intros; simpl; auto. Qed.











End SequencerFacts.

(** ** The orchestrator: facts that hold for every callback *)

Section RunFacts.
Import Receiver.
Context `{Codec} `{Node} `{VerifierOps}.
Context {CB : Type} (callback : CB -> list chain.Receipt -> result CB).
Variable r : receiver.

#[local] Abbreviation lstate := (lstate (CB := CB)).
#[local] Abbreviation drain := (drain callback).
#[local] Abbreviation step := (step callback r).
#[local] Abbreviation run := (run callback r).



(** When the monitor takes nothing, the racing loop is the loop. *)
Lemma drain_racing_no_steal steals : forall brs st,
  Forall (fun k => k = 0%nat) steals ->
  Receiver.drain_racing callback steals brs st = drain brs st.
Proof.
  induction steals as [|k steals IH]; intros brs st Hall; [done|].
  apply Forall_cons in Hall as [-> Hall].
  destruct brs as [|br rest]; [done|].
  cbn [Receiver.drain_racing Receiver.drain drop].
  destruct (verify_block _ br) as [vr'| |e]; try done.
  destruct (callback _ (r_Receipts br)) as [cb'|e]; [|done].
  rewrite IH by done. by destruct (decide (0 < 0)%nat); [lia|].
Qed.

(** A property of the callback's state that every successful call keeps
    is kept by the loop. *)
Section CallbackInvariant.
Variable P : CB -> Prop.
Hypothesis callback_keeps :
  forall cb receipts cb', P cb -> callback cb receipts = Ok cb' -> P cb'.




End CallbackInvariant.

End RunFacts.

(** ** The fetch goroutine *)

Section FetchFacts.
Import Receiver.
Context `{Codec} `{Node} `{VerifierOps}.

Ltac unfold_task :=
  unfold index in *;
  unfold tbind, tret, set_res, set_err, calling, panic,
    return_if_err, wrap_q_err_and_return, fail in *.

(** The loop over the events of a receipt reads the state and writes
    nothing but, when it gives up, [q.err]. *)
Lemma event_loop_state lf proofs result l : forall acc j s,
  match for_acc (event_body lf proofs result) acc j l s with
  | Next_ _ s' => s' = s
  | Exit s' => t_res s' = t_res s /\ t_calls s' = t_calls s /\ t_err s' <> None
  | Panic _ => True
  end.
Proof.
  induction l as [|ev l IH]; intros acc j s; cbn [for_acc]; [done|].
  unfold tbind at 1.
  destruct (event_body lf proofs result acc j ev s) as [acc' s1|s1|] eqn:Hb;
    [| |done].
  - assert (s1 = s) as ->; [|apply IH].
    unfold event_body in Hb. unfold_task.
    repeat (case_match; simplify_eq/=); done.
  - unfold event_body in Hb. unfold_task.
    repeat (case_match; simplify_eq/=); done.
Qed.

(** A goroutine changes [q.res] by appending receipts at most. *)
Definition same_but_receipts (x x' : res) : Prop :=
  r_Height x' = r_Height x /\ r_Hash x' = r_Hash x /\
  r_Header x' = r_Header x /\ r_Votes x' = r_Votes x /\
  r_NextValidators x' = r_NextValidators x.

Lemma same_but_receipts_refl x : same_but_receipts x x.
Proof. by repeat split. Qed.

Lemma same_but_receipts_trans x y z :
  same_but_receipts x y -> same_but_receipts y z -> same_but_receipts x z.
Proof.
  unfold same_but_receipts.
  intros (? & ? & ? & ? & ?) (? & ? & ? & ? & ?). repeat split; congruence.
Qed.

Lemma receipt_body_spec w lf q hr i idx s :
  match receipt_body w lf q hr i idx s with
  | Next_ _ s' =>
      t_err s' = t_err s /\ same_but_receipts (t_res s) (t_res s') /\
      (r_Receipts (t_res s') = r_Receipts (t_res s) \/
       exists rc, r_Receipts (t_res s') = r_Receipts (t_res s) ++ [rc] /\
                  fetched_receipt q rc /\ chain.Index rc = idx_value idx)
  | Exit s' => t_res s' = t_res s
  | Panic _ => True
  end.
Proof.
  unfold receipt_body. unfold_task.
  repeat (case_match; simplify_eq/=); try done;
    match goal with
    | Hl : for_acc (event_body ?lf ?p ?r) ?acc ?j ?l ?s = _ |- _ =>
        pose proof (event_loop_state lf p r l acc j s) as Hloop;
        rewrite Hl in Hloop
    end; simplify_eq/=; try (destruct Hloop as (? & ? & ?); done).
  - split; [done|]. split; [by repeat split|]. right. eexists.
    split; [done|]. split; [|done]. split; [done|].
    cbn [chain.Events]. intros ->. cbn [length] in *. lia.
  - split; [done|]. split; [by repeat split|]. by left.
  - done.
Qed.

Lemma receipts_loop_spec w lf q hr l : forall i s,
  match for_range (receipt_body w lf q hr) i l s with
  | Next_ _ s' | Exit s' =>
      same_but_receipts (t_res s) (t_res s') /\
      exists extra,
        r_Receipts (t_res s') = r_Receipts (t_res s) ++ extra /\
        Forall (fetched_receipt q) extra /\
        sublist (map chain.Index extra) (map idx_value l)
  | Panic _ => True
  end.
Proof.
  induction l as [|idx l IH]; intros i s; cbn [for_range].
  - unfold tret. split; [apply same_but_receipts_refl|].
    exists []. by rewrite app_nil_r.
  - unfold tbind at 1.
    pose proof (receipt_body_spec w lf q hr i idx s) as Hb.
    destruct (receipt_body w lf q hr i idx s) as [[] s1|s1|]; [| |done].
    + destruct Hb as (_ & Hsame & Hrc).
      specialize (IH (S i) s1).
      destruct (for_range (receipt_body w lf q hr) (S i) l s1)
        as [[] s2|s2|]; [| |done];
        destruct IH as (Hsame' & extra & Hx & Hgood & Hsub);
        (split; [by eapply same_but_receipts_trans|]);
        (destruct Hrc as [Hrc|(rc & Hrc & Hok & Hidx)];
         [exists extra; rewrite Hx, Hrc; repeat split; auto;
            by apply sublist_cons
         |exists (rc :: extra); rewrite Hx, Hrc, <- app_assoc;
            repeat split; auto; cbn [map]; rewrite Hidx;
            by apply sublist_skip]).
    + rewrite Hb. split; [apply same_but_receipts_refl|].
      exists []. rewrite app_nil_r.
      repeat split; auto. apply sublist_nil_l.
Qed.

Lemma getValidatorsByHash_ok w hash vs :
  Client.getValidatorsByHash w hash = Ok vs -> certified w hash vs.
Proof.
  unfold Client.getValidatorsByHash, certified. intros Hg.
  destruct (icx_getDataByHash w (NewHexBytes hash)) as [data|]; [|done].
  destruct (decide (hash = SHA3Sum256 data)) as [->|]; [|done].
  destruct (BC_Validators data) as [vs' [e|]] eqn:Hd; [done|].
  inversion Hg; subst. eauto.
Qed.

Lemma getValidatorsByHash_mismatch w hash data :
  icx_getDataByHash w (NewHexBytes hash) = Ok data ->
  SHA3Sum256 data <> hash ->
  Client.getValidatorsByHash w hash = Err (ErrNew "invalid data").
Proof.
  unfold Client.getValidatorsByHash. intros -> Hne.
  by destruct (decide (hash = SHA3Sum256 data)) as [->|].
Qed.

Lemma fetch_votes_spec w vr q header s :
  match fetch_votes w vr q header s with
  | Next_ _ s' | Exit s' =>
      r_Height (t_res s') = r_Height (t_res s) /\
      r_Header (t_res s') = r_Header (t_res s) /\
      r_Receipts (t_res s') = r_Receipts (t_res s) /\
      (r_NextValidators (t_res s') = r_NextValidators (t_res s) \/
       certified w (NextValidatorsHash header) (r_NextValidators (t_res s')))
  | Panic _ => True
  end.
Proof.
  unfold fetch_votes. unfold_task.
  repeat (case_match; simplify_eq/=); try done; repeat split; auto.
  right. by apply getValidatorsByHash_ok.
Qed.

Lemma fetch_spec vr lf w q s :
  t_res s = zero_res ->
  match fetch vr lf w q s with
  | Next_ _ s' | Exit s' => fetch_post w q (t_res s')
  | Panic _ => True
  end.
Proof.
  intros Hz. unfold fetch. unfold_task.
  repeat (case_match; simplify_eq/=); try done;
    repeat match goal with
    | Hv : fetch_votes ?w ?vr ?q ?h ?s = _ |- _ =>
        let Hs := fresh "Hvotes" in
        pose proof (fetch_votes_spec w vr q h s) as Hs;
        rewrite Hv in Hs; clear Hv; cbn in Hs;
        destruct Hs as (? & ? & ? & ?)
    | Hl : for_range (receipt_body ?w ?lf ?q ?hr) ?i ?l ?s = _ |- _ =>
        let Hs := fresh "Hloop" in
        pose proof (receipts_loop_spec w lf q hr l i s) as Hs;
        rewrite Hl in Hs; clear Hl; cbn in Hs;
        destruct Hs as ((? & ? & ? & ? & ?) & ? & ? & ? & ?)
    end;
    unfold fetch_post, validators_checked; rewrite ?Hz in *; cbn in *.
  all: repeat match goal with
       | Hr : r_Receipts ?a = _ |- context [r_Receipts ?a] => rewrite Hr
       | Hi : q_indexes _ !! _ = _ |- _ => rewrite Hi
       end; cbn [app default map].
  all: split; [congruence|]; split; [by auto|];
       split; [by auto using sublist_nil_l|].
  all: repeat match goal with
       | Hn : r_NextValidators ?a = _ |- context [r_NextValidators ?a] =>
           rewrite Hn
       | Hh : r_Header ?a = _ |- context [r_Header ?a] => rewrite Hh
       end.
  all: try match goal with
       | Hc : _ \/ certified _ _ _ |- _ =>
           destruct Hc as [Hc|Hc]; [by left | right; by eauto]
       end.
  all: try by left.
Qed.

Lemma run_task_fetch vr lf w q q' calls :
  q_res q = None ->
  run_task (fetch vr lf w) q = Some (q', calls) ->
  exists x, q_res q' = Some x /\ fetch_post w q x.
Proof.
  unfold run_task. intros Hnil Hrun. rewrite Hnil in Hrun.
  cbn [default] in Hrun.
  pose proof (fetch_spec vr lf w q (mkT zero_res (q_err q) []) eq_refl) as Hs.
  destruct (fetch vr lf w q _) as [[] s'|s'|]; cbv beta iota in Hrun;
    [| |done]; inversion Hrun; subst; cbn; eauto.
Qed.

Lemma fetch_sync_spec vr w q s :
  t_res s = zero_res ->
  match fetch_sync vr w q s with
  | Next_ _ s' | Exit s' =>
      r_Height (t_res s') = q_height q /\
      validators_checked w (r_Header (t_res s')) (r_NextValidators (t_res s'))
  | Panic _ => True
  end.
Proof.
  intros Hz. unfold fetch_sync, validators_checked. unfold_task.
  repeat (case_match; simplify_eq/=); try done;
    rewrite ?Hz; cbn; (split; [done|]); try by left.
  right. eexists. split; [done|]. by apply getValidatorsByHash_ok.
Qed.

Lemma run_task_fetch_sync vr w q q' calls :
  q_res q = None ->
  run_task (fetch_sync vr w) q = Some (q', calls) ->
  exists x, q_res q' = Some x /\ r_Height x = q_height q /\
            validators_checked w (r_Header x) (r_NextValidators x).
Proof.
  unfold run_task. intros Hnil Hrun. rewrite Hnil in Hrun.
  cbn [default] in Hrun.
  pose proof (fetch_sync_spec vr w q (mkT zero_res (q_err q) []) eq_refl) as Hs.
  destruct (fetch_sync vr w q _) as [[] s'|s'|]; cbv beta iota in Hrun;
    [| |done]; inversion Hrun; subst; cbn; eauto.
Qed.


End FetchFacts.

(** ** The collector *)


Section CollectFacts.
Import Receiver.
Variable task : nat -> req -> T unit.
Variable post : res -> Prop.

(** What the goroutines are known to do: the result carries the height
    of its request, and satisfies [post]. *)
Hypothesis task_post : forall w q q' calls,
  q_res q = None -> run_task (task w) q = Some (q', calls) ->
  forall x, q_res q' = Some x -> r_Height x = q_height q /\ post x.

Definition req_ok (q : req) : Prop :=
  forall x, q_res q = Some x -> r_Height x = q_height q /\ post x.

(** The heights still in play: of the results collected, of the
    requests queued and of those being fetched. *)
Definition heights (st : cstate) : list Z :=
  (r_Height <$> filter_nil (c_brs st)) ++
  (q_height <$> c_qch st) ++ (q_height <$> c_running st).

Definition cinv (st : cstate) : Prop :=
  Forall req_ok (c_qch st) /\ Forall req_ok (c_running st) /\
  Forall post (filter_nil (c_brs st)).

Lemma run_task_height w q q' calls :
  run_task (task w) q = Some (q', calls) -> q_height q' = q_height q.
Proof.
  unfold run_task. intros Hrun.
  destruct (task w q _); cbv beta iota in Hrun; inversion Hrun; by subst.
Qed.

Lemma filter_nil_snoc brs v :
  filter_nil (brs ++ [v]) =
  filter_nil brs ++ match v with Some x => [x] | None => [] end.
Proof. unfold filter_nil. rewrite omap_app. by destruct v. Qed.

Lemma collect_step_inv st ev :
  cinv st ->
  cinv (collect_step task st ev) /\
  heights (collect_step task st ev) ⊆+ heights st.
Proof.
  intros Hinv. unfold collect_step.
  destruct (c_panicked st); [done|].
  destruct ev as [|i].
  - destruct (c_qch st) as [|q rest] eqn:Hqch; [done|].
    destruct Hinv as (Hq & Hr & Hb). rewrite Hqch in Hq.
    apply Forall_cons in Hq as [Hok Hq].
    assert (Hnew : forall n, req_ok (mkReq (q_height q) (q_hash q)
                     (q_indexes q) (q_events q) n None None)).
    { intros n y Hy. discriminate Hy. }
    destruct (q_err q) as [e|] eqn:He; [|destruct (q_res q) as [x|] eqn:Hx];
      [destruct (decide (q_retry q > 0)); [destruct (c_closed st)|]|
      |destruct (run_task (task (c_clock st)) q) as [[q' calls]|] eqn:Hrun];
      unfold cinv, heights, append_result;
      cbn [c_qch c_running c_brs];
      rewrite ?Hqch, ?filter_nil_snoc, ?fmap_app, ?fmap_cons, ?app_nil_r;
      cbn [fmap list_fmap q_height].
    + repeat split; auto. solve_submseteq.
    + repeat split; auto; [|solve_submseteq].
      apply Forall_app. split; [done|]. by apply Forall_singleton.
    + repeat split; auto. solve_submseteq.
    + destruct (Hok x Hx) as [Hh Hp]. rewrite Hh.
      repeat split; auto; [|solve_submseteq].
      apply Forall_app. split; [done|]. by apply Forall_singleton.
    + rewrite (run_task_height _ _ _ _ Hrun).
      repeat split; auto; [|solve_submseteq].
      apply Forall_app. split; [done|]. apply Forall_singleton.
      intros y Hy. rewrite (run_task_height _ _ _ _ Hrun).
      by eapply task_post.
    + repeat split; auto. solve_submseteq.
  - destruct (c_running st !! i) as [q|] eqn:Hi; [|done].
    destruct Hinv as (Hq & Hr & Hb).
    assert (Hokq : req_ok q).
    { eapply Forall_lookup_1 in Hr; eauto. }
    assert (Hdel : Forall req_ok (delete i (c_running st))).
    { by apply Forall_delete. }
    pose proof (delete_Permutation _ _ _ Hi) as Hperm.
    destruct (c_closed st); unfold cinv, heights;
      cbn [c_qch c_running c_brs];
      (split; [repeat split; auto|]).
    + rewrite Hperm at 2. rewrite fmap_cons. solve_submseteq.
    + apply Forall_app. split; [done|]. by apply Forall_singleton.
    + rewrite Hperm at 2. rewrite fmap_app, fmap_cons.
      cbn [fmap list_fmap]. solve_submseteq.
Qed.

Lemma collect_steps_inv sch : forall st,
  cinv st ->
  cinv (fold_left (collect_step task) sch st) /\
  heights (fold_left (collect_step task) sch st) ⊆+ heights st.
Proof.
  induction sch as [|ev sch IH]; intros st Hinv; cbn [fold_left]; [done|].
  destruct (collect_step_inv st ev Hinv) as [Hinv' Hsub].
  destruct (IH _ Hinv') as [Hinv'' Hsub'].
  split; [done|]. by etrans.
Qed.

(** Whatever the schedule, the results collected satisfy [post], and
    their heights are heights of the requests, each used at most
    once. *)
Lemma collect_results sch reqs clock :
  Forall (fun q => q_res q = None) reqs ->
  let c := collect task sch reqs clock in
  Forall post (filter_nil (c_brs c)) /\
  r_Height <$> filter_nil (c_brs c) ⊆+ q_height <$> reqs.
Proof.
  intros Hnil. cbv zeta. unfold collect.
  destruct (collect_steps_inv sch (collect_init reqs clock)) as [Hinv Hsub].
  - unfold cinv, collect_init; cbn. repeat split; auto.
    eapply Forall_impl; [exact Hnil|]. intros q Hq x Hx. congruence.
  - split; [apply Hinv|].
    etrans; [|etrans; [exact Hsub|]].
    + unfold heights. apply submseteq_inserts_r. done.
    + unfold heights, collect_init; cbn. by rewrite app_nil_r.
Qed.

End CollectFacts.

(** A request whose goroutine fails every time is run once and then
    again as many times as its retry count says, with a sleep of 500 ms
    after each run, before [nil] stands for it in the batch. *)
Section Retries.
Import Receiver.
Variable task : nat -> req -> T unit.
Variable height : Z.
Variable hash : HexBytes.
Variable indexes : list (list HexInt).
Variable events : list (list (list HexInt)).

#[local] Abbreviation request n := (mkReq height hash indexes events n None None).

Hypothesis task_fails : forall w n,
  exists e x calls,
    run_task (task w) (request n) =
      Some (mkReq height hash indexes events n (Some e) (Some x), calls).

Lemma failed_attempt n clock calls sleeps :
  exists calls',
    fold_left (collect_step task) [Pop; Finish 0; Pop]
      (mkC [request n] [] [] 1 false clock calls sleeps false) =
    if decide (n > 0) then
      mkC [request (n - 1)] [] [] 1 false (S clock) calls' (S sleeps) false
    else mkC [] [] [None] 1 true (S clock) calls' (S sleeps) false.
Proof.
  destruct (task_fails clock n) as (e & x & calls' & Hrun).
  exists (calls ++ calls'). cbn [fold_left].
  unfold collect_step at 3.
  cbn [c_panicked c_qch c_clock c_running c_brs c_cap c_closed c_calls
       c_sleeps q_err q_res].
  rewrite Hrun.
  unfold collect_step at 2.
  cbn [c_panicked c_qch c_clock c_running c_brs c_cap c_closed c_calls
       c_sleeps app lookup list_lookup delete list_delete].
  unfold collect_step.
  cbn [c_panicked c_qch c_clock c_running c_brs c_cap c_closed c_calls
       c_sleeps app q_err q_res q_retry q_height q_hash q_indexes q_events].
  by destruct (decide (n > 0)).
Qed.

Lemma attempts_S n : attempts (S n) = [Pop; Finish 0; Pop] ++ attempts n.
Proof. reflexivity. Qed.

Lemma failing_request_retried n : forall clock calls sleeps,
  let c := fold_left (collect_step task) (attempts (S n))
             (mkC [request (Z.of_nat n)] [] [] 1 false clock calls sleeps
                false) in
  c_brs c = [None] /\ c_closed c = true /\ c_qch c = [] /\
  c_running c = [] /\ c_panicked c = false /\
  c_clock c = (clock + S n)%nat /\ c_sleeps c = (sleeps + S n)%nat.
Proof.
  induction n as [|n IH]; intros clock calls sleeps;
    cbv zeta; rewrite attempts_S, fold_left_app;
    match goal with
    | |- context [request (Z.of_nat ?k)] =>
        destruct (failed_attempt (Z.of_nat k) clock calls sleeps)
          as (calls' & ->)
    end.
  - destruct (decide (Z.of_nat 0 > 0)); [lia|].
    cbn. repeat split; lia.
  - destruct (decide (Z.of_nat (S n) > 0)); [|lia].
    replace (Z.of_nat (S n) - 1) with (Z.of_nat n) by lia.
    destruct (IH (S clock) calls' (S sleeps))
      as (Hb & Hc & Hq & Hr & Hp & Hk & Hs).
    cbv zeta in Hb, Hc, Hq, Hr, Hp, Hk, Hs.
    rewrite Hb, Hc, Hq, Hr, Hp, Hk, Hs. repeat split; lia.
Qed.

End Retries.

(** So it is for a request of [receiveLoop] whose first receipt gets an
    error from [GetProofForEvents] each time: six runs, six sleeps, and
    [nil] in the batch. *)
Lemma proof_error_is_retried
    `{Codec} `{Node} `{VerifierOps} (lf : Receiver.eventLogRawFilter)
    (height : Z) (hash : HexBytes) (h : bytes) (idx : HexInt)
    (more_idx : list HexInt) (rest_idx : list (list HexInt))
    (evs : list HexInt) (more_evs : list (list HexInt))
    (rest_evs : list (list (list HexInt))) (clock : nat) :
  HexBytes_Value hash = (h, None) ->
  (forall w, exists header,
     Client.getBlockHeaderByHeight w height = Ok header) ->
  (forall w, exists e,
     icx_getProofForEvents w (mkProofEventsParam idx hash evs) = Err e) ->
  let q := Receiver.mkReq height hash ((idx :: more_idx) :: rest_idx)
             ((evs :: more_evs) :: rest_evs) Receiver.RPCCallRetry None None in
  let c := Receiver.collect (Receiver.fetch None lf) (Receiver.attempts 6)
             [q] clock in
  Receiver.c_brs c = [None] /\ Receiver.c_closed c = true /\
  Receiver.c_clock c = (clock + 6)%nat /\ Receiver.c_sleeps c = 6%nat.
Proof.
  intros Hhash Hheader Hproofs. cbv zeta.
  unfold Receiver.collect, Receiver.collect_init. cbn [length].
  edestruct (failing_request_retried (Receiver.fetch None lf) height hash
               ((idx :: more_idx) :: rest_idx) ((evs :: more_evs) :: rest_evs))
    with (n := 5%nat) (clock := clock) (calls := @nil Receiver.call)
         (sleeps := 0%nat)
    as (Hb & Hc & _ & _ & _ & Hk & Hs).
  - intros w n.
    destruct (Hheader w) as [header Hh]. destruct (Hproofs w) as [e He].
    destruct (RLP_BlockHeaderResult (Result header)) as [hr o] eqn:Hhr.
    eexists _, _, _.
    unfold Receiver.run_task, Receiver.fetch, Receiver.fetch_votes.
    cbn [Receiver.q_res Receiver.q_err Receiver.q_hash Receiver.q_height
         Receiver.q_indexes Receiver.q_events Receiver.q_retry default].
    rewrite Hhash, Hh, Hhr.
    unfold Receiver.index.
    unfold Receiver.tbind, Receiver.tret, Receiver.set_res, Receiver.set_err,
      Receiver.calling, Receiver.return_if_err.
    cbn. unfold Receiver.receipt_body, Receiver.index.
    cbn [Receiver.q_events Receiver.q_hash].
    unfold Receiver.tbind, Receiver.tret, Receiver.calling, Receiver.fail.
    cbn. rewrite He. reflexivity.
  - cbv zeta in Hb, Hc, Hk, Hs. change (Z.of_nat 5) with Receiver.RPCCallRetry in *.
    rewrite Hb, Hc, Hk, Hs. repeat split; lia.
Qed.

Lemma clamp_SyncConcurrency_range n :
  1 <= Receiver.clamp_SyncConcurrency n <= Receiver.MonitorBlockMaxConcurrency.
Proof.
  unfold Receiver.clamp_SyncConcurrency, Receiver.MonitorBlockMaxConcurrency.
  repeat case_decide; lia.
Qed.

(** ** Sorting the batch and forwarding its head *)

Section ForwardFacts.
Import Receiver.


Lemma insert_by_height_perm x l : insert_by_height x l ≡ₚ x :: l.
Proof.
  induction l as [|y l IH]; cbn [insert_by_height]; [done|].
  case_decide; [|done]. rewrite IH. apply perm_swap.
Qed.

Lemma sort_by_height_perm l : sort_by_height l ≡ₚ l.
Proof.
  induction l as [|x l IH]; [done|].
  cbn [sort_by_height foldr]. rewrite insert_by_height_perm.
  by apply perm_skip.
Qed.







End ForwardFacts.

(** ** The invariant of the orchestrator *)

Section LoopInvariant.
Import Receiver.
Context `{Codec} `{Node} `{VerifierOps}.
Context {CB : Type} (callback : CB -> list chain.Receipt -> result CB).
Variable r : receiver.
Variable start : Z.
Variable cb0 : CB.
Variable bound : nat.

Hypothesis start_nonneg : 0 <= start.
Hypothesis no_overflow :
  start + Z.of_nat bound * Z.of_nat (capacity r) < 2 ^ 63.

#[local] Abbreviation lstate := (lstate (CB := CB)).








End LoopInvariant.

(** ** Sending and polling *)

Section SendFacts.
Context `{Codec} `{Node}.
Import Client.

(** On [ErrSendFailByOverflow] the helper sleeps the retry interval and
    submits again. *)
Lemma overflow_is_resubmitted fuel p st :
  icx_sendTransaction (calls st) p = Err ErrSendFailByOverflow ->
  txLoop (S fuel) p st =
    txLoop fuel p
      (mkSstate (thp_Hash st) (S (calls st))
         (slept st ++ [DefaultSendTransactionRetryInterval])).
Proof.
  intros Hsend. cbn [txLoop]. unfold SendTransaction. by rewrite Hsend.
Qed.

(** An error that is neither the overflow nor a JSON-RPC system error is
    returned to the caller. *)
Lemma other_send_error_is_returned fuel p st e :
  icx_sendTransaction (calls st) p = Err e ->
  e <> ErrSendFailByOverflow ->
  (forall code m, e = JsonrpcError code m -> code <> JsonrpcErrorCodeSystem) ->
  txLoop (S fuel) p st = Stopped (Returned (thp_Hash st) None (Some e)).
Proof.
  intros Hsend Hov Hsys. cbn [txLoop]. unfold SendTransaction.
  rewrite Hsend. unfold on_send_error. cbn [thp_Hash].
  destruct e as [m|m c| |code m]; try done.
  destruct (decide (code = JsonrpcErrorCodeSystem)) as [->|]; [|done].
  by destruct (Hsys _ _ eq_refl).
Qed.

(** A system error whose message has fewer than five bytes makes the
    slice expression panic. *)
Lemma short_system_message_panics fuel p st m :
  icx_sendTransaction (calls st) p =
    Err (JsonrpcError JsonrpcErrorCodeSystem m) ->
  (String.length m < 5)%nat ->
  txLoop (S fuel) p st = Stopped (Panicked "slice bounds out of range").
Proof.
  intros Hsend Hlen. cbn [txLoop]. unfold SendTransaction.
  rewrite Hsend. unfold on_send_error, slice_1_5.
  destruct (decide (JsonrpcErrorCodeSystem = JsonrpcErrorCodeSystem)); [|done].
  destruct (decide (5 <= Z.of_nat (String.length m))); [lia|done].
Qed.

(** While the node answers [Pending] or [Executing] the helper sleeps the
    polling interval and asks again; any other answer is returned. *)
Lemma polling_goes_on fuel st code m :
  icx_getTransactionResult (calls st) (thp_Hash st) =
    Err (JsonrpcError code m) ->
  code = JsonrpcErrorCodePending \/ code = JsonrpcErrorCodeExecuting ->
  txrLoop (S fuel) st =
    txrLoop fuel
      (mkSstate (thp_Hash st) (S (calls st))
         (slept st ++ [DefaultGetTransactionResultPollingInterval])).
Proof.
  intros Hget Hcode. cbn [txrLoop calls thp_Hash slept].
  unfold GetTransactionResult. rewrite Hget.
  unfold is_pending_or_executing.
  by rewrite (bool_decide_eq_true_2 _ Hcode).
Qed.

Lemma polling_returns fuel st txr :
  icx_getTransactionResult (calls st) (thp_Hash st) = Ok txr ->
  fst (txrLoop (S fuel) st) = Returned (thp_Hash st) (Some txr) None.
Proof.
  intros Hget. cbn [txrLoop calls thp_Hash slept].
  unfold GetTransactionResult. by rewrite Hget.
Qed.

End SendFacts.

(** * The claims *)

(** ** Signing *)

(** C5.  When marshalling, serializing and signing succeed,
    [SignTransaction] leaves in [TxHash] the SHA3-256 digest of the bytes
    [icx_sendTransaction.] followed by the serialization of the
    transaction, made with the [signature] field in the exclusion set and
    after the timestamp has been set, and in [Signature] the standard
    base64 encoding of what the wallet signs for that digest. *)
Theorem SignTransaction_hash_and_signature
    `{Codec} `{Wallet} (p : TransactionParam) (now : Z)
    (js bs sig : bytes) :
  let stamped := mkTransactionParam (tx_Body p) (NewHexInt (Z.quot now 1000))
                   (Signature p) (TxHash p) in
  let txHash := SHA3Sum256 (bytes_of "icx_sendTransaction." ++ bs) in
  json_Marshal stamped = Ok js ->
  SerializeJSON js None {[ "signature" := true ]} = Ok bs ->
  Sign txHash = Ok sig ->
  exists p',
    Client.SignTransaction p now = (p', None) /\
    TxHash p' = NewHexBytes txHash /\
    Signature p' = base64_EncodeToString sig /\
    Timestamp p' = NewHexInt (Z.quot now 1000) /\
    tx_Body p' = tx_Body p.
Proof.
  cbv zeta. intros Hjs Hbs Hsig. unfold Client.SignTransaction.
  rewrite Hjs. unfold Client.txSerializeExcludes. rewrite Hbs.
  unfold Client.sendTransaction_prefix. rewrite Hsig.
  eexists. split; [reflexivity|]. by repeat split.
Qed.

(** ** Sending a transaction *)

(** C6.  The duplicate-transaction arm of [SendTransactionAndGetResult]:
    when [SendTransaction] fails with a JSON-RPC system error whose
    message carries sub-code 2000, the helper reaches [thp.Hash = *txh]
    with the nil pointer [SendTransaction] returns beside an error, and
    panics; it never gets to poll for the result. *)
Theorem duplicate_transaction_panics
    `{Codec} `{Node} (p : TransactionParam) (m sub : string) (fuel : nat) :
  icx_sendTransaction 0 p = Err (JsonrpcError JsonrpcErrorCodeSystem m) ->
  Client.slice_1_5 m = Some sub ->
  ParseInt sub 0 32 = Ok 2000 ->
  Client.SendTransactionAndGetResult (S fuel) p =
    Client.Panicked "nil pointer dereference".
Proof.
  intros Hsend Hslice Hparse.
  unfold Client.SendTransactionAndGetResult.
  cbn [Client.txLoop Client.calls Client.thp_Hash Client.slept].
  unfold Client.SendTransaction. rewrite Hsend.
  unfold Client.on_send_error.
  destruct (decide (JsonrpcErrorCodeSystem = JsonrpcErrorCodeSystem)); [|done].
  rewrite Hslice, Hparse.
  by destruct (decide (2000 = 2000)).
Qed.

(** ** Validators *)

(** C7.  [getValidatorsByHash] returns a list only for data whose SHA3-256
    digest is the hash asked for, and an error when the digest differs.
    The cache [newVerifer] starts from holds one entry, keyed by the
    configured hash and checked in this way; and whatever the order in
    which the goroutines complete, the next validators of every result
    collected for [receiveLoop] and for [syncVerifier], which are the
    lists handed to [Update], are empty or checked against the header's
    next-validators hash. *)
Theorem validators_checked_against_hash `{Codec} `{Node} `{VerifierOps} :
  (forall w hash vs,
     Client.getValidatorsByHash w hash = Ok vs -> certified w hash vs) /\
  (forall w hash data,
     icx_getDataByHash w (NewHexBytes hash) = Ok data ->
     SHA3Sum256 data <> hash ->
     Client.getValidatorsByHash w hash = Err (ErrNew "invalid data")) /\
  (forall w opts vr,
     Receiver.newVerifer w opts = Ok vr ->
     exists vs,
       validators vr = {[ HexHash_String (ValidatorsHash opts) := vs ]} /\
       certified w (ValidatorsHash opts) vs) /\
  (forall vr lf sch reqs clock,
     Forall (fun q => Receiver.q_res q = None) reqs ->
     Forall (fun x => exists w, validators_checked w (Receiver.r_Header x)
                                  (Receiver.r_NextValidators x))
       (Receiver.filter_nil
          (Receiver.c_brs
             (Receiver.collect (Receiver.fetch vr lf) sch reqs clock)))) /\
  (forall vr sch reqs clock,
     Forall (fun q => Receiver.q_res q = None) reqs ->
     Forall (fun x => exists w, validators_checked w (Receiver.r_Header x)
                                  (Receiver.r_NextValidators x))
       (Receiver.filter_nil
          (Receiver.c_brs
             (Receiver.collect (Receiver.fetch_sync vr) sch reqs clock)))).
Proof.
  split; [exact getValidatorsByHash_ok|].
  split; [exact getValidatorsByHash_mismatch|].
  split; [|split].
  - intros w opts vr Hnew. unfold Receiver.newVerifer in Hnew.
    destruct (Client.getValidatorsByHash w (ValidatorsHash opts)) as [vs|]
      eqn:Hvs; cbn [rbind] in Hnew; [|done].
    cbn [next] in Hnew.
    destruct (Client.getBlockHeaderByHeight w _) as [header|];
      cbn [rbind] in Hnew; [|done].
    destruct (icx_getVotesByHeight w _) as [votes|]; cbn [rbind] in Hnew;
      [|done].
    destruct (Verify _ (Some header) votes) as [[] [e|]]; try done.
    inversion Hnew; subst. exists vs. split; [done|].
    by apply getValidatorsByHash_ok.
  - intros vr lf sch reqs clock Hnil.
    apply (collect_results (Receiver.fetch vr lf)
             (fun x => exists w, validators_checked w (Receiver.r_Header x)
                                   (Receiver.r_NextValidators x)));
      [|done].
    intros w q q' calls Hres Hrun x Hx.
    eapply run_task_fetch in Hrun as (x' & Hx' & Hh & _ & _ & Hv); [|done].
    rewrite Hx in Hx'. inversion Hx'; subst. eauto.
  - intros vr sch reqs clock Hnil.
    apply (collect_results (Receiver.fetch_sync vr)
             (fun x => exists w, validators_checked w (Receiver.r_Header x)
                                   (Receiver.r_NextValidators x)));
      [|done].
    intros w q q' calls Hres Hrun x Hx.
    eapply run_task_fetch_sync in Hrun as (x' & Hx' & Hh & Hv); [|done].
    rewrite Hx in Hx'. inversion Hx'; subst. eauto.
Qed.

(** ** Catching the verifier up *)

(** C10.  [syncVerifier] returns at once when the verifier is at or past
    the target: [nil] when the target is [vr.Next()], an error when
    [vr.Next()] is greater; in both cases no goroutine is started, no
    remote call is made and the verifier is as it was. *)
Theorem syncVerifier_guards
    `{Codec} `{Node} `{VerifierOps} (r : Receiver.receiver)
    (scheds : list (list Receiver.sched_step)) (vr : Verifier) (height : Z)
    (clock : nat) :
  Next vr >= height ->
  Receiver.syncVerifier r scheds vr height clock =
    Receiver.mkSync
      (Receiver.Returned
         (if decide (height = Next vr) then None
          else Some (ErrNew "invalid target height")))
      vr clock [].
Proof.
  intros Hge. unfold Receiver.syncVerifier.
  destruct (decide (height = Next vr)); [done|].
  destruct (decide (Next vr > height)); [done|lia].
Qed.

(** ** The sequence policy *)


(** ** Receipts without events *)


(** ** Verification failures *)


(** ** The error channel *)


(** ** Delivery in height order *)


(** ** Proof arrays of the wrong length *)

(** C8.  A request whose first receipt gets from [GetProofForEvents] an
    array that has not one proof more than the events asked for: the
    goroutine sets [q.err] to [errors.Wrapf(q.err, ...)] with [q.err]
    nil, which is nil, and returns; the collector finds [q.res] set and
    no error, and takes the result as a success.  The request is run
    once and not retried, and the batch ends with a block result without
    receipts. *)
Theorem short_proofs_pass_as_success
    `{Codec} `{Node} `{VerifierOps} (lf : Receiver.eventLogRawFilter)
    (q : Receiver.req) (w : nat) (h : bytes) (header : BlockHeader)
    (hr : BlockHeaderResult) (e : option error) (idx : HexInt)
    (more_idx : list HexInt) (rest_idx : list (list HexInt))
    (evs : list HexInt) (more_evs : list (list HexInt))
    (rest_evs : list (list (list HexInt))) (proofs : list (list bytes)) :
  let p := mkProofEventsParam idx (Receiver.q_hash q) evs in
  Receiver.q_err q = None ->
  Receiver.q_res q = None ->
  Receiver.q_indexes q = (idx :: more_idx) :: rest_idx ->
  Receiver.q_events q = (evs :: more_evs) :: rest_evs ->
  HexBytes_Value (Receiver.q_hash q) = (h, None) ->
  Client.getBlockHeaderByHeight w (Receiver.q_height q) = Ok header ->
  RLP_BlockHeaderResult (Result header) = (hr, e) ->
  icx_getProofForEvents w p = Ok proofs ->
  length proofs <> S (length evs) ->
  Receiver.collect (Receiver.fetch None lf)
    [Receiver.Pop; Receiver.Finish 0; Receiver.Pop] [q] w =
  Receiver.mkC [] []
    [Some (Receiver.mkRes (Receiver.q_height q) h (Some header) [] [] [])]
    1 true (S w)
    [Receiver.CallGetBlockHeaderByHeight (Receiver.q_height q);
     Receiver.CallGetProofForEvents p]
    1 false.
Proof.
  cbv zeta. intros Herr Hres Hidx Hevs Hhash Hheader Hhr Hproofs Hlen.
  unfold Receiver.collect, Receiver.collect_init.
  cbn [fold_left length].
  unfold Receiver.collect_step at 3.
  cbn [Receiver.c_panicked Receiver.c_qch Receiver.c_clock].
  rewrite Herr, Hres.
  assert (Hrun : Receiver.run_task (Receiver.fetch None lf w) q =
    Some (Receiver.mkReq (Receiver.q_height q) (Receiver.q_hash q)
            (Receiver.q_indexes q) (Receiver.q_events q) (Receiver.q_retry q)
            None
            (Some (Receiver.mkRes (Receiver.q_height q) h (Some header)
                     [] [] [])),
          [Receiver.CallGetBlockHeaderByHeight (Receiver.q_height q);
           Receiver.CallGetProofForEvents
             (mkProofEventsParam idx (Receiver.q_hash q) evs)])).
  { unfold Receiver.run_task, Receiver.fetch, Receiver.fetch_votes.
    rewrite Hres, Herr, Hhash, Hheader, Hhr, Hidx, Hevs.
    unfold Receiver.index.
    unfold Receiver.tbind, Receiver.tret, Receiver.set_res, Receiver.set_err,
      Receiver.calling, Receiver.return_if_err.
    cbn. unfold Receiver.receipt_body, Receiver.index. rewrite Hevs.
    unfold Receiver.tbind, Receiver.tret, Receiver.calling.
    cbn. rewrite Hproofs.
    rewrite (bool_decide_eq_false_2 (length proofs = _)) by done.
    rewrite !(bool_decide_eq_true_2 (0 < S _)%nat) by lia.
    reflexivity. }
  rewrite Hrun. reflexivity.
Qed.

(** ** The claims on the small node *)

Section OnTheSmallNode.
Import Mock.

Lemma SignTransaction_hash_and_signature_witness :
  exists p',
    Client.SignTransaction (mkTransactionParam "tx" "" "" "")
      1700000000000000 = (p', None) /\
    Signature p' =
      string_of_list_byte
        (rev (bytes_of "icx_sendTransaction.tx") ++
         rev (bytes_of "icx_sendTransaction.tx")).
Proof.
  destruct (SignTransaction_hash_and_signature
              (mkTransactionParam "tx" "" "" "") 1700000000000000
              (bytes_of "tx") (bytes_of "tx")
              (rev (bytes_of "icx_sendTransaction.tx") ++
               rev (bytes_of "icx_sendTransaction.tx")))
    as (p' & Hp & _ & Hs & _); [reflexivity | reflexivity | reflexivity |].
  exists p'. split; [exact Hp | exact Hs].
Defined.

Lemma duplicate_transaction_panics_witness :
  Client.SendTransactionAndGetResult 1 (mkTransactionParam "tx" "" "" "") =
    Client.Panicked "nil pointer dereference".
Proof.
  apply (duplicate_transaction_panics (mkTransactionParam "tx" "" "" "")
           "E2000:duplicate transaction" "2000" 0);
    vm_compute; reflexivity.
Defined.

Lemma syncVerifier_guards_witness :
  Receiver.syncVerifier receiver [] verifier_at_100 100 0 =
    Receiver.mkSync (Receiver.Returned None) verifier_at_100 0 [] /\
  Receiver.syncVerifier receiver [] verifier_at_100 99 0 =
    Receiver.mkSync
      (Receiver.Returned (Some (ErrNew "invalid target height")))
      verifier_at_100 0 [].
Proof.
  split.
  - rewrite (syncVerifier_guards receiver [] verifier_at_100 100 0);
      [reflexivity | vm_compute; discriminate].
  - rewrite (syncVerifier_guards receiver [] verifier_at_100 99 0);
      [reflexivity | vm_compute; discriminate].
Defined.



Lemma short_proofs_pass_as_success_witness :
  Receiver.c_brs
    (Receiver.collect (Receiver.fetch None filter) one_by_one
       [request_0xff] 0) =
  [Some (Receiver.mkRes 100 (bytes_of "0xaa")
           (Some (mkBlockHeader 100 [] [] (bytes_of "0x64"))) [] [] [])].
Proof.
  unfold one_by_one.
  rewrite (short_proofs_pass_as_success filter request_0xff 0
             (bytes_of "0xaa") (mkBlockHeader 100 [] [] (bytes_of "0x64"))
             (mkBlockHeaderResult []) None "0xff" ["0x1"] [] ["0x7"]
             [["0x8"]] [] [[bytes_of "0xff"]]);
    try reflexivity.
  vm_compute. discriminate.
Defined.

(** The drain loop and a [reconnect()] of the monitor goroutine, both
    receiving from [brch]: with the results for 100, 101 and 102 on the
    channel and no verifier, the monitor takes 101 while the block 100
    is delivered; the orchestrator goes on with 102 and leaves [next] at
    102. *)
Lemma reconnect_during_drain_skips_a_block :
  exists st,
    Receiver.drain_racing Sequencer.callback [1%nat]
      (Receiver.l_brch state_with_three) state_with_three =
      Receiver.Running st /\
    Receiver.r_Height <$> Receiver.l_delivered st = [100; 102] /\
    Receiver.l_next st = 102 /\ Receiver.l_rech st = true.
Proof.
  eexists. split; [vm_compute; reflexivity|].
  repeat split; vm_compute; reflexivity.
Qed.



End OnTheSmallNode.


(** * Further properties of the code *)

(** ** The channels of the collector *)

Section CollectorDiscipline.
Import Receiver.
Variable task : nat -> req -> T unit.

(** The requests of a batch: queued on [qch], held by a goroutine, or
    answered in [brs]. *)
Definition in_flight (st : cstate) : nat :=
  (length (c_qch st) + length (c_running st) + length (c_brs st))%nat.

Definition disciplined (st : cstate) : Prop :=
  (in_flight st <= c_cap st)%nat /\
  (c_panicked st = false -> in_flight st = c_cap st) /\
  (c_closed st = true ->
   length (c_brs st) = c_cap st /\ c_panicked st = false) /\
  (c_panicked st = true -> exists w q, run_task (task w) q = None).

Lemma collect_step_disciplined st ev :
  disciplined st ->
  disciplined (collect_step task st ev) /\
  c_cap (collect_step task st ev) = c_cap st.
Proof.
  intros Hd.
  assert (Hsame : disciplined st /\ c_cap st = c_cap st) by done.
  unfold collect_step.
  destruct (c_panicked st) eqn:Hpan; [done|].
  destruct Hd as (Hle & Heq & Hcl & Hp).
  unfold in_flight in Hle, Heq. unfold disciplined, in_flight.
  rewrite Hpan in Heq, Hcl, Hp.
  specialize (Heq eq_refl).
  assert (Hopen : c_qch st <> [] \/ c_running st <> [] -> c_closed st = false).
  { intros Hne. destruct (c_closed st); [|done].
    destruct (Hcl eq_refl) as [Hfull _].
    destruct (c_qch st), (c_running st); cbn [length] in *;
      try lia; by destruct Hne. }
  destruct ev as [|i].
  - destruct (c_qch st) as [|q rest] eqn:Hq; [exact Hsame|].
    assert (Hop : c_closed st = false) by (apply Hopen; by left).
    cbn [length] in *.
    destruct (q_err q) as [e|]; [destruct (decide (q_retry q > 0))|
      destruct (q_res q) as [x|];
      [|destruct (run_task (task (c_clock st)) q) as [[q' calls]|] eqn:Hrun]];
      unfold append_result; rewrite ?Hop;
      cbn [c_qch c_running c_brs c_cap c_closed c_panicked];
      rewrite ?Hop, ?Hpan, ?length_app; cbn [length];
      (split; [|done]); repeat split; try (intros; lia); try done;
      try by case_decide.
    eauto.
  - destruct (c_running st !! i) as [q|] eqn:Hi; [|exact Hsame].
    assert (Hlen : length (delete i (c_running st)) = (length (c_running st) - 1)%nat).
    { apply length_delete. by eexists. }
    assert (Hpos : (0 < length (c_running st))%nat).
    { apply lookup_lt_Some in Hi. lia. }
    rewrite Hopen by (right; by intros Hnil; rewrite Hnil in Hi).
    cbn [c_qch c_running c_brs c_cap c_closed c_panicked].
    rewrite length_app, Hlen, ?Hpan. cbn [length].
    split; [|done]. repeat split; try (intros; lia); done.
Qed.

Lemma collect_steps_disciplined sch : forall st,
  disciplined st ->
  disciplined (fold_left (collect_step task) sch st) /\
  c_cap (fold_left (collect_step task) sch st) = c_cap st.
Proof.
  induction sch as [|ev sch IH]; intros st Hd; cbn [fold_left]; [done|].
  destruct (collect_step_disciplined st ev Hd) as [Hd' Hc].
  destruct (IH _ Hd') as [Hd'' Hc']. split; [done | congruence].
Qed.

Lemma collect_disciplined sch reqs clock :
  disciplined (collect task sch reqs clock) /\
  c_cap (collect task sch reqs clock) = length reqs.
Proof.
  unfold collect. apply collect_steps_disciplined.
  unfold disciplined, in_flight, collect_init. cbn. repeat split; try lia; done.
Qed.

End CollectorDiscipline.

(** X1.  The requests of a batch are on [qch], with a goroutine, or
    answered in [brs], and never more than were queued at the start: a
    send on [qch], whose capacity is at least that number, never
    blocks.  [qch] is closed only when every request has its answer in
    [brs]; by then no goroutine is left to send on the closed channel
    and nothing is left to receive.  The collector panics only when a
    goroutine does. *)
Theorem collector_never_blocks_nor_sends_on_closed
    (task : nat -> Receiver.req -> Receiver.T unit)
    (sch : list Receiver.sched_step) (reqs : list Receiver.req)
    (clock : nat) :
  let c := Receiver.collect task sch reqs clock in
  (length (Receiver.c_qch c) + length (Receiver.c_running c) +
   length (Receiver.c_brs c) <= length reqs)%nat /\
  (Receiver.c_closed c = true ->
   length (Receiver.c_brs c) = length reqs /\
   Receiver.c_qch c = [] /\ Receiver.c_running c = [] /\
   Receiver.c_panicked c = false) /\
  (Receiver.c_panicked c = true ->
   exists w q, Receiver.run_task (task w) q = None).
Proof.
  cbv zeta.
  destruct (collect_disciplined task sch reqs clock)
    as [(Hle & _ & Hcl & Hp) Hcap].
  unfold in_flight in Hle. rewrite Hcap in *.
  split; [done|]. split; [|done].
  intros Hc. destruct (Hcl Hc) as [Hfull Hpan].
  repeat split; try done.
  - destruct (Receiver.c_qch _); [done | cbn [length] in Hle; lia].
  - destruct (Receiver.c_running _); [done | cbn [length] in Hle; lia].
Qed.

(** ** The batch and the block-result channel *)

Lemma forward_from_length next l : forall i,
  (length (Receiver.forward_from next i l) <= length l)%nat.
Proof.
  induction l as [|d l IH]; intros i; cbn [Receiver.forward_from length];
    [done|].
  case_decide; cbn [length]; specialize (IH (i64 (i + 1))); lia.
Qed.

Lemma filter_nil_length brs :
  (length (Receiver.filter_nil brs) <= length brs)%nat.
Proof.
  unfold Receiver.filter_nil.
  induction brs as [|[x|] brs IH]; cbn; lia.
Qed.

Lemma batch_results_length next brs :
  (length (Receiver.batch_results next brs) <= length brs)%nat.
Proof.
  unfold Receiver.batch_results, Receiver.forward.
  pose proof (filter_nil_length brs) as Hf.
  case_decide; cbn [length]; [|lia].
  etrans; [apply forward_from_length|].
  by rewrite (Permutation_length (sort_by_height_perm _)).
Qed.

Lemma build_batch_fits `{Codec} r next bnch : forall bn i qch,
  (length qch < Receiver.capacity r)%nat ->
  match Receiver.build_batch r next i bn bnch qch with
  | Receiver.BatchReady qch' _ =>
      (0 < length qch' <= Receiver.capacity r)%nat
  | Receiver.BatchBlocked => False
  | _ => True
  end.
Proof.
  induction bnch as [|bn' bnch IH]; intros bn i qch Hlt;
    cbn [Receiver.build_batch];
    destruct (HexInt_Value (bn_Height bn)) as [height [e|]]; try done;
    destruct (decide (height <> i64 (next + i))); try done;
    (destruct (decide (length qch < Receiver.capacity r)%nat); [|done]).
  - rewrite length_app. cbn [length]. lia.
  - case_decide as Hlt'.
    + by apply IH.
    + rewrite length_app. cbn [length]. lia.
Qed.

(** X2.  With a channel capacity of at least one the loop that fills
    [qch] from the notifications never blocks, and the batch it builds
    has between one and [cap(qch)] requests.  Whatever the goroutines do
    and in whatever order, the results the orchestrator then pushes on
    [brch] are no more than that: the sends on [brch], whose capacity is
    the same and which is empty when the default arm runs, never
    block. *)
Theorem batch_never_blocks_the_orchestrator
    `{Codec} (r : Receiver.receiver) (next : Z) (bn : BlockNotification)
    (bnch : list BlockNotification) :
  ((0 < Receiver.capacity r)%nat ->
   Receiver.build_batch r next 0 bn bnch [] <> Receiver.BatchBlocked) /\
  (forall qch bnch',
     Receiver.build_batch r next 0 bn bnch [] = Receiver.BatchReady qch bnch' ->
     (0 < length qch <= Receiver.capacity r)%nat /\
     forall task sch clock next',
       (length (Receiver.batch_results next'
                  (Receiver.c_brs (Receiver.collect task sch qch clock)))
        <= Receiver.capacity r)%nat).
Proof.
  split.
  - intros Hcap Hb.
    pose proof (build_batch_fits r next bnch bn 0 [] Hcap) as Hf.
    by rewrite Hb in Hf.
  - intros qch bnch' Hb.
    destruct (decide (0 < Receiver.capacity r)%nat) as [Hcap|Hcap].
    + pose proof (build_batch_fits r next bnch bn 0 [] Hcap) as Hf.
      rewrite Hb in Hf. split; [done|].
      intros task sch clock next'.
      etrans; [apply batch_results_length|].
      destruct (collect_disciplined task sch qch clock) as [(Hle & _) Hc].
      unfold in_flight in Hle. lia.
    + exfalso. destruct bnch; cbn [Receiver.build_batch] in Hb;
        destruct (HexInt_Value (bn_Height bn)) as [height [e|]]; try done;
        destruct (decide (height <> i64 (next + 0))); try done;
        destruct (decide (length [] < Receiver.capacity r)%nat);
        cbn [length] in *; try done; lia.
Qed.

(** ** Catching the verifier up: what [syncVerifier] returns *)

Section SyncFacts.
Import Receiver.
Context `{Codec} `{Node} `{VerifierOps}.
Variable r : receiver.

(** The errors of the verify-and-update pass. *)
Definition sync_error (e : error) : Prop :=
  e = ErrNew "syncVerifier: invalid header" \/
  exists e', e = ErrWrap "syncVerifier: Verify" e' \/
             e = ErrWrap "syncVerifier: Update" e'.

Lemma sync_apply_error sres : forall vr vr' e,
  sync_apply vr sres = (vr', Some e) -> sync_error e.
Proof.
  unfold sync_error.
  induction sres as [|x rest IH]; intros vr vr' e Ha; cbn [sync_apply] in Ha;
    [done|].
  case_decide; [|by eapply IH].
  destruct (Verify vr (r_Header x) (r_Votes x)) as [[] [e1|]];
    try (inversion Ha; subst; by eauto).
  destruct (Update vr (r_Header x) (r_NextValidators x)) as [vr1 [e1|]];
    [inversion Ha; subst; by eauto | by eapply IH].
Qed.

Lemma sync_loop_post scheds : forall vr height clock calls,
  let s := sync_loop r scheds vr height clock calls in
  (s_err s = Returned None -> Next (s_vr s) >= height) /\
  (forall e, s_err s = Returned (Some e) -> sync_error e).
Proof.
  induction scheds as [|sch scheds IH]; intros vr height clock calls;
    cbv zeta; cbn [sync_loop];
    (destruct (decide (Next vr < height)); [|cbn; split; [lia | done]]).
  - by cbn.
  - destruct (c_panicked _); [by cbn|].
    destruct (collected _); [|by cbn].
    match goal with
    | |- context [let '(_, _) := ?p in _] => destruct p as [vr' [e|]] eqn:Hp
    end.
    + cbn. split; [done|]. intros e' [= <-].
      case_decide; [by eapply sync_apply_error | done].
    + apply IH.
Qed.

End SyncFacts.

(** X3.  When [syncVerifier] returns [nil] the verifier has reached the
    target height (it may be past it: a batch asks for
    [SyncConcurrency] heights whatever the target).  An error it
    returns is the error of the target check, of [Verify], of a
    rejected header or of [Update]: the error of a failed fetch is never
    returned. *)
Theorem syncVerifier_returns
    `{Codec} `{Node} `{VerifierOps} (r : Receiver.receiver)
    (scheds : list (list Receiver.sched_step)) (vr : Verifier) (height : Z)
    (clock : nat) :
  let s := Receiver.syncVerifier r scheds vr height clock in
  (Receiver.s_err s = Receiver.Returned None ->
   Next (Receiver.s_vr s) >= height) /\
  (forall e,
     Receiver.s_err s = Receiver.Returned (Some e) ->
     e = ErrNew "invalid target height" \/
     e = ErrNew "syncVerifier: invalid header" \/
     exists e', e = ErrWrap "syncVerifier: Verify" e' \/
                e = ErrWrap "syncVerifier: Update" e').
Proof.
  cbv zeta. unfold Receiver.syncVerifier.
  destruct (decide (height = Next vr)) as [->|Hne]; [cbn; split; [lia | done]|].
  destruct (decide (Next vr > height)).
  - cbn. split; [done|]. intros e [= <-]. by left.
  - destruct (sync_loop_post r scheds vr height clock []) as [Hok Herr].
    split; [done|]. intros e He. right. by apply Herr.
Qed.

(** ** Requests that fail and are not retried *)

Section AllFail.
Import Receiver.
Variable task : nat -> req -> T unit.

(** The goroutine ends every time with [q.err] set, and leaves the
    retry count alone. *)
Hypothesis task_fails : forall w q,
  exists q' calls,
    run_task (task w) q = Some (q', calls) /\
    q_err q' <> None /\ q_retry q' = q_retry q.

Definition spent (st : cstate) : Prop :=
  Forall (fun q => q_retry q <= 0 /\ (q_err q = None -> q_res q = None))
    (c_qch st) /\
  Forall (fun q => q_retry q <= 0 /\ q_err q <> None) (c_running st) /\
  Forall (fun v => v = None) (c_brs st).

Lemma collect_step_spent st ev : spent st -> spent (collect_step task st ev).
Proof.
  intros Hs. pose proof Hs as (Hq & Hr & Hb).
  unfold collect_step. destruct (c_panicked st); [done|].
  destruct ev as [|i].
  - destruct (c_qch st) as [|q rest] eqn:Hqch; [done|].
    apply Forall_cons in Hq as [[Hretry Hfresh] Hq].
    destruct (q_err q) as [e|] eqn:He.
    + destruct (decide (q_retry q > 0)); [lia|].
      unfold spent, append_result. cbn [c_qch c_running c_brs].
      repeat split; auto. apply Forall_app. split; [done|].
      by apply Forall_singleton.
    + rewrite (Hfresh eq_refl).
      destruct (task_fails (c_clock st) q) as (q' & calls & -> & Herr & Hre).
      unfold spent. cbn [c_qch c_running c_brs].
      repeat split; auto. apply Forall_app. split; [done|].
      apply Forall_singleton. split; [lia | done].
  - destruct (c_running st !! i) as [q|] eqn:Hi; [|done].
    assert (Hqi : q_retry q <= 0 /\ q_err q <> None).
    { eapply Forall_lookup_1 in Hr; eauto. }
    assert (Hdel : Forall (fun q => q_retry q <= 0 /\ q_err q <> None)
                     (delete i (c_running st))).
    { by apply Forall_delete. }
    destruct (c_closed st); unfold spent; cbn [c_qch c_running c_brs];
      repeat split; auto.
    apply Forall_app. split; [done|]. apply Forall_singleton.
    split; [tauto|]. intros Hn. tauto.
Qed.

Lemma collect_spent sch reqs clock :
  Forall (fun q => q_retry q <= 0 /\ q_err q = None /\ q_res q = None) reqs ->
  let c := collect task sch reqs clock in
  filter_nil (c_brs c) = [] /\ c_panicked c = false.
Proof.
  intros Hreqs. cbv zeta. split.
  - assert (Hs : spent (collect task sch reqs clock)).
    { unfold collect.
      assert (Hinit : spent (collect_init reqs clock)).
      { unfold spent, collect_init. cbn. repeat split; auto.
        eapply Forall_impl; [exact Hreqs|]. cbn. intros q (? & ? & ?). auto. }
      revert Hinit. generalize (collect_init reqs clock).
      induction sch as [|ev sch IH]; intros st Hst; cbn [fold_left]; [done|].
      apply IH. by apply collect_step_spent. }
    destruct Hs as (_ & _ & Hb). unfold filter_nil.
    induction Hb as [|v brs -> Hb IH]; [done | apply IH].
  - destruct (collect_disciplined task sch reqs clock) as [(_ & _ & _ & Hp) _].
    destruct (c_panicked _); [|done].
    destruct (Hp eq_refl) as (w & q & Hrun).
    destruct (task_fails w q) as (q' & calls & Hrun' & _). congruence.
Qed.

End AllFail.

Section SyncStalls.
Import Receiver.
Context `{Codec} `{Node} `{VerifierOps}.
Variable r : receiver.

Lemma sync_requests_fresh n : forall i,
  Forall (fun q => q_retry q <= 0 /\ q_err q = None /\ q_res q = None)
    (sync_requests i n).
Proof.
  induction n as [|n IH]; intros i; cbn [sync_requests]; constructor; auto.
  cbn. repeat split; lia.
Qed.

Lemma fetch_sync_fails vr :
  (forall w h, exists e, Client.getBlockHeaderByHeight w h = Err e) ->
  forall w q, exists q' calls,
    run_task (fetch_sync vr w) q = Some (q', calls) /\
    q_err q' <> None /\ q_retry q' = q_retry q.
Proof.
  intros Hfail w q. destruct (Hfail w (q_height q)) as [e He].
  unfold run_task, fetch_sync. rewrite He.
  unfold tbind, set_res, set_err, calling, return_if_err. cbn.
  eexists _, _. split; [reflexivity|]. by cbn.
Qed.

Lemma sync_loop_stalls scheds : forall vr height clock calls,
  (forall w h, exists e, Client.getBlockHeaderByHeight w h = Err e) ->
  Next vr < height ->
  let s := sync_loop r scheds vr height clock calls in
  s_err s = Blocked /\ s_vr s = vr.
Proof.
  induction scheds as [|sch scheds IH]; intros vr height clock calls Hfail Hlt;
    cbv zeta; cbn [sync_loop];
    (destruct (decide (Next vr < height)); [|lia]); [done|].
  destruct (collect_spent (fetch_sync vr) (fetch_sync_fails vr Hfail) sch
              (sync_requests (Next vr) (capacity r)) clock) as [Hnil Hpan].
  { apply sync_requests_fresh. }
  rewrite Hpan, Hnil. cbn [length].
  destruct (collected _); [|done].
  destruct (decide (0 < 0)%nat); [lia|]. by apply IH.
Qed.

End SyncStalls.

(** X4.  While the node does not serve block headers [syncVerifier]
    does not return: a request of [syncVerifier] has no retry left, the
    failed fetch stands as [nil] in its batch, the batch verifies
    nothing, and the loop asks again for the same heights.  The error
    of the fetch is never reported and the verifier stays where it
    was. *)
Theorem syncVerifier_stalls_on_fetch_errors
    `{Codec} `{Node} `{VerifierOps} (r : Receiver.receiver)
    (vr : Verifier) (height : Z)
    (scheds : list (list Receiver.sched_step)) (clock : nat) :
  Next vr < height ->
  (forall w h, exists e, Client.getBlockHeaderByHeight w h = Err e) ->
  let s := Receiver.syncVerifier r scheds vr height clock in
  Receiver.s_err s = Receiver.Blocked /\ Receiver.s_vr s = vr.
Proof.
  intros Hlt Hfail. cbv zeta. unfold Receiver.syncVerifier.
  destruct (decide (height = Next vr)); [lia|].
  destruct (decide (Next vr > height)); [lia|].
  by apply sync_loop_stalls.
Qed.

(** ** The receipts a fetch goroutine builds *)

Section ReceiptFacts.
Import Receiver.
Context `{Codec} `{Node} `{VerifierOps}.

Ltac unfold_task :=
  unfold index in *;
  unfold tbind, tret, set_res, set_err, calling, panic,
    return_if_err, wrap_q_err_and_return, fail in *.

(** An event whose [Next] is the destination the filter was built
    for. *)
Definition addressed (lf : eventLogRawFilter) (ev : chain.Event) : Prop :=
  chain.Next ev = string_of_list_byte (f_next lf).

Definition not_all_events : error :=
  ErrNew "failed to verify all events for the receipt".

(** The receipt stands for the position [i] of the notification: it
    has the index listed there and as many events as are listed
    there. *)
Definition receipt_at (q : req) (i : nat) (rc : chain.Receipt) : Prop :=
  exists indexes0 events0 idx evs,
    q_indexes q !! 0%nat = Some indexes0 /\ indexes0 !! i = Some idx /\
    q_events q !! 0%nat = Some events0 /\ events0 !! i = Some evs /\
    chain.Index rc = idx_value idx /\
    length (chain.Events rc) = length evs.

Lemma event_loop_events lf proofs result l : forall acc j s evs s',
  for_acc (event_body lf proofs result) acc j l s = Next_ evs s' ->
  exists new,
    evs = acc ++ new /\ length new = length l /\ Forall (addressed lf) new.
Proof.
  induction l as [|ev l IH]; intros acc j s evs s' Hrun; cbn [for_acc] in Hrun.
  - unfold tret in Hrun. inversion Hrun; subst. exists [].
    by rewrite app_nil_r.
  - unfold tbind at 1 in Hrun.
    destruct (event_body lf proofs result acc j ev s) as [acc' s1|s1|] eqn:Hb;
      [|done|done].
    apply IH in Hrun as (new & -> & Hlen & Hall).
    assert (exists e, acc' = acc ++ [e] /\ addressed lf e) as (e & -> & He).
    { unfold event_body in Hb. unfold_task.
      repeat (case_match; simplify_eq/=).
      eexists. split; [done|]. unfold addressed, matches in *. cbn.
      repeat match goal with
      | Hm : _ && _ = true |- _ => apply andb_prop in Hm as [? ?]
      | Hm : bool_decide _ = true |- _ => apply bool_decide_eq_true_1 in Hm
      end. congruence. }
    exists (e :: new). rewrite <- app_assoc. cbn [length].
    repeat split; auto.
Qed.

Lemma event_loop_exit lf proofs result l : forall acc j s s',
  for_acc (event_body lf proofs result) acc j l s = Exit s' ->
  t_err s' <> None /\ t_err s' <> Some not_all_events.
Proof.
  induction l as [|ev l IH]; intros acc j s s' Hrun; cbn [for_acc] in Hrun;
    [done|].
  unfold tbind at 1 in Hrun.
  destruct (event_body lf proofs result acc j ev s) as [acc' s1|s1|] eqn:Hb;
    [by eapply IH| |done].
  inversion Hrun; subst; clear Hrun.
  unfold event_body in Hb. unfold_task.
  repeat (case_match; simplify_eq/=); done.
Qed.

(** One receipt: what the body of the loop over the receipt indexes
    leaves. *)
Lemma receipt_body_events w lf q hr i idx indexes0 s :
  q_indexes q !! 0%nat = Some indexes0 -> indexes0 !! i = Some idx ->
  t_err s = None ->
  match receipt_body w lf q hr i idx s with
  | Next_ _ s' =>
      t_err s' = None /\
      (r_Receipts (t_res s') = r_Receipts (t_res s) \/
       exists rc, r_Receipts (t_res s') = r_Receipts (t_res s) ++ [rc] /\
                  Forall (addressed lf) (chain.Events rc) /\
                  receipt_at q i rc)
  | Exit s' =>
      r_Receipts (t_res s') = r_Receipts (t_res s) /\
      t_err s' <> Some not_all_events
  | Panic _ => True
  end.
Proof.
  intros Hidx Hi Herr. unfold receipt_body. unfold_task.
  repeat (case_match; simplify_eq/=); try done;
    try (split; [done|]; rewrite ?Herr; done);
    match goal with
    | Hl : for_acc (event_body ?lf ?p ?r) ?acc ?j ?l ?s = Next_ _ _ |- _ =>
        pose proof (event_loop_state lf p r l acc j s) as Hst;
        rewrite Hl in Hst;
        apply event_loop_events in Hl as (new & Hnew & Hlen & Hall)
    | Hl : for_acc (event_body ?lf ?p ?r) ?acc ?j ?l ?s = Exit _ |- _ =>
        pose proof (event_loop_state lf p r l acc j s) as Hst;
        rewrite Hl in Hst;
        apply event_loop_exit in Hl as [Hne Hnot]
    end; simplify_eq/=.
  - split; [done|]. right. eexists. split; [done|]. split; [done|].
    unfold receipt_at. eexists _, _, _, _. by repeat split.
  - split; [done|]. by left.
  - destruct Hst as (-> & _). done.
Qed.

Lemma receipts_loop_events w lf q hr indexes0 l : forall i s,
  q_indexes q !! 0%nat = Some indexes0 ->
  (forall k idx, l !! k = Some idx -> indexes0 !! (i + k)%nat = Some idx) ->
  t_err s = None ->
  match for_range (receipt_body w lf q hr) i l s with
  | Next_ _ s' | Exit s' =>
      t_err s' <> Some not_all_events /\
      exists extra,
        r_Receipts (t_res s') = r_Receipts (t_res s) ++ extra /\
        Forall (fun rc => Forall (addressed lf) (chain.Events rc) /\
                          exists k, receipt_at q k rc) extra
  | Panic _ => True
  end.
Proof.
  induction l as [|idx l IH]; intros i s Hidx Hl Herr; cbn [for_range].
  - unfold tret. rewrite Herr. split; [done|]. exists [].
    by rewrite app_nil_r.
  - unfold tbind at 1.
    pose proof (receipt_body_events w lf q hr i idx indexes0 s Hidx) as Hb.
    rewrite <- (Nat.add_0_r i) in Hb at 1.
    specialize (Hb (Hl 0%nat idx eq_refl) Herr).
    destruct (receipt_body w lf q hr i idx s) as [[] s1|s1|]; [| |done].
    + destruct Hb as (Herr1 & Hrc).
      specialize (IH (S i) s1 Hidx).
      destruct (for_range (receipt_body w lf q hr) (S i) l s1)
        as [[] s2|s2|]; [| |done];
        (destruct IH as (Hne & extra & Hx & Hall);
         [intros k idx' Hk; replace (S i + k)%nat with (i + S k)%nat by lia;
          by apply Hl
         |done|]);
        (split; [done|]);
        (destruct Hrc as [Hrc|(rc & Hrc & Hadd & Hat)];
         [exists extra; by rewrite Hx, Hrc
         |exists (rc :: extra); rewrite Hx, Hrc, <- app_assoc;
          split; [done|]; constructor; eauto]).
    + destruct Hb as [Hrc Hne]. split; [done|]. exists [].
      by rewrite app_nil_r.
Qed.

Lemma fetch_events vr lf w q s :
  r_Receipts (t_res s) = [] ->
  match fetch vr lf w q s with
  | Next_ _ s' | Exit s' =>
      t_err s' <> Some not_all_events /\
      Forall (fun rc => Forall (addressed lf) (chain.Events rc) /\
                        exists k, receipt_at q k rc) (r_Receipts (t_res s'))
  | Panic _ => True
  end.
Proof.
  intros Hz. unfold fetch. unfold_task.
  repeat (case_match; simplify_eq/=); try done;
    repeat match goal with
    | Hv : fetch_votes ?w ?vr ?q ?h ?s = _ |- _ =>
        let Hs := fresh "Hvotes" in
        pose proof (fetch_votes_spec w vr q h s) as Hs;
        let He := fresh "Hverr" in
        assert (He : match fetch_votes w vr q h s with
                     | Next_ _ s' => t_err s' = None
                     | Exit s' => t_err s' <> Some not_all_events
                     | Panic _ => True
                     end);
        [unfold fetch_votes; unfold_task;
         repeat (case_match; simplify_eq/=); done|];
        rewrite Hv in Hs, He; clear Hv; cbn in Hs, He;
        destruct Hs as (? & ? & ? & ?)
    | Hl : for_range (receipt_body ?w ?lf ?q ?hr) 0%nat ?l ?s = _,
      Hi : q_indexes ?q !! 0%nat = Some ?l |- _ =>
        let Hs := fresh "Hloop" in
        pose proof (receipts_loop_events w lf q hr l l 0%nat s Hi
                      (fun k idx Hk => Hk)) as Hs;
        rewrite Hl in Hs; clear Hl
    end;
    rewrite ?Hz in *; cbn in *;
    try (split; [done|]; by rewrite ?Hz);
    try (split; [done|];
         match goal with
         | Hr : r_Receipts ?a = [] |- context [r_Receipts ?a] => by rewrite Hr
         end).
  all: try match goal with
       | Hs : t_err _ = None -> _ |- _ =>
           destruct Hs as (Hne & extra & Hx & Hall); [done|]
       end.
  all: split; [congruence|].
  all: repeat match goal with
       | Hr : r_Receipts ?a = _ |- context [r_Receipts ?a] => rewrite Hr
       end; cbn [app]; done.
Qed.

End ReceiptFacts.

(** X5.  A receipt a fetch goroutine adds to its block result stands
    for one position of the notification: it has as many events as the
    notification lists at that position, and each of them passed the
    filter, so its [Next] is the destination the receiver was built
    for.  An event that does not pass ends the goroutine with [invalid
    event]; the goroutine never ends with [failed to verify all events
    for the receipt]. *)
Theorem fetched_receipts_are_complete
    `{Codec} `{Node} `{VerifierOps} (vr : option Verifier)
    (lf : Receiver.eventLogRawFilter) (w : nat) (q q' : Receiver.req)
    (calls : list Receiver.call) :
  Receiver.q_res q = None ->
  Receiver.run_task (Receiver.fetch vr lf w) q = Some (q', calls) ->
  Receiver.q_err q' <>
    Some (ErrNew "failed to verify all events for the receipt") /\
  exists x,
    Receiver.q_res q' = Some x /\
    Forall (fun rc =>
              Forall (fun ev => chain.Next ev =
                                  string_of_list_byte (Receiver.f_next lf))
                (chain.Events rc) /\
              exists k indexes0 events0 idx evs,
                Receiver.q_indexes q !! 0%nat = Some indexes0 /\
                indexes0 !! k = Some idx /\
                Receiver.q_events q !! 0%nat = Some events0 /\
                events0 !! k = Some evs /\
                chain.Index rc = idx_value idx /\
                length (chain.Events rc) = length evs)
      (Receiver.r_Receipts x).
Proof.
  unfold Receiver.run_task. intros Hnil Hrun. rewrite Hnil in Hrun.
  cbn [default] in Hrun.
  pose proof (fetch_events vr lf w q
                (Receiver.mkT Receiver.zero_res (Receiver.q_err q) [])
                eq_refl) as Hs.
  destruct (Receiver.fetch vr lf w q _) as [[] s'|s'|];
    cbv beta iota in Hrun; [| |done];
    inversion Hrun; subst; cbn [Receiver.q_err Receiver.q_res];
    destruct Hs as [Hne Hall]; (split; [exact Hne|]);
    eexists; (split; [reflexivity|]);
    (eapply Forall_impl; [exact Hall|]);
    intros rc [Hadd (k & i0 & e0 & idx & evs & Hrc)];
    (split; [exact Hadd|]); exists k, i0, e0, idx, evs; exact Hrc.
Qed.

(** ** Panics of the fetch goroutine *)

Section PanicFacts.
Import Receiver.
Context `{Codec} `{Node} `{VerifierOps}.

Ltac unfold_task :=
  unfold index in *;
  unfold tbind, tret, set_res, set_err, calling, panic,
    return_if_err, wrap_q_err_and_return, fail in *.

(** Once a goroutine has panicked the model stops. *)
Lemma collect_panicked task sch : forall st,
  c_panicked st = true -> fold_left (collect_step task) sch st = st.
Proof.
  induction sch as [|ev sch IH]; intros st Hp; cbn [fold_left]; [done|].
  assert (collect_step task st ev = st) as ->; [|by apply IH].
  unfold collect_step. by rewrite Hp.
Qed.

(** Every event log the codec decodes has the three indexed fields and
    the data field the goroutine reads. *)
Definition well_formed_logs : Prop :=
  forall b el, RLP_EventLog b = (el, None) ->
    (3 <= length (Indexed el))%nat /\ (1 <= length (Data el))%nat.

Lemma event_loop_no_panic lf proofs result l : forall acc j s msg,
  well_formed_logs ->
  (S (j + length l) <= length proofs)%nat ->
  for_acc (event_body lf proofs result) acc j l s <> Panic msg.
Proof.
  induction l as [|ev l IH]; intros acc j s msg Hwf Hlen; cbn [for_acc];
    [done|].
  cbn [length] in Hlen. unfold tbind at 1.
  destruct (event_body lf proofs result acc j ev s) as [acc' s1|s1|m] eqn:Hb;
    [apply IH; [done | lia] | done |].
  exfalso. unfold event_body in Hb. unfold_task.
  repeat (case_match; simplify_eq/=);
    repeat match goal with
    | Hd : RLP_EventLog _ = (_, None) |- _ => apply Hwf in Hd as [? ?]
    | Hl : _ !! _ = None |- _ => apply lookup_ge_None_1 in Hl
    end;
    unfold EventIndexSignature, EventIndexNext, EventIndexSequence in *;
    cbn in *; lia.
Qed.

Lemma receipts_loop_no_panic w lf q hr events0 l : forall i s msg,
  well_formed_logs ->
  q_events q !! 0%nat = Some events0 ->
  (i + length l <= length events0)%nat ->
  for_range (receipt_body w lf q hr) i l s <> Panic msg.
Proof.
  induction l as [|idx l IH]; intros i s msg Hwf Hev Hlen; cbn [for_range];
    [done|].
  cbn [length] in Hlen. unfold tbind at 1.
  destruct (receipt_body w lf q hr i idx s) as [[] s1|s1|m] eqn:Hb;
    [apply IH; [done | done | lia] | done |].
  exfalso. unfold receipt_body in Hb. unfold_task. rewrite Hev in Hb.
  destruct (events0 !! i) as [p_Events|] eqn:Hi;
    [|apply lookup_ge_None_1 in Hi; lia].
  destruct (icx_getProofForEvents _ _) as [proofs|]; [|done].
  destruct (bool_decide (length proofs = S (length p_Events))) eqn:Hp;
    cbn [negb] in Hb; [|done].
  apply bool_decide_eq_true_1 in Hp.
  destruct (proofs !! 0%nat) as [proof0|] eqn:Hp0;
    [|apply lookup_ge_None_1 in Hp0; lia].
  destruct (mptProve idx proof0 (ReceiptHash hr)); [|done].
  destruct (RLP_TxResult _) as [result [e|]]; [done|].
  destruct (for_acc _ [] 0%nat p_Events _) as [evs s2|s2|m'] eqn:Hl.
  - repeat case_decide; done.
  - done.
  - eapply event_loop_no_panic; [done| |exact Hl]. cbn. lia.
Qed.

Lemma fetch_no_panic vr lf w q s msg :
  well_formed_logs ->
  (forall indexes0 events0,
     q_indexes q !! 0%nat = Some indexes0 ->
     q_events q !! 0%nat = Some events0 ->
     (length indexes0 <= length events0)%nat) ->
  fetch vr lf w q s <> Panic msg.
Proof.
  intros Hwf Hshape Hf. unfold fetch in Hf. unfold_task.
  repeat (case_match; simplify_eq/=);
    try match goal with
    | Hv : fetch_votes _ _ _ _ _ = Panic _ |- _ =>
        unfold fetch_votes in Hv; unfold_task;
        repeat (case_match; simplify_eq/=)
    end;
    repeat match goal with
    | Hb : _ && _ = true |- _ => apply andb_prop in Hb as [? ?]
    | Hb : bool_decide _ = true |- _ => apply bool_decide_eq_true_1 in Hb
    | Hl : _ !! 0%nat = None |- _ => apply lookup_ge_None_1 in Hl
    end; try lia.
  all: match goal with
       | Hl : for_range _ _ ?l _ = Panic _,
         Hi : q_indexes ?q0 !! 0%nat = Some ?l |- _ =>
           destruct (q_events q0 !! 0%nat) as [events0|] eqn:Hev;
           [eapply receipts_loop_no_panic in Hl; eauto;
            cbn; by eapply Hshape
           |apply lookup_ge_None_1 in Hev; lia]
       end.
Qed.

End PanicFacts.

(** X6.  The fetch goroutine panics only on an index out of range, and
    there are two such places: a notification that lists fewer event
    lists than receipt indexes, and an event log with fewer than three
    indexed fields or without data.  When the codec decodes only event
    logs that have these fields and the notification has an event list
    for every receipt index, the goroutine does not panic, whatever the
    node answers. *)
Theorem fetch_does_not_panic
    `{Codec} `{Node} `{VerifierOps} (vr : option Verifier)
    (lf : Receiver.eventLogRawFilter) (w : nat) (q : Receiver.req) :
  (forall b el, RLP_EventLog b = (el, None) ->
     (3 <= length (Indexed el))%nat /\ (1 <= length (Data el))%nat) ->
  (forall indexes0 events0,
     Receiver.q_indexes q !! 0%nat = Some indexes0 ->
     Receiver.q_events q !! 0%nat = Some events0 ->
     (length indexes0 <= length events0)%nat) ->
  exists q' calls,
    Receiver.run_task (Receiver.fetch vr lf w) q = Some (q', calls).
Proof.
  intros Hwf Hshape. unfold Receiver.run_task.
  destruct (Receiver.fetch vr lf w q _) as [[] s'|s'|msg] eqn:Hf;
    [by eexists _, _ | by eexists _, _ |].
  by apply fetch_no_panic in Hf.
Qed.

(** X7.  A notification whose first event list is shorter than its
    list of receipt indexes brings [receiveLoop] down: with no verifier
    configured, once the hash is decoded and the header fetched, the
    goroutine reads [q.events[0][i]] out of range, and the panic of a
    goroutine ends the process. *)
Theorem short_event_list_panics
    `{Codec} `{Node} `{VerifierOps} {CB : Type}
    (callback : CB -> list chain.Receipt -> result CB)
    (r : Receiver.receiver) (st : Receiver.lstate)
    (bn : BlockNotification) (h : bytes) (header : BlockHeader)
    (idx : HexInt) (more_idx : list HexInt) (rest_idx : list (list HexInt))
    (rest_evs : list (list (list HexInt)))
    (sch : list Receiver.sched_step) :
  (0 < Receiver.capacity r)%nat ->
  Receiver.l_vr st = None ->
  Receiver.l_rech st = false ->
  Receiver.l_brch st = [] ->
  Receiver.l_bnch st = [bn] ->
  HexInt_Value (bn_Height bn) = (Receiver.l_next st, None) ->
  is_i64 (Receiver.l_next st) ->
  bn_Indexes bn = (idx :: more_idx) :: rest_idx ->
  bn_Events bn = [] :: rest_evs ->
  HexBytes_Value (bn_Hash bn) = (h, None) ->
  Client.getBlockHeaderByHeight (Receiver.l_clock st) (Receiver.l_next st) =
    Ok header ->
  Receiver.step callback r st (Receiver.Default (Receiver.Pop :: sch)) =
    Receiver.Panicked "panic in goroutine".
Proof.
  intros Hcap Hvr Hrech Hbrch Hbnch Hheight Hnext Hidx Hevs Hhash Hheader.
  cbn [Receiver.step]. rewrite Hrech, Hbrch, Hbnch.
  cbn [Receiver.build_batch]. rewrite Hheight, Z.add_0_r, (i64_small _ Hnext).
  destruct (decide (Receiver.l_next st <> Receiver.l_next st)); [done|].
  destruct (decide (length [] < Receiver.capacity r)%nat);
    [|cbn [length] in *; lia].
  cbn [app]. unfold Receiver.collect, Receiver.collect_init.
  cbn [fold_left length].
  assert (Hrun : forall lf,
    Receiver.run_task (Receiver.fetch None lf (Receiver.l_clock st))
      (Receiver.mkReq (Receiver.l_next st) (bn_Hash bn) (bn_Indexes bn)
         (bn_Events bn) Receiver.RPCCallRetry None None) = None).
  { intros lf. unfold Receiver.run_task, Receiver.fetch, Receiver.fetch_votes.
    cbn [Receiver.q_res Receiver.q_err Receiver.q_hash Receiver.q_height
         Receiver.q_indexes Receiver.q_events default].
    rewrite Hhash, Hheader, Hidx, Hevs.
    destruct (RLP_BlockHeaderResult (Result header)) as [hr o].
    unfold Receiver.index.
    unfold Receiver.tbind, Receiver.tret, Receiver.set_res, Receiver.set_err,
      Receiver.calling, Receiver.return_if_err.
    cbn. unfold Receiver.receipt_body, Receiver.index.
    cbn [Receiver.q_events]. rewrite ?Hevs.
    unfold Receiver.tbind, Receiver.tret, Receiver.panic. by cbn. }
  unfold Receiver.collect_step at 2.
  cbn [Receiver.c_panicked Receiver.c_qch Receiver.c_clock Receiver.q_err
       Receiver.q_res].
  rewrite Hvr, Hrun.
  rewrite collect_panicked by done. by cbn.
Qed.

(** ** The remote calls of a fetch goroutine *)

Section CallFacts.
Import Receiver.
Context `{Codec} `{Node} `{VerifierOps}.

Ltac unfold_task :=
  unfold index in *;
  unfold tbind, tret, set_res, set_err, calling, panic,
    return_if_err, wrap_q_err_and_return, fail in *.

Ltac close_calls :=
  split; [reflexivity|];
  split; [eauto 10|];
  split; [done || assumption | (cbn [length]; lia) || assumption].

(** A call of [GetProofForEvents] for the block of [q]. *)
Definition proof_call (q : req) (c : call) : Prop :=
  exists idx evs,
    c = CallGetProofForEvents (mkProofEventsParam idx (q_hash q) evs).

(** The calls made before the receipts are looked at. *)
Definition block_calls (vr : option Verifier) (q : req) (pre : list call)
  : Prop :=
  pre = [] \/ pre = [CallGetBlockHeaderByHeight (q_height q)] \/
  (vr <> None /\
   (pre = [CallGetBlockHeaderByHeight (q_height q);
           CallGetVotesByHeight (q_height q)] \/
    exists hash,
      pre = [CallGetBlockHeaderByHeight (q_height q);
             CallGetVotesByHeight (q_height q); CallGetDataByHash hash])).

Lemma receipt_body_calls w lf q hr i idx s :
  match receipt_body w lf q hr i idx s with
  | Next_ _ s' | Exit s' =>
      exists c, t_calls s' = t_calls s ++ [c] /\ proof_call q c
  | Panic _ => True
  end.
Proof.
  unfold receipt_body. unfold_task.
  repeat (case_match; simplify_eq/=); try done;
    try match goal with
    | Hl : for_acc (event_body ?lf ?p ?r) ?acc ?j ?l ?s = _ |- _ =>
        pose proof (event_loop_state lf p r l acc j s) as Hst;
        rewrite Hl in Hst
    end; simplify_eq/=;
    try (destruct Hst as (_ & -> & _));
    eexists; (split; [reflexivity|]); unfold proof_call; eauto.
Qed.

Lemma receipts_loop_calls w lf q hr l : forall i s,
  match for_range (receipt_body w lf q hr) i l s with
  | Next_ _ s' | Exit s' =>
      exists ps, t_calls s' = t_calls s ++ ps /\
                 Forall (proof_call q) ps /\ (length ps <= length l)%nat
  | Panic _ => True
  end.
Proof.
  induction l as [|idx l IH]; intros i s; cbn [for_range].
  - unfold tret. exists []. rewrite app_nil_r. by split.
  - unfold tbind at 1.
    pose proof (receipt_body_calls w lf q hr i idx s) as Hb.
    destruct (receipt_body w lf q hr i idx s) as [[] s1|s1|]; [| |done].
    + destruct Hb as (c & Hc & Hp). specialize (IH (S i) s1).
      destruct (for_range (receipt_body w lf q hr) (S i) l s1)
        as [[] s2|s2|]; [| |done];
        destruct IH as (ps & Hps & Hall & Hlen);
        exists (c :: ps); rewrite Hps, Hc, <- app_assoc;
        (split; [done | split; [by constructor | cbn [length]; lia]]).
    + destruct Hb as (c & Hc & Hp). exists [c].
      split; [done | split; [by constructor | cbn [length]; lia]].
Qed.

Lemma fetch_votes_calls w vr q header s :
  match fetch_votes w vr q header s with
  | Next_ _ s' | Exit s' =>
      t_calls s' = t_calls s /\ (vr = None \/ t_err s' <> None) \/
      vr <> None /\
      (t_calls s' = t_calls s ++ [CallGetVotesByHeight (q_height q)] \/
       exists hash,
         t_calls s' = t_calls s ++ [CallGetVotesByHeight (q_height q);
                                    CallGetDataByHash hash])
  | Panic _ => True
  end.
Proof.
  unfold fetch_votes. unfold_task.
  repeat (case_match; simplify_eq/=); try done;
    try (left; split; [done|]; by left);
    right; (split; [done|]); rewrite <- ?app_assoc; cbn [app]; eauto.
Qed.

Lemma fetch_calls vr lf w q s :
  t_calls s = [] ->
  match fetch vr lf w q s with
  | Next_ _ s' | Exit s' =>
      exists pre ps,
        t_calls s' = pre ++ ps /\ block_calls vr q pre /\
        Forall (proof_call q) ps /\
        (length ps <= length (default [] (q_indexes q !! 0%nat)))%nat
  | Panic _ => True
  end.
Proof.
  intros Hz. unfold fetch. unfold_task.
  repeat (case_match; simplify_eq/=); try done;
    repeat match goal with
    | Hv : fetch_votes ?w ?vr ?q ?h ?s = _ |- _ =>
        let Hs := fresh "Hvotes" in
        pose proof (fetch_votes_calls w vr q h s) as Hs;
        rewrite Hv in Hs; clear Hv; cbn in Hs
    | Hl : for_range (receipt_body ?w ?lf ?q ?hr) ?i ?l ?s = _ |- _ =>
        let Hs := fresh "Hloop" in
        pose proof (receipts_loop_calls w lf q hr l i s) as Hs;
        rewrite Hl in Hs; clear Hl; cbn in Hs;
        destruct Hs as (ps & Hps & Hall & Hlen)
    end;
    rewrite ?Hz in *; cbn [app] in *.
  all: try match goal with
       | Hi : q_indexes _ !! _ = _ |- _ => rewrite Hi; cbn [default]
       end.
  all: try match goal with
       | Hps : t_calls ?a = _ ++ ?ps |- context [t_calls ?a] => rewrite Hps
       end.
  all: unfold block_calls.
  all: try match goal with
       | Hv : _ /\ _ \/ _ |- _ =>
           destruct Hv as [[Hc _]|[Hvr [Hc|[hash Hc]]]]; rewrite Hc
       end.
  all: try (eexists [], []; close_calls; fail).
  all: try (eexists [_], []; close_calls; fail).
  all: try (eexists [_; _], []; close_calls; fail).
  all: try (eexists [_; _; _], []; close_calls; fail).
  all: try (eexists [_], _; close_calls; fail).
  all: try (eexists [_; _], _; close_calls; fail).
  all: try (eexists [_; _; _], _; close_calls; fail).
Qed.

End CallFacts.

(** X8.  The remote calls of a fetch goroutine of [receiveLoop], in
    the order it makes them: the block header; then, only when a
    verifier is configured, the votes and at most one
    [GetDataByHash] for the next validators; then [GetProofForEvents],
    at most once for each receipt index of the notification and always
    for the block hash of the notification.  Without a verifier the
    votes and the validators are never asked for. *)
Theorem fetch_call_budget
    `{Codec} `{Node} `{VerifierOps} (vr : option Verifier)
    (lf : Receiver.eventLogRawFilter) (w : nat) (q q' : Receiver.req)
    (calls : list Receiver.call) :
  Receiver.run_task (Receiver.fetch vr lf w) q = Some (q', calls) ->
  let h := Receiver.q_height q in
  exists pre ps,
    calls = pre ++ ps /\
    (pre = [] \/ pre = [Receiver.CallGetBlockHeaderByHeight h] \/
     (vr <> None /\
      (pre = [Receiver.CallGetBlockHeaderByHeight h;
              Receiver.CallGetVotesByHeight h] \/
       exists hash,
         pre = [Receiver.CallGetBlockHeaderByHeight h;
                Receiver.CallGetVotesByHeight h;
                Receiver.CallGetDataByHash hash]))) /\
    Forall (fun c => exists idx evs,
              c = Receiver.CallGetProofForEvents
                    (mkProofEventsParam idx (Receiver.q_hash q) evs)) ps /\
    (length ps <= length (default [] (Receiver.q_indexes q !! 0%nat)))%nat.
Proof.
  unfold Receiver.run_task. intros Hrun. cbv zeta.
  pose proof (fetch_calls vr lf w q
                (Receiver.mkT (default Receiver.zero_res (Receiver.q_res q))
                   (Receiver.q_err q) []) eq_refl) as Hs.
  destruct (Receiver.fetch vr lf w q _) as [[] s'|s'|];
    cbv beta iota in Hrun; [| |done];
    inversion Hrun; subst; exact Hs.
Qed.

(** ** A gap in the notifications *)

Section GapFacts.
Import Receiver.
Context `{Codec} `{Node} `{VerifierOps}.
Variable r : receiver.

(** The notifications [bns] are for the heights [h], [h + 1], ... *)
Fixpoint in_sequence_from (h : Z) (bns : list BlockNotification) : Prop :=
  match bns with
  | [] => True
  | bn :: bns' =>
      HexInt_Value (bn_Height bn) = (h, None) /\ in_sequence_from (h + 1) bns'
  end.

Lemma build_batch_gap next pre : forall bn i qch bad rest height,
  0 <= next -> 0 <= i ->
  next + i + Z.of_nat (length pre) + 1 < 2 ^ 63 ->
  in_sequence_from (next + i) (bn :: pre) ->
  HexInt_Value (bn_Height bad) = (height, None) ->
  height <> next + i + Z.of_nat (length pre) + 1 ->
  (length qch + length pre + 1 < capacity r)%nat ->
  build_batch r next i bn (pre ++ bad :: rest) qch = BatchReconnect.
Proof.
  induction pre as [|bn' pre IH];
    intros bn i qch bad rest height Hn Hi Hov [Hh Hseq] Hbad Hne Hcap;
    cbn [length] in *; cbn [build_batch app]; rewrite Hh;
    rewrite i64_small by (unfold is_i64; lia);
    (destruct (decide (next + i <> next + i)); [done|]);
    (destruct (decide (length qch < capacity r)%nat); [|lia]);
    rewrite length_app; cbn [length];
    (destruct (decide (length qch + 1 < capacity r)%nat); [|lia]);
    rewrite (i64_small (i + 1)) by (unfold is_i64; lia).
  - destruct rest; cbn [build_batch]; rewrite Hbad;
      rewrite i64_small by (unfold is_i64; lia);
      (destruct (decide (height <> next + (i + 1))); [done|lia]).
  - eapply IH; eauto; try lia.
    + by rewrite Z.add_assoc.
    + rewrite length_app. cbn [length]. lia.
Qed.

End GapFacts.

(** X9.  A gap in the block notifications drops the whole batch: when
    the notifications taken from [bnch] are for [next], [next + 1],
    ... and then one is for another height, with room left in [qch],
    the orchestrator calls [reconnect()] and starts the [select] again.
    Nothing is fetched, not even for the notifications that were in
    sequence; [next], the verifier and what was delivered are as they
    were; both channels are empty and the reconnect signal is set. *)
Theorem gap_in_notifications_reconnects
    `{Codec} `{Node} `{VerifierOps} {CB : Type}
    (callback : CB -> list chain.Receipt -> result CB)
    (r : Receiver.receiver) (st : Receiver.lstate)
    (good : list BlockNotification) (bad : BlockNotification)
    (rest : list BlockNotification) (height : Z)
    (sch : list Receiver.sched_step) :
  Receiver.l_rech st = false ->
  Receiver.l_brch st = [] ->
  Receiver.l_bnch st = good ++ bad :: rest ->
  0 <= Receiver.l_next st ->
  Receiver.l_next st + Z.of_nat (length good) < 2 ^ 63 ->
  in_sequence_from (Receiver.l_next st) good ->
  HexInt_Value (bn_Height bad) = (height, None) ->
  height <> Receiver.l_next st + Z.of_nat (length good) ->
  (length good < Receiver.capacity r)%nat ->
  Receiver.step callback r st (Receiver.Default sch) =
    Receiver.Running
      (Receiver.mkL (Receiver.l_next st) (Receiver.l_vr st) [] [] true
         (Receiver.l_cb st) (Receiver.l_clock st) (Receiver.l_calls st)
         (Receiver.l_monitors st) (Receiver.l_delivered st)).
Proof.
  intros Hrech Hbrch Hbnch Hn Hov Hseq Hbad Hne Hcap.
  cbn [Receiver.step]. rewrite Hrech, Hbrch, Hbnch.
  destruct good as [|bn pre]; cbn [app].
  - cbn [length] in *. destruct rest; cbn [Receiver.build_batch];
      rewrite Hbad, Z.add_0_r, i64_small by (unfold is_i64; lia);
      (destruct (decide (height <> Receiver.l_next st)); [done|lia]).
  - cbn [length] in *.
    rewrite (build_batch_gap r (Receiver.l_next st) pre bn 0 [] bad rest
               height); try done; try lia.
    + by rewrite Z.add_0_r.
    + cbn [length]. lia.
Qed.

(** ** The first block of the verifier *)

(** X10.  A verifier [newVerifer] returns starts at the configured
    height with the configured validators hash, and [Verify] has
    accepted, with these validators, the header and votes the node
    serves for that height.  When [Verify] does not accept, the error
    returned is [verification failed], whatever error [Verify] gave. *)
Theorem newVerifer_checks_its_first_block
    `{Codec} `{Node} `{VerifierOps} (w : nat) (opts : VerifierOptions) :
  (forall vr,
     Receiver.newVerifer w opts = Ok vr ->
     next vr = i64 (BlockHeight opts) /\
     nextValidatorsHash vr = ValidatorsHash opts /\
     exists header votes,
       Client.getBlockHeaderByHeight w (i64 (BlockHeight opts)) = Ok header /\
       icx_getVotesByHeight w (i64 (BlockHeight opts)) = Ok votes /\
       Verify vr (Some header) votes = (true, None)) /\
  (forall vs header votes err,
     Client.getValidatorsByHash w (ValidatorsHash opts) = Ok vs ->
     Client.getBlockHeaderByHeight w (i64 (BlockHeight opts)) = Ok header ->
     icx_getVotesByHeight w (i64 (BlockHeight opts)) = Ok votes ->
     Verify (mkVerifier (i64 (BlockHeight opts)) (ValidatorsHash opts)
               {[ HexHash_String (ValidatorsHash opts) := vs ]})
       (Some header) votes = (false, err) ->
     Receiver.newVerifer w opts = Err (ErrNew "verification failed")).
Proof.
  split.
  - intros vr Hnew. unfold Receiver.newVerifer in Hnew.
    destruct (Client.getValidatorsByHash w (ValidatorsHash opts)) as [vs|];
      cbn [rbind] in Hnew; [|done].
    cbn [next] in Hnew.
    destruct (Client.getBlockHeaderByHeight w _) as [header|] eqn:Hh;
      cbn [rbind] in Hnew; [|done].
    destruct (icx_getVotesByHeight w _) as [votes|] eqn:Hv;
      cbn [rbind] in Hnew; [|done].
    destruct (Verify _ (Some header) votes) as [[] [e|]] eqn:Hver; try done.
    inversion Hnew; subst. cbn [next nextValidatorsHash].
    split; [done|]. split; [done|]. by exists header, votes.
  - intros vs header votes err Hvs Hh Hv Hver. unfold Receiver.newVerifer.
    rewrite Hvs. cbn [rbind next]. rewrite Hh. cbn [rbind]. rewrite Hv.
    cbn [rbind]. by rewrite Hver.
Qed.

(** ** More on signing and sending *)

(** X11.  [SignTransaction] writes through its pointer as it goes:
    whatever happens the transaction is left with the new timestamp;
    once the serialization has succeeded it is left with the new hash,
    also when the wallet then fails to sign; and whenever an error is
    returned the signature is the one the transaction had before, which
    was made for another timestamp. *)
Theorem SignTransaction_writes_before_it_fails
    `{Codec} `{Wallet} (p : TransactionParam) (now : Z) :
  let stamped := mkTransactionParam (tx_Body p) (NewHexInt (Z.quot now 1000))
                   (Signature p) (TxHash p) in
  let p' := fst (Client.SignTransaction p now) in
  let err := snd (Client.SignTransaction p now) in
  Timestamp p' = NewHexInt (Z.quot now 1000) /\
  tx_Body p' = tx_Body p /\
  (err <> None -> Signature p' = Signature p) /\
  (forall js bs,
     json_Marshal stamped = Ok js ->
     SerializeJSON js None {[ "signature" := true ]} = Ok bs ->
     TxHash p' =
       NewHexBytes (SHA3Sum256 (bytes_of "icx_sendTransaction." ++ bs)) /\
     forall e,
       Sign (SHA3Sum256 (bytes_of "icx_sendTransaction." ++ bs)) = Err e ->
       err = Some e) /\
  (err <> None ->
   (forall js bs,
      json_Marshal stamped = Ok js ->
      SerializeJSON js None {[ "signature" := true ]} <> Ok bs) ->
   TxHash p' = TxHash p).
Proof.
  cbv zeta. unfold Client.SignTransaction, Client.txSerializeExcludes,
    Client.sendTransaction_prefix.
  destruct (json_Marshal _) as [js|e1] eqn:Hjs; cbn [fst snd];
    [destruct (SerializeJSON js None _) as [bs|e2] eqn:Hbs; cbn [fst snd];
     [destruct (Sign _) as [sig|e3] eqn:Hsig; cbn [fst snd]|]|];
    (split; [done|]); (split; [done|]); (split; [done|]);
    (split; [intros js' bs' [= <-] Hbs'; rewrite ?Hbs in Hbs'; try done;
             inversion Hbs'; subst bs'; clear Hbs'
            |intros Herr Hno; try done]).
  - split; [done|]. intros e He. by rewrite Hsig in He.
  - split; [done|]. intros e He. by rewrite Hsig in He; inversion He.
  - by destruct (Hno js bs).
Qed.

Section SendMore.
Context `{Codec} `{Node}.
Import Client.

Lemma txLoop_overflows p n : forall st fuel,
  (forall j, (j < n)%nat ->
     icx_sendTransaction (calls st + j) p = Err ErrSendFailByOverflow) ->
  txLoop (n + fuel) p st =
    txLoop fuel p
      (mkSstate (thp_Hash st) (calls st + n)
         (slept st ++ replicate n DefaultSendTransactionRetryInterval)).
Proof.
  induction n as [|n IH]; intros st fuel Hov.
  - cbn [Nat.add replicate]. rewrite Nat.add_0_r, app_nil_r.
    by destruct st.
  - replace (S n + fuel)%nat with (S (n + fuel)) by lia.
    rewrite overflow_is_resubmitted
      by (rewrite <- (Nat.add_0_r (calls st)); apply Hov; lia).
    rewrite IH; cbn [calls thp_Hash slept].
    + cbn [replicate]. rewrite <- app_assoc. cbn [app].
      do 2 f_equal. lia.
    + intros j Hj. replace (S (calls st) + j)%nat with (calls st + S j)%nat
        by lia. apply Hov. lia.
Qed.

Lemma txrLoop_pending k : forall st fuel,
  (forall j, (j < k)%nat -> exists code m,
     icx_getTransactionResult (calls st + j) (thp_Hash st) =
       Err (JsonrpcError code m) /\
     (code = JsonrpcErrorCodePending \/ code = JsonrpcErrorCodeExecuting)) ->
  txrLoop (k + fuel) st =
    txrLoop fuel
      (mkSstate (thp_Hash st) (calls st + k)
         (slept st ++ replicate k DefaultGetTransactionResultPollingInterval)).
Proof.
  induction k as [|k IH]; intros st fuel Hpend.
  - cbn [Nat.add replicate]. rewrite Nat.add_0_r, app_nil_r.
    by destruct st.
  - replace (S k + fuel)%nat with (S (k + fuel)) by lia.
    destruct (Hpend 0%nat) as (code & m & Hget & Hcode); [lia|].
    rewrite Nat.add_0_r in Hget.
    rewrite (polling_goes_on _ _ _ _ Hget Hcode).
    rewrite IH; cbn [calls thp_Hash slept].
    + cbn [replicate]. rewrite <- app_assoc. cbn [app].
      do 2 f_equal. lia.
    + intros j Hj. replace (S (calls st) + j)%nat with (calls st + S j)%nat
        by lia. apply Hpend. lia.
Qed.

End SendMore.

(** X12.  [SendTransactionAndGetResult] has no bound on its retries:
    as long as the node answers [ErrSendFailByOverflow] the helper
    sleeps three seconds and submits again, and after any number [n] of
    such answers it is where it started, [n] submissions and [n] sleeps
    later.  A caller gets nothing back while the overflow lasts. *)
Theorem overflow_is_retried_without_bound
    `{Codec} `{Node} (p : TransactionParam) (n fuel : nat) :
  (forall w, (w < n)%nat ->
     icx_sendTransaction w p = Err ErrSendFailByOverflow) ->
  Client.txLoop (n + fuel) p (Client.mkSstate "" 0 []) =
    Client.txLoop fuel p
      (Client.mkSstate "" n
         (replicate n Client.DefaultSendTransactionRetryInterval)) /\
  Client.SendTransactionAndGetResult n p = Client.Looping.
Proof.
  intros Hov.
  assert (Hloop : forall fuel,
    Client.txLoop (n + fuel) p (Client.mkSstate "" 0 []) =
    Client.txLoop fuel p
      (Client.mkSstate "" n
         (replicate n Client.DefaultSendTransactionRetryInterval))).
  { intros f. by rewrite txLoop_overflows by (cbn; auto). }
  split; [apply Hloop|].
  unfold Client.SendTransactionAndGetResult.
  specialize (Hloop 0%nat). rewrite Nat.add_0_r in Hloop. by rewrite Hloop.
Qed.

(** X13.  The whole exchange: after [n] overflow answers the node
    accepts the transaction with a hash; the helper then polls for the
    result, sleeping a second and a half before each poll, also before
    the first; after [k] answers [Pending] or [Executing] the node gives
    the result or another error, and the helper returns it with the
    hash.  It has made [n + 1] submissions and [k + 1] polls, and slept
    [n] retry intervals and [k + 1] polling intervals. *)
Theorem send_and_poll_until_the_result
    `{Codec} `{Node} (p : TransactionParam) (n k fuel : nat)
    (h : HexBytes) (answer : result TransactionResult) :
  (forall w, (w < n)%nat ->
     icx_sendTransaction w p = Err ErrSendFailByOverflow) ->
  icx_sendTransaction n p = Ok h ->
  (forall j, (j < k)%nat -> exists code m,
     icx_getTransactionResult (S n + j) h = Err (JsonrpcError code m) /\
     (code = JsonrpcErrorCodePending \/ code = JsonrpcErrorCodeExecuting)) ->
  icx_getTransactionResult (S n + k) h = answer ->
  (forall code m,
     answer = Err (JsonrpcError code m) ->
     code <> JsonrpcErrorCodePending /\ code <> JsonrpcErrorCodeExecuting) ->
  (n < fuel)%nat -> (k < fuel)%nat ->
  Client.SendTransactionAndGetResult fuel p =
    match answer with
    | Ok txr => Client.Returned h (Some txr) None
    | Err e => Client.Returned h None (Some e)
    end /\
  Client.txrLoop fuel (Client.mkSstate h (S n)
     (replicate n Client.DefaultSendTransactionRetryInterval)) =
    (match answer with
     | Ok txr => Client.Returned h (Some txr) None
     | Err e => Client.Returned h None (Some e)
     end,
     Client.mkSstate h (S n + S k)
       (replicate n Client.DefaultSendTransactionRetryInterval ++
        replicate (S k) Client.DefaultGetTransactionResultPollingInterval)).
Proof.
  intros Hov Hsend Hpend Hans Hfinal Hn Hk.
  assert (Hpoll :
    Client.txrLoop fuel (Client.mkSstate h (S n)
       (replicate n Client.DefaultSendTransactionRetryInterval)) =
    (match answer with
     | Ok txr => Client.Returned h (Some txr) None
     | Err e => Client.Returned h None (Some e)
     end,
     Client.mkSstate h (S n + S k)
       (replicate n Client.DefaultSendTransactionRetryInterval ++
        replicate (S k) Client.DefaultGetTransactionResultPollingInterval))).
  { replace fuel with (k + S (fuel - S k))%nat by lia.
    rewrite txrLoop_pending by (cbn; auto).
    cbn [Client.txrLoop Client.calls Client.thp_Hash Client.slept].
    unfold Client.GetTransactionResult. rewrite Hans.
    replace (S k) with (k + 1)%nat by lia.
    rewrite replicate_add, <- !app_assoc. cbn [replicate].
    replace (S (S n + k)) with (S n + (k + 1))%nat by lia.
    destruct answer as [txr|e]; [done|].
    assert (Client.is_pending_or_executing (Some e) = false) as ->; [|done].
    destruct e as [| | |code m]; try done. cbn.
    apply bool_decide_eq_false_2. destruct (Hfinal code m eq_refl). tauto. }
  split; [|exact Hpoll].
  unfold Client.SendTransactionAndGetResult.
  replace fuel with (n + S (fuel - S n))%nat at 1 by lia.
  rewrite txLoop_overflows by (cbn; auto).
  cbn [Client.txLoop Client.calls Client.thp_Hash Client.slept Nat.add app].
  unfold Client.SendTransaction. rewrite Hsend. by rewrite Hpoll.
Qed.

(** X14.  A JSON-RPC system error whose message has fewer than five
    bytes makes [SendTransactionAndGetResult] panic on [re.Message[1:5]];
    a system error whose sub-code is read and is not 2000, or cannot be
    read, is returned to the caller with an empty hash and no result,
    and the transaction result is never asked for. *)
Theorem system_errors_of_SendTransaction
    `{Codec} `{Node} (p : TransactionParam) (m : string) (fuel : nat) :
  icx_sendTransaction 0 p = Err (JsonrpcError JsonrpcErrorCodeSystem m) ->
  ((String.length m < 5)%nat ->
   Client.SendTransactionAndGetResult (S fuel) p =
     Client.Panicked "slice bounds out of range") /\
  ((5 <= String.length m)%nat ->
   ParseInt (substring 1 4 m) 0 32 <> Ok 2000 ->
   Client.SendTransactionAndGetResult (S fuel) p =
     Client.Returned "" None (Some (JsonrpcError JsonrpcErrorCodeSystem m))).
Proof.
  intros Hsend. unfold Client.SendTransactionAndGetResult. split.
  - intros Hlen.
    by rewrite (short_system_message_panics fuel p
                  (Client.mkSstate "" 0 []) m Hsend Hlen).
  - intros Hlen Hparse.
    cbn [Client.txLoop Client.calls Client.thp_Hash Client.slept].
    unfold Client.SendTransaction. rewrite Hsend.
    unfold Client.on_send_error, Client.slice_1_5. cbn [Client.thp_Hash].
    destruct (decide (JsonrpcErrorCodeSystem = JsonrpcErrorCodeSystem));
      [|done].
    destruct (decide (5 <= Z.of_nat (String.length m))); [|lia].
    destruct (ParseInt (substring 1 4 m) 0 32) as [subEc|e']; [|done].
    destruct (decide (subEc = 2000)) as [->|]; done.
Qed.

(** ** Waiting for a result with a bound *)

Section WaitFacts.
Context `{Codec} `{Node}.
Import Client.

Lemma waitLoop_bounded evs hash : forall st,
  w_txr st = None -> 0 <= retryCounter st <= retryLimit ->
  let o := fst (waitLoop evs hash st) in
  let st' := snd (waitLoop evs hash st) in
  Z.of_nat (w_calls st') - Z.of_nat (w_calls st) <=
    retryLimit - retryCounter st /\
  (retryLimit - retryCounter st < Z.of_nat (length evs) -> o <> Looping) /\
  (forall h txr err,
     o = Returned h txr err ->
     h = hash /\ is_pending_or_executing err = false /\
     (err <> None -> txr = None)).
Proof.
  unfold retryLimit.
  induction evs as [|ev evs IH]; intros st Htxr Hrc; cbv zeta;
    cbn [waitLoop length].
  - cbn. split; [lia|]. split; [lia|]. done.
  - destruct ev.
    + cbn. split; [lia|]. split; [done|].
      intros h txr err [= <- <- <-]. by rewrite Htxr.
    + unfold retryLimit. destruct (decide (retryCounter st >= 10)).
      * cbn. split; [lia|]. split; [done|].
        intros h txr err [= <- <- <-]. by rewrite Htxr.
      * unfold GetTransactionResult.
        destruct (icx_getTransactionResult (w_calls st) hash) as [tr|e].
        { cbn. split; [lia|]. split; [done|].
          by intros h txr err [= <- <- <-]. }
        destruct (is_pending_or_executing (Some e)) eqn:Hpend.
        { match goal with
          | |- context [waitLoop evs hash ?s] =>
              destruct (IH s) as (Hc & Hl & Hr); [done | cbn; lia |]
          end.
          cbn [retryCounter w_calls] in Hc, Hl.
          split; [lia|]. split; [|done]. intros Hlen. apply Hl. lia. }
        cbn. split; [lia|]. split; [done|].
        by intros h txr err [= <- <- <-].
Qed.

End WaitFacts.

(** X15.  [WaitForResults] polls a bounded number of times: it asks
    the node for the result at most ten times, and the eleventh time
    the [select] takes the ticker or the context it has returned,
    whatever the node answers.  What it returns is the hash it was
    given and either a result, or an error and no result; the error
    is never the [Pending] or [Executing] answer of the node. *)
Theorem WaitForResults_is_bounded
    `{Codec} `{Node} (w : nat) (evs : list Client.wait_event)
    (hash : HexBytes) :
  let o := fst (Client.WaitForResults w evs hash) in
  let calls := Client.w_calls (snd (Client.WaitForResults w evs hash)) in
  (calls <= w + 10)%nat /\
  ((11 <= length evs)%nat -> o <> Client.Looping) /\
  (forall h txr err,
     o = Client.Returned h txr err ->
     h = hash /\ Client.is_pending_or_executing err = false /\
     (err <> None -> txr = None)).
Proof.
  cbv zeta. unfold Client.WaitForResults.
  destruct (waitLoop_bounded evs hash (Client.mkWstate 0 None None w))
    as (Hc & Hl & Hr); [done | by cbn |].
  cbn [Client.retryCounter Client.w_calls] in Hc, Hl.
  unfold Client.retryLimit in *.
  split; [lia|]. split; [|done]. intros Hlen. apply Hl. lia.
Qed.

Section WaitExits.
Context `{Codec} `{Node}.
Import Client.

Lemma waitLoop_pending hash k : forall st evs,
  w_txr st = None -> retryCounter st + Z.of_nat k <= retryLimit ->
  (forall j, (j < k)%nat -> exists code m,
     icx_getTransactionResult (w_calls st + j) hash =
       Err (JsonrpcError code m) /\
     (code = JsonrpcErrorCodePending \/ code = JsonrpcErrorCodeExecuting)) ->
  exists st',
    waitLoop (replicate k WaitTick ++ evs) hash st = waitLoop evs hash st' /\
    w_txr st' = None /\ retryCounter st' = retryCounter st + Z.of_nat k /\
    w_calls st' = (w_calls st + k)%nat.
Proof.
  unfold retryLimit.
  induction k as [|k IH]; intros st evs Htxr Hrc Hpend.
  - exists st. cbn [replicate app]. repeat split; auto; lia.
  - cbn [replicate app waitLoop]. unfold retryLimit.
    destruct (decide (retryCounter st >= 10)); [lia|].
    destruct (Hpend 0%nat) as (code & m & Hget & Hcode); [lia|].
    rewrite Nat.add_0_r in Hget.
    unfold GetTransactionResult. rewrite Hget.
    unfold is_pending_or_executing.
    rewrite (bool_decide_eq_true_2 _ Hcode).
    match goal with
    | |- context [waitLoop _ hash ?s] =>
        destruct (IH s evs) as (st' & Hloop & Ht & Hr & Hc);
          [done | cbn; lia | |]
    end.
    + intros j Hj. cbn [w_calls].
      replace (S (w_calls st) + j)%nat with (w_calls st + S j)%nat by lia.
      apply Hpend. lia.
    + exists st'. cbn [retryCounter w_calls] in Hr, Hc.
      repeat split; auto; lia.
Qed.

End WaitExits.

(** X16.  The three ways out of [WaitForResults], after [k] answers
    [Pending] or [Executing] ([k] at most ten).  When the context is
    done: the error [Context Cancelled ReceiptWait Exiting ], no result,
    and no further call.  When [k] is ten and the ticker fires again:
    the error [Retry Limit Exceeded while waiting for results of
    transaction], no result, and no eleventh call.  When [k] is less
    than ten and the node then gives a result or another error: that
    answer, after [k + 1] calls. *)
Theorem WaitForResults_exits
    `{Codec} `{Node} (w k : nat) (hash : HexBytes)
    (rest : list Client.wait_event) :
  (k <= 10)%nat ->
  (forall j, (j < k)%nat -> exists code m,
     icx_getTransactionResult (w + j) hash = Err (JsonrpcError code m) /\
     (code = JsonrpcErrorCodePending \/ code = JsonrpcErrorCodeExecuting)) ->
  let ticks := replicate k Client.WaitTick in
  (let s := Client.WaitForResults w (ticks ++ Client.WaitCtxDone :: rest)
              hash in
   fst s = Client.Returned hash None
             (Some (ErrNew "Context Cancelled ReceiptWait Exiting ")) /\
   Client.w_calls (snd s) = (w + k)%nat) /\
  (k = 10%nat ->
   let s := Client.WaitForResults w (ticks ++ Client.WaitTick :: rest)
              hash in
   fst s = Client.Returned hash None
             (Some (ErrNew
                "Retry Limit Exceeded while waiting for results of transaction"))
   /\ Client.w_calls (snd s) = (w + 10)%nat) /\
  ((k < 10)%nat ->
   forall answer,
     icx_getTransactionResult (w + k) hash = answer ->
     (forall code m,
        answer = Err (JsonrpcError code m) ->
        code <> JsonrpcErrorCodePending /\
        code <> JsonrpcErrorCodeExecuting) ->
     let s := Client.WaitForResults w (ticks ++ Client.WaitTick :: rest)
                hash in
     fst s = match answer with
             | Ok txr => Client.Returned hash (Some txr) None
             | Err e => Client.Returned hash None (Some e)
             end /\
     Client.w_calls (snd s) = (w + k + 1)%nat).
Proof.
  intros Hk Hpend. cbv zeta. unfold Client.WaitForResults.
  assert (Hrun : forall evs, exists st',
    Client.waitLoop (replicate k Client.WaitTick ++ evs) hash
      (Client.mkWstate 0 None None w) = Client.waitLoop evs hash st' /\
    Client.w_txr st' = None /\
    Client.retryCounter st' = Z.of_nat k /\
    Client.w_calls st' = (w + k)%nat).
  { intros evs.
    destruct (waitLoop_pending hash k (Client.mkWstate 0 None None w) evs)
      as (st' & Hl & Ht & Hr & Hc);
      [done | unfold Client.retryLimit; cbn; lia | exact Hpend |].
    exists st'. cbn in Hr. by repeat split. }
  split; [|split].
  - destruct (Hrun (Client.WaitCtxDone :: rest)) as (st' & -> & Ht & Hr & Hc).
    cbn [Client.waitLoop fst snd]. by rewrite Ht.
  - intros ->.
    destruct (Hrun (Client.WaitTick :: rest)) as (st' & -> & Ht & Hr & Hc).
    cbn [Client.waitLoop]. unfold Client.retryLimit.
    destruct (decide (Client.retryCounter st' >= 10)); [|lia].
    cbn [fst snd]. by rewrite Ht.
  - intros Hlt answer Hans Hfinal.
    destruct (Hrun (Client.WaitTick :: rest)) as (st' & -> & Ht & Hr & Hc).
    cbn [Client.waitLoop]. unfold Client.retryLimit.
    destruct (decide (Client.retryCounter st' >= 10)); [lia|].
    unfold Client.GetTransactionResult. rewrite Hc, Hans.
    destruct answer as [txr|e]; [cbn; split; [done | lia]|].
    assert (Client.is_pending_or_executing (Some e) = false) as ->.
    { destruct e as [| | |code m]; try done. cbn.
      apply bool_decide_eq_false_2. destruct (Hfinal code m eq_refl). tauto. }
    cbn. split; [done | lia].
Qed.

(** ** The options of the [Icon-Options] header *)

Section OptionFacts.
Import IconOptions.

(** The byte [c] occurs in [s]. *)
Definition occurs (c : Ascii.ascii) (s : string) : Prop :=
  In c (list_ascii_of_string s).

Lemma Split_no_sep s sep : ~ occurs sep s -> Split s sep = [s].
Proof.
  unfold occurs. induction s as [|a s IH]; intros Hno; simpl; [done|].
  cbn in Hno. destruct (decide (a = sep)) as [->|]; [tauto|].
  rewrite IH by tauto. done.
Qed.

Lemma Split_app p sep s :
  ~ occurs sep p -> Split (p ++ String sep s) sep = p :: Split s sep.
Proof.
  unfold occurs. induction p as [|a p IH]; intros Hno; simpl.
  - destruct (decide (sep = sep)); [done | congruence].
  - cbn in Hno. destruct (decide (a = sep)) as [->|]; [tauto|].
    rewrite IH by tauto. done.
Qed.

Lemma Split_Join parts sep :
  parts <> [] -> Forall (fun p => ~ occurs sep p) parts ->
  Split (Join parts (String sep "")) sep = parts.
Proof.
  induction parts as [|p parts IH]; intros Hne Hall; [done|].
  apply Forall_cons in Hall as [Hp Hall].
  destruct parts as [|q parts].
  - by apply Split_no_sep.
  - change (Join (p :: q :: parts) (String sep ""))
      with (p +:+ String sep (Join (q :: parts) (String sep ""))).
    rewrite Split_app by done. by rewrite IH.
Qed.

Lemma Split_pieces s sep : Forall (fun p => ~ occurs sep p) (Split s sep).
Proof.
  unfold occurs. induction s as [|a s IH]; simpl.
  - apply Forall_singleton. simpl. tauto.
  - destruct (decide (a = sep)) as [->|Hne].
    + constructor; [simpl; tauto | done].
    + destruct (Split s sep) as [|piece rest].
      * apply Forall_singleton. simpl. tauto.
      * apply Forall_cons in IH as [Hp Hrest]. constructor; [|done].
        simpl. tauto.
Qed.

Lemma Index_app k c v :
  ~ occurs c k -> Index (k ++ String c v) c = Z.of_nat (String.length k).
Proof.
  unfold occurs. induction k as [|a k IH]; intros Hno;
    simpl.
  - destruct (decide (c = c)); [done | congruence].
  - cbn in Hno. destruct (decide (a = c)) as [->|]; [tauto|].
    rewrite IH by tauto. case_decide; lia.
Qed.

Lemma substring_prefix k rest : substring 0 (String.length k) (k ++ rest) = k.
Proof.
  induction k as [|a k IH]; simpl.
  - by destruct rest.
  - by rewrite IH.
Qed.

Lemma substring_all s : substring 0 (String.length s) s = s.
Proof. induction s as [|a s IH]; simpl; [done | by rewrite IH]. Qed.

Lemma substring_suffix k rest :
  substring (String.length k) (String.length rest) (k ++ rest) = rest.
Proof.
  induction k as [|a k IH]; simpl; [|done].
  apply substring_all.
Qed.

Lemma length_append (a b : string) :
  String.length (a ++ b) = (String.length a + String.length b)%nat.
Proof. induction a as [|c a IH]; simpl; [done | by rewrite IH]. Qed.

(** One entry written by [ToHeaderValue] is read back as it was. *)
Lemma parse_entry_entry m k v :
  k <> "" -> ~ occurs "="%char k ->
  parse_entry m (entry (k, v)) = <[k := v]> m.
Proof.
  intros Hk Hno. unfold parse_entry, entry. cbn [fst snd].
  change ("=" +:+ v) with (String "="%char v).
  destruct (decide (k +:+ String "="%char v <> "")) as [_|Hemp];
    [|destruct k; [done | exfalso; by apply Hemp]].
  rewrite Index_app by done.
  destruct (decide (Z.of_nat (String.length k) > 0)) as [_|Hz];
    [|destruct k; [done | cbn in Hz; lia]].
  rewrite Nat2Z.id, substring_prefix. f_equal.
  rewrite length_append. cbn [String.length].
  replace (String.length k + S (String.length v) - (String.length k + 1))%nat
    with (String.length v) by lia.
  replace (k +:+ String "="%char v) with ((k +:+ "=") +:+ v).
  - replace (String.length k + 1)%nat with (String.length (k +:+ "=")).
    + apply substring_suffix.
    + rewrite length_append. by simpl.
  - clear. induction k as [|a k IH]; [done|].
    change ((String a k +:+ "=") +:+ v) with (String a ((k +:+ "=") +:+ v)).
    change (String a k +:+ String "="%char v)
      with (String a (k +:+ String "="%char v)).
    by f_equal.
Qed.

Lemma fold_parse_entries order : forall m,
  Forall (fun kv => kv.1 <> "" /\ ~ occurs "="%char kv.1) order ->
  fold_left parse_entry (map entry order) m =
  foldr (fun kv m => <[kv.1 := kv.2]> m) m (rev order).
Proof.
  induction order as [|[k v] order IH]; intros m Hall; [done|].
  apply Forall_cons in Hall as [[Hk Hno] Hall].
  cbn [map fold_left rev]. rewrite parse_entry_entry by done.
  rewrite IH by done. by rewrite foldr_app.
Qed.

Lemma entry_not_empty kv : entry kv <> "".
Proof. unfold entry. destruct kv as [[|a k] v]; by cbn. Qed.

Lemma Join_not_empty parts sep :
  parts <> [] -> Forall (fun p => p <> "") parts -> Join parts sep <> "".
Proof.
  destruct parts as [|p parts]; [done|]. intros _ Hall.
  apply Forall_cons in Hall as [Hp _].
  destruct parts; cbn [Join]; [done|]. by destruct p.
Qed.

Lemma occurs_append c a b : occurs c (a ++ b) <-> occurs c a \/ occurs c b.
Proof.
  unfold occurs. induction a as [|x a IH]; [simpl; tauto|].
  change (String x a +:+ b) with (String x (a +:+ b)). simpl.
  rewrite IH. tauto.
Qed.

End OptionFacts.

(** X17.  What [ToHeaderValue] writes, [NewIconOptionsByHeader] reads
    back: for options with at least one entry, whose keys are not empty
    and hold neither [,] nor [=], and whose values hold no [,], the
    header value made in whatever order the map is visited is parsed
    into the same map.  Values may hold [=], and may be empty. *)
Theorem header_round_trip
    (m : gmap string string) (order : list (string * string))
    (h : IconOptions.http_Header) :
  IconOptions.visits (Some m) order ->
  m <> ∅ ->
  (forall k v, m !! k = Some v ->
     k <> "" /\ ~ occurs ","%char k /\ ~ occurs "="%char k /\
     ~ occurs ","%char v) ->
  IconOptions.Header_Get h IconOptions.HeaderKeyIconOptions =
    IconOptions.ToHeaderValue (Some m) order ->
  IconOptions.NewIconOptionsByHeader h = Some m.
Proof.
  unfold IconOptions.visits. intros Hperm Hne Hwf Hget.
  unfold IconOptions.NewIconOptionsByHeader. rewrite Hget.
  unfold IconOptions.ToHeaderValue.
  assert (Horder : Forall (fun kv => m !! kv.1 = Some kv.2) order).
  { apply Forall_forall. intros [k v] Hin. rewrite Hperm in Hin.
    by apply elem_of_map_to_list in Hin. }
  assert (Hnil : order <> []).
  { intros ->. apply Permutation_nil_l in Hperm. symmetry in Hperm.
    by apply map_to_list_empty_iff in Hperm. }
  destruct (decide (IconOptions.Join (map IconOptions.entry order) "," <> ""))
    as [_|Hemp].
  - f_equal.
    rewrite (Split_Join (map IconOptions.entry order) ","%char).
    + rewrite fold_parse_entries.
      * change (foldr _ ∅ (rev order)) with
          (list_to_map (M := gmap string string) (rev order)).
        assert (Hrev : rev order ≡ₚ order)
          by (symmetry; apply Permutation_rev).
        rewrite <- (list_to_map_to_list m). apply list_to_map_proper.
        { rewrite Hrev, Hperm. apply NoDup_fst_map_to_list. }
        by rewrite Hrev.
      * eapply Forall_impl; [exact Horder|]. intros [k v] Hkv.
        destruct (Hwf _ _ Hkv) as (? & ? & ? & ?). by split.
    + by destruct order.
    + apply Forall_fmap. eapply Forall_impl; [exact Horder|].
      intros [k v] Hkv. destruct (Hwf _ _ Hkv) as (? & ? & ? & ?).
      unfold IconOptions.entry, compose. cbn [fst snd] in *.
      rewrite !occurs_append.
      intros [?|[Hs|?]]; try done.
      unfold occurs in Hs. simpl in Hs. by destruct Hs.
  - exfalso. apply Hemp. apply Join_not_empty.
    + by destruct order.
    + apply Forall_fmap, Forall_forall. intros kv _. apply entry_not_empty.
Qed.

Section OptionLaws.
Import IconOptions.

Lemma Get_lookup m key : Get (Some m) key = default "" (m !! key).
Proof.
  unfold Get. cbv zeta. case_decide as Hlen; [|done].
  by destruct (default "" (m !! key)).
Qed.

Lemma Index_split s c :
  0 <= Index s c ->
  exists pre post,
    s = pre +:+ String c post /\ Index s c = Z.of_nat (String.length pre) /\
    ~ occurs c pre.
Proof.
  unfold occurs. induction s as [|a s IH]; simpl; [lia|].
  destruct (decide (a = c)) as [->|Hne].
  - intros _. exists "", s. repeat split; auto.
  - case_decide as Hneg; [lia|]. intros _.
    destruct IH as (pre & post & -> & Hi & Hno); [lia|].
    exists (String a pre), post. simpl. rewrite Hi.
    repeat split; [lia | tauto].
Qed.

(** What every entry of a parsed map satisfies. *)
Definition parsed_entry (k v : string) : Prop :=
  k <> "" /\ ~ occurs ","%char k /\ ~ occurs ","%char v /\
  (v <> "" -> ~ occurs "="%char k).

Lemma parse_entry_keeps m kv :
  ~ occurs ","%char kv ->
  (forall k v, m !! k = Some v -> parsed_entry k v) ->
  forall k v, parse_entry m kv !! k = Some v -> parsed_entry k v.
Proof.
  intros Hkv Hm k v. unfold parse_entry. cbv zeta.
  destruct (decide (kv <> "")) as [Hne|]; [|by apply Hm].
  destruct (decide (Index kv "="%char > 0)) as [Hpos|Hnpos].
  - destruct (Index_split kv "="%char) as (pre & post & -> & Hi & Hno); [lia|].
    rewrite Hi, Nat2Z.id, substring_prefix.
    rewrite length_append. simpl String.length.
    replace (String.length pre + S (String.length post) -
             (String.length pre + 1))%nat
      with (String.length post) by lia.
    replace (pre +:+ String "="%char post) with ((pre +:+ "=") +:+ post).
    + replace (String.length pre + 1)%nat
        with (String.length (pre +:+ "="))
        by (rewrite length_append; simpl; lia).
      rewrite substring_suffix.
      destruct (decide (k = pre)) as [->|Hk].
      * rewrite lookup_insert_eq. intros [= <-].
        assert (Hparts : ~ occurs ","%char pre /\ ~ occurs ","%char post).
        { split; intros Ho; apply Hkv;
            change (String "="%char post) with ("=" +:+ post);
            rewrite !occurs_append; tauto. }
        unfold parsed_entry. repeat split; try tauto.
        intros ->. rewrite Hi in Hpos. simpl in Hpos. lia.
      * rewrite lookup_insert_ne by done. apply Hm.
    + clear. induction pre as [|a pre IH]; [done|].
      change ((String a pre +:+ "=") +:+ post)
        with (String a ((pre +:+ "=") +:+ post)).
      change (String a pre +:+ String "="%char post)
        with (String a (pre +:+ String "="%char post)).
      by f_equal.
  - destruct (decide (k = kv)) as [->|Hk].
    + rewrite lookup_insert_eq. intros [= <-].
      unfold parsed_entry. repeat split; try done.
      unfold occurs. simpl. tauto.
    + rewrite lookup_insert_ne by done. apply Hm.
Qed.

Lemma fold_parse_keeps pieces : forall m,
  Forall (fun p => ~ occurs ","%char p) pieces ->
  (forall k v, m !! k = Some v -> parsed_entry k v) ->
  forall k v,
    fold_left parse_entry pieces m !! k = Some v -> parsed_entry k v.
Proof.
  induction pieces as [|kv pieces IH]; intros m Hall Hm; [done|].
  apply Forall_cons in Hall as [Hkv Hall]. cbn [fold_left].
  apply IH; [done|]. by apply parse_entry_keeps.
Qed.

End OptionLaws.

(** X18.  [IconOptions] as its methods see it.  On the nil map [Get]
    returns the empty string, [Del] does nothing and [Set] panics.  On
    a map, [Get] after [Set] of the same key returns the value set, and
    the other keys read as before; after [Del] the key reads as the
    empty string and the others as before.  [Get] returns the empty
    string both for a key that is not set and for one set to the empty
    string. *)
Theorem IconOptions_reads_what_was_written
    (m : gmap string string) (key value : string) :
  IconOptions.Set_ None key value = IconOptions.NilMapPanic /\
  IconOptions.Get None key = "" /\
  IconOptions.Del None key = None /\
  (exists m',
     IconOptions.Set_ (Some m) key value = IconOptions.Stored (Some m') /\
     IconOptions.Get (Some m') key = value /\
     forall k, k <> key ->
       IconOptions.Get (Some m') k = IconOptions.Get (Some m) k) /\
  IconOptions.Get (IconOptions.Del (Some m) key) key = "" /\
  (forall k, k <> key ->
     IconOptions.Get (IconOptions.Del (Some m) key) k =
       IconOptions.Get (Some m) k) /\
  (IconOptions.Get (Some m) key = "" <->
   m !! key = None \/ m !! key = Some "").
Proof.
  split; [done|]. split; [done|]. split; [done|].
  split; [|split; [|split]].
  - eexists. split; [reflexivity|]. split.
    + by rewrite Get_lookup, lookup_insert_eq.
    + intros k Hk. by rewrite !Get_lookup, lookup_insert_ne.
  - cbn [IconOptions.Del]. by rewrite Get_lookup, lookup_delete_eq.
  - intros k Hk. cbn [IconOptions.Del].
    by rewrite !Get_lookup, lookup_delete_ne.
  - rewrite Get_lookup. destruct (m !! key) as [v|]; simpl.
    + split; [intros ->; by right | by intros [|[= ->]]].
    + split; [by left | done].
Qed.

(** X19.  A boolean option is written as [true] or [false] and read
    back as it was written; reading one that is not set, or from the
    nil map, is an error, not [false].  The header a new client sends
    is [debug=true], and the options parsed from it read [debug] as
    [true]. *)
Theorem boolean_options_round_trip
    (m : gmap string string) (key : string) (b : bool) :
  (exists m',
     IconOptions.SetBool (Some m) key b = IconOptions.Stored (Some m') /\
     IconOptions.GetBool (Some m') key = (b, None)) /\
  (m !! key = None ->
   IconOptions.GetBool (Some m) key =
     (false, Some (IconOptions.mkNumError "ParseBool" ""
                     IconOptions.ErrSyntax))) /\
  IconOptions.GetBool None key =
    (false, Some (IconOptions.mkNumError "ParseBool" ""
                    IconOptions.ErrSyntax)) /\
  IconOptions.NewClient_header =
    (IconOptions.Stored (Some {[ "debug" := "true" ]}), "debug=true") /\
  (forall h,
     IconOptions.Header_Get h "Icon-Options" =
       snd IconOptions.NewClient_header ->
     IconOptions.GetBool (IconOptions.NewIconOptionsByHeader h) "debug" =
       (true, None)).
Proof.
  split; [|split; [|split; [|split]]].
  - eexists. split; [reflexivity|].
    unfold IconOptions.GetBool. rewrite Get_lookup, lookup_insert_eq.
    by destruct b.
  - intros Hnone. unfold IconOptions.GetBool. by rewrite Get_lookup, Hnone.
  - done.
  - unfold IconOptions.NewClient_header, IconOptions.SetBool,
      IconOptions.Set_, IconOptions.ToHeaderValue.
    rewrite insert_empty, map_to_list_singleton. reflexivity.
  - intros h Hget.
    unfold IconOptions.NewIconOptionsByHeader,
      IconOptions.HeaderKeyIconOptions.
    rewrite Hget.
    assert (Hv : snd IconOptions.NewClient_header = "debug=true").
    { unfold IconOptions.NewClient_header, IconOptions.SetBool,
        IconOptions.Set_, IconOptions.ToHeaderValue.
      rewrite insert_empty, map_to_list_singleton. reflexivity. }
    rewrite Hv. cbn [decide]. vm_compute. reflexivity.
Qed.

(** X20.  Whatever the header holds, the options parsed from it have
    no empty key, no key and no value with a [,] in it, and a key with
    an [=] in it only where the value is empty (an entry that starts
    with [=] is kept whole as a key).  The nil map is returned exactly
    when the header is absent or empty. *)
Theorem parsed_options_are_well_formed (h : IconOptions.http_Header) :
  (IconOptions.NewIconOptionsByHeader h = None <->
   IconOptions.Header_Get h IconOptions.HeaderKeyIconOptions = "") /\
  (forall m k v,
     IconOptions.NewIconOptionsByHeader h = Some m ->
     m !! k = Some v ->
     k <> "" /\ ~ occurs ","%char k /\ ~ occurs ","%char v /\
     (v <> "" -> ~ occurs "="%char k)).
Proof.
  unfold IconOptions.NewIconOptionsByHeader. cbv zeta. split.
  - case_decide as Hs.
    + split; [done | intros Heq; by destruct Hs].
    + split; [|done]. intros _.
      destruct (decide (IconOptions.Header_Get h
                          IconOptions.HeaderKeyIconOptions = ""));
        [done | by destruct Hs].
  - intros m k v Hnew Hkv. case_decide as Hs; [|done].
    inversion Hnew; subst; clear Hnew.
    eapply fold_parse_keeps; [apply Split_pieces | | exact Hkv].
    intros k' v' Hl. by rewrite lookup_empty in Hl.
Qed.

(** ** [NewReceiver] *)

(** X21.  [NewReceiver] refuses an empty list of URLs before it looks
    at anything else, and makes its client for the first URL.  The
    receiver it returns has a [SyncConcurrency] between 1 and 300
    whatever the options say, so that its channels have room for at
    least one element and the loop that fills [qch] never blocks; its
    filter holds the decoded contract address of the source, the
    signature [Message(str,int,bytes)] and the destination address, and
    its block request has the one event filter made of the same
    three. *)
Theorem NewReceiver_builds_a_bounded_receiver
    `{Config} (src dst : string) (urls : list string) (rawOpts : bytes) :
  (urls = [] ->
   Receiver.NewReceiver src dst urls rawOpts =
     Err (ErrNew "List of Urls is empty")) /\
  (forall b,
     Receiver.NewReceiver src dst urls rawOpts = Ok b ->
     let r := Receiver.b_receiver b in
     1 <= Receiver.opts_SyncConcurrency r <= 300 /\
     (1 <= Receiver.capacity r <= 300)%nat /\
     head urls = Some (Receiver.b_url b) /\
     Address_Value (BTPAddress_ContractAddress src) =
       Ok (Receiver.f_addr (Receiver.logFilter r)) /\
     Receiver.f_signature (Receiver.logFilter r) =
       bytes_of "Message(str,int,bytes)" /\
     Receiver.f_next (Receiver.logFilter r) =
       bytes_of (BTPAddress_String dst) /\
     Receiver.b_blockReq b =
       mkBlockRequest ""
         [mkEventFilter (BTPAddress_ContractAddress src)
            "Message(str,int,bytes)" [BTPAddress_String dst]] /\
     forall (C : Codec) next bn bnch,
       Receiver.build_batch r next 0 bn bnch [] <> Receiver.BatchBlocked).
Proof.
  split; [by intros ->|].
  intros b Hnew. cbv zeta. unfold Receiver.NewReceiver in Hnew.
  destruct urls as [|url urls]; [done|].
  destruct (json_Unmarshal_ReceiverOptions rawOpts) as [recvOpts [e|]];
    [done|].
  cbv zeta in Hnew. cbn [ef_Addr] in Hnew.
  destruct (Address_Value (BTPAddress_ContractAddress src)) as [efAddr|e]
    eqn:Haddr; [|done].
  inversion Hnew; subst; clear Hnew.
  cbn [Receiver.b_receiver Receiver.b_url Receiver.b_blockReq
       Receiver.opts_SyncConcurrency Receiver.logFilter Receiver.f_addr
       Receiver.f_signature Receiver.f_next head].
  pose proof (clamp_SyncConcurrency_range (SyncConcurrency recvOpts)) as Hc.
  unfold Receiver.MonitorBlockMaxConcurrency in Hc.
  assert (Hcap : (1 <= Receiver.capacity
                         (Receiver.mkReceiver
                            (Receiver.clamp_SyncConcurrency
                               (SyncConcurrency recvOpts))
                            (ro_Verifier recvOpts)
                            (Receiver.mkFilter efAddr
                               (bytes_of Receiver.EventSignature)
                               (bytes_of (BTPAddress_String dst)) 0))
                  <= 300)%nat).
  { unfold Receiver.capacity. cbn [Receiver.opts_SyncConcurrency]. lia. }
  repeat split; try done; try lia.
  intros C next bn bnch Hb.
  match type of Hb with
  | Receiver.build_batch ?r _ _ _ _ _ = _ =>
      pose proof (build_batch_fits r next bnch bn 0 []) as Hf
  end.
  rewrite Hb in Hf. apply Hf. cbn [length]. lia.
Qed.

(** ** The websocket monitor *)

Section MonitorFacts.
Import Ws.
Context {V S : Type}.

Lemma wsClose_conns c conn :
  conns (wsClose c conn) = delete (LocalAddr conn) (conns c).
Proof.
  unfold wsClose, did, _removeWsConn. cbv zeta.
  destruct (conns c !! LocalAddr conn) eqn:Hl; cbn [conns]; [done|].
  by rewrite delete_id.
Qed.

Lemma wsClose_wire c conn :
  wire (wsClose c conn) = wire c ++ [WriteCloseMessage conn; CloseConn conn].
Proof.
  unfold wsClose, did, _removeWsConn. cbv zeta.
  destruct (conns c !! LocalAddr conn); cbn [wire]; by rewrite <- app_assoc.
Qed.

Lemma wsClose_Endpoint c conn : Endpoint (wsClose c conn) = Endpoint c.
Proof.
  unfold wsClose, did, _removeWsConn. cbv zeta.
  by destruct (conns c !! LocalAddr conn).
Qed.

(** What the reading loop does to the client: it leaves the table as it
    is, but for the connection it reads from, and it only adds to the
    record of the wire; and it does not return [nil]. *)
Lemma wsReadJSONLoop_client (cb : wsReadCallback (V := V) (S := S)) conn evs :
  forall c s,
    let r := wsReadJSONLoop cb conn evs c s in
    Endpoint r.1.1 = Endpoint c /\
    (conns r.1.1 = conns c \/
     conns r.1.1 = delete (LocalAddr conn) (conns c)) /\
    (exists ops, wire r.1.1 = wire c ++ ops) /\
    r.2 <> Returned None.
Proof.
  induction evs as [|ev evs IH]; intros c s; cbv zeta;
    cbn [wsReadJSONLoop].
  - cbn. repeat split; auto. exists []. by rewrite app_nil_r.
  - destruct ev as [err| |f].
    + cbn. repeat split; auto. exists []. by rewrite app_nil_r.
    + destruct (IH (wsClose c conn) s) as (He & Hc & (ops & Hw) & Hr).
      rewrite wsClose_Endpoint in He. rewrite wsClose_conns in Hc.
      rewrite wsClose_wire in Hw.
      repeat split; auto.
      * right. destruct Hc as [Hc|Hc]; rewrite Hc; [done|].
        by rewrite delete_delete_eq.
      * eexists. rewrite Hw, <- app_assoc. reflexivity.
    + destruct (conns c !! LocalAddr conn).
      * destruct (wsRead f) as [v|err].
        { destruct (cb s conn (VResponse v)) as [s' [err|]].
          - cbn. repeat split; auto. by eexists.
          - destruct (IH (did c (NextReader conn)) s')
              as (He & Hc & (ops & Hw) & Hr).
            cbn [did Endpoint conns wire] in He, Hc, Hw.
            repeat split; auto.
            eexists. rewrite Hw, <- app_assoc. reflexivity. }
        cbn. repeat split; auto. by eexists.
      * cbn. repeat split; auto. exists []. by rewrite app_nil_r.
Qed.

(** The callback [cb] with a record, beside its state, of the values
    it was called with. *)
Definition logged (cb : wsReadCallback (V := V) (S := S))
  : wsReadCallback (V := V) (S := S * list (wsvalue V)) :=
  fun sl conn v =>
    let '(s', e) := cb sl.1 conn v in ((s', sl.2 ++ [v]), e).

(** The values the reading loop hands to the callback: the decoded
    frames in their order and then, when a read fails with anything but
    a normal closure, the error. *)
Lemma logged_eq (cb : wsReadCallback (V := V) (S := S)) s l conn v :
  logged cb (s, l) conn v = ((cb s conn v).1, l ++ [v], (cb s conn v).2).
Proof. unfold logged. cbn [fst snd]. by destruct (cb s conn v). Qed.

Lemma wsReadJSONLoop_calls (cb : wsReadCallback (V := V) (S := S)) conn evs :
  forall c s l,
    let r := wsReadJSONLoop (logged cb) conn evs c (s, l) in
    exists vs last,
      r.1.2.2 = l ++ (VResponse <$> vs) ++ last /\
      sublist ((fun v => Frame (Decoded v)) <$> vs) evs /\
      (last = [] \/
       exists e, last = [VError e] /\ r.2 = Returned (Some e) /\
                 reported e = true).
Proof.
  induction evs as [|ev evs IH]; intros c s l; cbv zeta;
    cbn [wsReadJSONLoop].
  - exists [], []. cbn. rewrite app_nil_r. auto using sublist_nil_l.
  - destruct ev as [err| |f].
    + exists [], []. cbn. rewrite app_nil_r. auto using sublist_nil_l.
    + destruct (IH (wsClose c conn) s l) as (vs & last & Hl & Hsub & Hlast).
      exists vs, last. split; [done|]. split; [by apply sublist_cons | done].
    + destruct (conns c !! LocalAddr conn).
      * destruct f as [e| |v|e]; cbn [wsRead].
        3: { rewrite logged_eq.
             destruct (cb s conn (VResponse v)) as [s' [err|]]; cbn [fst snd].
             - exists [v], []. cbn. split; [done|].
               split; [|by left]. apply sublist_skip, sublist_nil_l.
             - destruct (IH (did c (NextReader conn)) s' (l ++ [VResponse v]))
                 as (vs & last & Hl & Hsub & Hlast).
               exists (v :: vs), last. rewrite Hl, <- app_assoc.
               split; [done|]. split; [|exact Hlast].
               rewrite fmap_cons. by apply sublist_skip. }
        all: match goal with
             | |- context [reported ?err] =>
                 destruct (reported err) eqn:Hrep;
                 [rewrite logged_eq; cbn [fst snd];
                  exists [], [VError err]; cbn;
                  split; [done|]; split; [apply sublist_nil_l|];
                  right; eauto
                 |exists [], []; cbn; rewrite app_nil_r;
                  auto using sublist_nil_l]
             end.
      * exists [], []. cbn. rewrite app_nil_r. auto using sublist_nil_l.
Qed.

End MonitorFacts.

(** X22.  [Monitor] never returns [nil]: it ends with an error or a
    panic.  When the dial fails the error is [ErrConnectFail], whatever
    the dialer said, and the table of connections is untouched.  When
    the dial succeeds, the connection is in the table while [Monitor]
    runs, and by the time [Monitor] is over it has been taken out and
    closed, the close message and the close being the last things done
    on the wire; no other entry of the table is touched.  The URL
    dialed is the endpoint with its first [http] replaced by [ws],
    followed by the path. *)
Theorem Monitor_ends_with_an_error_and_closes
    {V S R : Type} (c : Ws.client) (reqUrl : string) (reqPtr : option R)
    (cb : Ws.wsReadCallback (V := V) (S := S)) (net : Ws.network) (s : S) :
  let r := Ws.Monitor c reqUrl reqPtr (Some cb) net s in
  let url := Ws.Replace1 (Ws.Endpoint c) "http" "ws" +:+ reqUrl in
  r.2 <> Ws.Returned None /\
  (forall e,
     Ws.dialed net = Ws.WErr e ->
     r.2 = Ws.Returned (Some Ws.ErrConnectFail) /\
     Ws.conns r.1.1 = Ws.conns c /\
     Ws.wire r.1.1 = Ws.wire c ++ [Ws.Dial url]) /\
  (forall conn,
     Ws.dialed net = Ws.WOk conn ->
     (r.2 = Ws.Reading ->
      Ws.conns r.1.1 = <[Ws.LocalAddr conn := conn]> (Ws.conns c) \/
      Ws.conns r.1.1 = delete (Ws.LocalAddr conn) (Ws.conns c)) /\
     (r.2 <> Ws.Reading ->
      Ws.conns r.1.1 = delete (Ws.LocalAddr conn) (Ws.conns c) /\
      exists ops,
        Ws.wire r.1.1 =
          Ws.wire c ++ Ws.Dial url :: ops ++
          [Ws.WriteCloseMessage conn; Ws.CloseConn conn])).
Proof.
  cbv zeta. unfold Ws.Monitor, Ws.wsConnect. cbv zeta.
  destruct (Ws.dialed net) as [conn|e] eqn:Hdial.
  2: { cbn. split; [done|]. split; [|done]. by intros e' [= <-]. }
  set (c1 := Ws._addWsConn (Ws.did c (Ws.Dial _)) conn).
  assert (Hc1 : Ws.conns c1 = <[Ws.LocalAddr conn := conn]> (Ws.conns c))
    by done.
  assert (Hw1 : Ws.wire c1 = Ws.wire c ++
                  [Ws.Dial (Ws.Replace1 (Ws.Endpoint c) "http" "ws"
                            +:+ reqUrl)]) by done.
  assert (Hinner : exists c2 s2 res,
    match Ws.wsRequest c1 conn reqPtr (Ws.written net) (Ws.response net) with
    | (c, Ws.RequestPanic msg) => (c, s, Ws.Panicked msg)
    | (c, Ws.RequestErr err) => (c, s, Ws.Returned (Some err))
    | (c, Ws.RequestOk) =>
        match cb s conn (Ws.VEvent Ws.WSEventInit) with
        | (s, Some err) => (c, s, Ws.Returned (Some err))
        | (s, None) => Ws.wsReadJSONLoop cb conn (Ws.events net) c s
        end
    end = (c2, s2, res) /\
    res <> Ws.Returned None /\
    (Ws.conns c2 = Ws.conns c1 \/
     Ws.conns c2 = delete (Ws.LocalAddr conn) (Ws.conns c1)) /\
    exists ops, Ws.wire c2 = Ws.wire c1 ++ ops).
  { unfold Ws.wsRequest.
    destruct reqPtr as [req|].
    2: { eexists _, _, _. split; [reflexivity|]. split; [done|].
         split; [by left|]. exists []. by rewrite app_nil_r. }
    destruct (Ws.written net) as [we|].
    { eexists _, _, _. split; [reflexivity|]. split; [done|].
      split; [by left|]. by eexists. }
    destruct (Ws.response net) as [resp|re].
    2: { eexists _, _, _. split; [reflexivity|]. split; [done|].
         split; [by left|]. cbn. eexists. by rewrite <- app_assoc. }
    destruct (decide (Ws.ws_Code resp <> 0)).
    { eexists _, _, _. split; [reflexivity|]. split; [done|].
      split; [by left|]. cbn. eexists. by rewrite <- app_assoc. }
    destruct (cb s conn (Ws.VEvent Ws.WSEventInit)) as [s1 [err|]].
    { eexists _, _, _. split; [reflexivity|]. split; [done|].
      split; [by left|]. cbn. eexists. by rewrite <- app_assoc. }
    match goal with
    | |- context [Ws.wsReadJSONLoop cb conn ?evs ?c0 ?s0] =>
        pose proof (wsReadJSONLoop_client cb conn evs c0 s0) as Hloop;
        destruct (Ws.wsReadJSONLoop cb conn evs c0 s0) as [[c2 s2] res]
    end.
    cbv zeta in Hloop. cbn [fst snd Ws.did Ws.conns Ws.wire Ws.Endpoint]
      in Hloop.
    destruct Hloop as (_ & Hc & (ops & Hw) & Hr).
    eexists _, _, _. split; [reflexivity|]. split; [done|].
    split; [done|]. eexists. rewrite Hw, <- !app_assoc. reflexivity. }
  destruct Hinner as (c2 & s2 & res & -> & Hres & Hc2 & ops & Hw2).
  rewrite Hc1 in Hc2. rewrite delete_insert_eq in Hc2. rewrite Hw1 in Hw2.
  assert (Hclosed : Ws.conns (Ws.wsClose c2 conn) =
                    delete (Ws.LocalAddr conn) (Ws.conns c)).
  { rewrite wsClose_conns.
    destruct Hc2 as [->| ->];
      [by rewrite delete_insert_eq | by rewrite delete_delete_eq]. }
  assert (Hwire : Ws.wire (Ws.wsClose c2 conn) =
                  Ws.wire c ++
                  Ws.Dial (Ws.Replace1 (Ws.Endpoint c) "http" "ws"
                           +:+ reqUrl) :: ops ++
                  [Ws.WriteCloseMessage conn; Ws.CloseConn conn]).
  { rewrite wsClose_wire, Hw2, <- !app_assoc. reflexivity. }
  destruct res as [err|msg|]; cbn [fst snd].
  - split; [done|]. split; [done|]. intros conn' [= <-].
    split; [done|]. intros _. split; [done|]. by exists ops.
  - split; [done|]. split; [done|]. intros conn' [= <-].
    split; [done|]. intros _. split; [done|]. by exists ops.
  - split; [done|]. split; [done|]. intros conn' [= <-].
    split; [by intros _ | done].
Qed.

(** X23.  What [Monitor] hands to its callback, in order: first
    [WSEventInit], and only once the request was written and answered
    with code 0; then the decoded messages, in the order in which they
    were read; and last, when a read fails with anything but a normal
    closure, the error of the read, which is also what [Monitor]
    returns.  Nothing of another type is ever handed to the
    callback. *)
Theorem Monitor_calls_its_callback_in_order
    {V S R : Type} (c : Ws.client) (reqUrl : string) (reqPtr : option R)
    (cb : Ws.wsReadCallback (V := V) (S := S)) (net : Ws.network) (s : S) :
  let r := Ws.Monitor c reqUrl reqPtr (Some (logged cb)) net (s, []) in
  let seen := r.1.2.2 in
  seen = [] \/
  exists vs last,
    seen = Ws.VEvent Ws.WSEventInit :: (Ws.VResponse <$> vs) ++ last /\
    sublist ((fun v => Ws.Frame (Ws.Decoded v)) <$> vs) (Ws.events net) /\
    (exists conn, Ws.dialed net = Ws.WOk conn) /\
    reqPtr <> None /\ Ws.written net = None /\
    (exists resp, Ws.response net = Ws.WOk resp /\ Ws.ws_Code resp = 0) /\
    (last = [] \/
     exists e, last = [Ws.VError e] /\ r.2 = Ws.Returned (Some e) /\
               Ws.reported e = true).
Proof.
  cbv zeta. unfold Ws.Monitor, Ws.wsConnect, Ws.wsRequest. cbv zeta.
  destruct (Ws.dialed net) as [conn|e]; [|by left].
  destruct reqPtr as [req|]; [|by left].
  destruct (Ws.written net) as [we|]; [by left|].
  destruct (Ws.response net) as [resp|re]; [|by left].
  destruct (decide (Ws.ws_Code resp <> 0)) as [|Hcode]; [by left|].
  apply dec_stable in Hcode.
  rewrite logged_eq.
  destruct (cb s conn (Ws.VEvent Ws.WSEventInit)) as [s1 [err|]];
    cbn [fst snd app].
  - right. exists [], []. cbn. repeat split; eauto using sublist_nil_l.
  - match goal with
    | |- context [Ws.wsReadJSONLoop (logged cb) conn ?evs ?c0 (?s0, ?l0)] =>
        destruct (wsReadJSONLoop_calls cb conn evs c0 s0 l0)
          as (vs & last & Hl & Hsub & Hlast);
        destruct (Ws.wsReadJSONLoop (logged cb) conn evs c0 (s0, l0))
          as [[c2 [s2 l2]] res]
    end.
    cbn [fst snd] in Hl, Hlast. right. exists vs, last.
    destruct res as [err|msg|]; cbn [fst snd] in *;
      (split; [by rewrite Hl|]); repeat split; eauto.
Qed.

(** X24.  [MonitorBlock] with a nil second callback gives up as soon
    as the request is accepted: it returns the error [Second Callback
    function (scb) is nil ], without reading a message and without
    calling the other callbacks, and the connection it has just opened
    is closed again.  With a second callback, [cb] gets every decoded
    notification and its first error ends the monitor. *)
Theorem MonitorBlock_needs_its_second_callback
    {V S R : Type} (c : Ws.client) (p : R)
    (cb : S -> Ws.Conn -> V -> S * option Ws.wserror)
    (errCb : S -> Ws.Conn -> Ws.wserror -> S)
    (conn : Ws.Conn) (resp : Ws.WSResponse)
    (evs : list (Ws.wsevent (V := V))) (s : S) :
  Ws.ws_Code resp = 0 ->
  let net := Ws.mkNetwork (Ws.WOk conn) None (Ws.WOk resp) evs in
  let url := Ws.Replace1 (Ws.Endpoint c) "http" "ws" +:+ "/block" in
  Ws.MonitorBlock c p cb None errCb net s =
    (Ws.mkClient (Ws.Endpoint c)
       (delete (Ws.LocalAddr conn) (Ws.conns c))
       (Ws.wire c ++
        [Ws.Dial url; Ws.WriteJSON conn; Ws.ReadJSON conn;
         Ws.WriteCloseMessage conn; Ws.CloseConn conn]),
     s,
     Ws.Returned
       (Some (Ws.Plain (ErrNew "Second Callback function (scb) is nil ")))) /\
  (forall scb v e rest,
     evs = Ws.Frame (Ws.Decoded v) :: rest ->
     (cb (scb s conn) conn v).2 = Some e ->
     let r := Ws.MonitorBlock c p cb (Some scb) errCb net s in
     r.2 = Ws.Returned (Some e) /\ r.1.2 = (cb (scb s conn) conn v).1).
Proof.
  intros Hcode. cbv zeta. split.
  - unfold Ws.MonitorBlock, Ws.Monitor, Ws.wsConnect, Ws.wsRequest.
    cbv zeta. cbn [Ws.dialed Ws.written Ws.response Ws.events].
    destruct (decide (Ws.ws_Code resp <> 0)); [done|].
    cbn [Ws.block_callback].
    unfold Ws.wsClose, Ws._removeWsConn, Ws.did, Ws._addWsConn. cbv zeta.
    cbn [Ws.conns Ws.wire Ws.Endpoint].
    rewrite lookup_insert_eq, delete_insert_eq.
    cbn [Ws.conns Ws.wire Ws.Endpoint]. rewrite <- !app_assoc. reflexivity.
  - intros scb v e rest -> Hcb.
    unfold Ws.MonitorBlock, Ws.Monitor, Ws.wsConnect, Ws.wsRequest.
    cbv zeta. cbn [Ws.dialed Ws.written Ws.response Ws.events].
    destruct (decide (Ws.ws_Code resp <> 0)); [done|].
    cbn. rewrite lookup_insert_eq. cbn.
    destruct (cb (scb s conn) conn v) as [s' [e'|]]; cbn [fst snd] in *;
      [|done].
    by inversion Hcb; subst.
Qed.

Section EventFacts.
Import Ws.
Context {V S : Type}.

Lemma event_loop_goes_on
    (cb : S -> Conn -> V -> S * option wserror)
    (errCb : S -> Conn -> wserror -> S) conn vs : forall c s,
  is_Some (conns c !! LocalAddr conn) ->
  wsReadJSONLoop (event_callback cb errCb) conn
    ((fun v => Frame (Decoded v)) <$> vs) c s =
  (mkClient (Endpoint c) (conns c)
     (wire c ++ replicate (length vs) (NextReader conn)),
   foldl (fun s v => (cb s conn v).1) s vs, Reading).
Proof.
  induction vs as [|v vs IH]; intros c s [x Hx].
  - cbn. rewrite app_nil_r. by destruct c.
  - cbn [fmap list_fmap wsReadJSONLoop]. rewrite Hx.
    cbn [wsRead event_callback]. rewrite IH by (cbn; eauto).
    cbn. by rewrite <- app_assoc.
Qed.

(** The table is keyed by the local address of its connections. *)
Definition keyed (c : client) : Prop :=
  forall k conn, conns c !! k = Some conn -> LocalAddr conn = k.

Lemma CloseAllMonitor_spec order : forall c,
  NoDup order.*1 ->
  (forall k conn, (k, conn) ∈ order ->
     conns c !! k = Some conn /\ LocalAddr conn = k) ->
  let c' := CloseAllMonitor order c in
  (forall k, conns c' !! k =
             if decide (k ∈ order.*1) then None else conns c !! k) /\
  wire c' =
    wire c ++
    flat_map (fun kc => [WriteCloseMessage kc.2; CloseConn kc.2]) order /\
  Endpoint c' = Endpoint c.
Proof.
  induction order as [|[k conn] order IH]; intros c Hnd Hin; cbv zeta.
  - cbn. rewrite app_nil_r. repeat split; auto.
  - cbn [CloseAllMonitor]. rewrite fmap_cons in Hnd. cbn [fst] in Hnd.
    apply NoDup_cons in Hnd as [Hk Hnd].
    destruct (Hin k conn) as [Hl Hla]; [by left|]. rewrite Hl.
    destruct (IH (wsClose c conn)) as (Hc & Hw & He); [done| |].
    { intros k' conn' Hin'. destruct (Hin k' conn') as [Hl' Hla'];
        [by right|].
      split; [|done]. rewrite wsClose_conns, Hla.
      rewrite lookup_delete_ne; [done|].
      intros ->. apply Hk. change k' with (k', conn').1.
      by apply list_elem_of_fmap_2. }
    split; [|split].
    + intros k'. rewrite Hc, wsClose_conns, Hla, fmap_cons. cbn [fst].
      destruct (decide (k' = k)) as [->|Hne].
      * rewrite lookup_delete_eq.
        destruct (decide (k ∈ order.*1)); [done|].
        destruct (decide (k ∈ k :: order.*1)) as [|Hno]; [done|].
        destruct Hno. by left.
      * rewrite lookup_delete_ne by done.
        destruct (decide (k' ∈ order.*1)) as [Hi|Hi];
          destruct (decide (k' ∈ k :: order.*1)) as [Hj|Hj]; try done.
        -- destruct Hj. by right.
        -- apply elem_of_cons in Hj as [?|?]; done.
    + rewrite Hw, wsClose_wire, <- app_assoc. reflexivity.
    + by rewrite He, wsClose_Endpoint.
Qed.

End EventFacts.

(** X25.  [MonitorEvent] does not stop for its callback: whatever
    errors [cb] returns, every decoded message is handed to it and the
    monitor reads on.  The closure [MonitorEvent] gives to [Monitor] has
    no case for the [WSEventInit] that [Monitor] sends first, so each
    call of [MonitorEvent] starts by reporting [not supported type
    icon.WSEvent] to [errCb]. *)
Theorem MonitorEvent_reads_on
    {V S R : Type} (c : Ws.client) (p : R)
    (cb : S -> Ws.Conn -> V -> S * option Ws.wserror)
    (errCb : S -> Ws.Conn -> Ws.wserror -> S)
    (conn : Ws.Conn) (resp : Ws.WSResponse) (vs : list V) (s : S) :
  Ws.ws_Code resp = 0 ->
  let net := Ws.mkNetwork (Ws.WOk conn) None (Ws.WOk resp)
               ((fun v => Ws.Frame (Ws.Decoded v)) <$> vs) in
  let url := Ws.Replace1 (Ws.Endpoint c) "http" "ws" +:+ "/event" in
  Ws.MonitorEvent c p cb errCb net s =
    (Ws.mkClient (Ws.Endpoint c)
       (<[Ws.LocalAddr conn := conn]> (Ws.conns c))
       (Ws.wire c ++
        [Ws.Dial url; Ws.WriteJSON conn; Ws.ReadJSON conn] ++
        replicate (length vs) (Ws.NextReader conn)),
     foldl (fun s v => (cb s conn v).1)
       (errCb s conn (Ws.Plain (ErrNew "not supported type icon.WSEvent")))
       vs,
     Ws.Reading).
Proof.
  intros Hcode. cbv zeta.
  unfold Ws.MonitorEvent, Ws.Monitor, Ws.wsConnect, Ws.wsRequest.
  cbv zeta. cbn [Ws.dialed Ws.written Ws.response Ws.events].
  destruct (decide (Ws.ws_Code resp <> 0)); [done|].
  cbn [Ws.event_callback].
  rewrite event_loop_goes_on.
  - cbn. by rewrite <- !app_assoc.
  - cbn. rewrite lookup_insert_eq. by eexists.
Qed.

(** X26.  The table of connections is keyed by local address: adding
    and closing a connection keep it so.  On such a table
    [CloseAllMonitor] closes every connection once, in the order in
    which the map is visited, and leaves the table empty. *)
Theorem CloseAllMonitor_closes_every_connection
    (c : Ws.client) (order : list (string * Ws.Conn)) :
  (forall conn, keyed c -> keyed (Ws._addWsConn c conn)) /\
  (forall conn, keyed c -> keyed (Ws.CloseMonitor c conn)) /\
  (keyed c -> order ≡ₚ map_to_list (Ws.conns c) ->
   Ws.conns (Ws.CloseAllMonitor order c) = ∅ /\
   Ws.wire (Ws.CloseAllMonitor order c) =
     Ws.wire c ++
     flat_map (fun kc => [Ws.WriteCloseMessage kc.2; Ws.CloseConn kc.2])
       order).
Proof.
  split; [|split].
  - intros conn Hk k conn'. unfold Ws._addWsConn. cbn [Ws.conns].
    destruct (decide (k = Ws.LocalAddr conn)) as [->|Hne].
    + rewrite lookup_insert_eq. by intros [= <-].
    + rewrite lookup_insert_ne by done. apply Hk.
  - intros conn Hk k conn'. unfold Ws.CloseMonitor.
    rewrite wsClose_conns. intros Hl.
    apply lookup_delete_Some in Hl as [_ Hl]. by apply Hk.
  - intros Hk Hperm.
    destruct (CloseAllMonitor_spec order c) as (Hc & Hw & _).
    + rewrite Hperm. apply NoDup_fst_map_to_list.
    + intros k conn Hin. rewrite Hperm in Hin.
      apply elem_of_map_to_list in Hin. split; [done|]. by eapply Hk.
    + split; [|done]. apply map_eq. intros k. rewrite Hc, lookup_empty.
      destruct (decide (k ∈ order.*1)) as [|Hno]; [done|].
      destruct (Ws.conns c !! k) as [conn|] eqn:Hl; [|done].
      destruct Hno. apply elem_of_map_to_list in Hl. rewrite <- Hperm in Hl.
      change k with (k, conn).1. by apply list_elem_of_fmap_2.
Qed.

(** ** The address dialed *)

Lemma Replace1_http rest :
  Ws.Replace1 ("http" +:+ rest) "http" "ws" = "ws" +:+ rest.
Proof.
  change ("http" +:+ rest)
    with (String "h" (String "t" (String "t" (String "p" rest)))).
  cbn [Ws.Replace1].
  assert (String.prefix "http"
            (String "h" (String "t" (String "t" (String "p" rest)))) = true)
    as ->.
  { simpl. by destruct rest. }
  simpl String.length.
  replace (S (S (S (S (String.length rest)))) - 4)%nat
    with (String.length rest) by lia.
  simpl substring. by rewrite substring_all.
Qed.

(** X27.  [wsConnect] dials the endpoint of the client with the
    scheme of a websocket: an endpoint that starts with [http] is dialed
    with [ws] in its place, so [https] becomes [wss], and the path is
    appended.  When the dial succeeds the connection is entered in the
    table under its local address; when it fails the table is as it
    was and the error of the dialer is returned wrapped. *)
Theorem wsConnect_dials_the_websocket_scheme
    (rest reqUrl : string) (table : gmap string Ws.Conn)
    (wire : list Ws.op) (dialed : Ws.wres Ws.Conn) :
  let c := Ws.mkClient ("http" +:+ rest) table wire in
  let r := Ws.wsConnect c reqUrl dialed in
  Ws.wire r.1 = wire ++ [Ws.Dial (("ws" +:+ rest) +:+ reqUrl)] /\
  (forall conn,
     dialed = Ws.WOk conn ->
     r.2 = Ws.WOk conn /\
     Ws.conns r.1 = <[Ws.LocalAddr conn := conn]> table /\
     Ws.conns r.1 !! Ws.LocalAddr conn = Some conn) /\
  (forall e,
     dialed = Ws.WErr e ->
     r.2 = Ws.WErr (Ws.wsConnectError e) /\ Ws.conns r.1 = table).
Proof.
  cbv zeta. unfold Ws.wsConnect. cbv zeta. cbn [Ws.Endpoint].
  rewrite Replace1_http.
  destruct dialed as [conn|e]; cbn [fst snd].
  - split; [done|]. split; [|done]. intros conn' [= <-].
    cbn. by rewrite lookup_insert_eq.
  - split; [done|]. split; [done|]. by intros e' [= <-].
Qed.

(** ** A block that is fetched is delivered *)

Lemma collect_one `{Codec} `{Node} `{VerifierOps}
    (task : nat -> Receiver.req -> Receiver.T unit) (q q' : Receiver.req)
    (clock : nat) (calls : list Receiver.call) (x : Receiver.res) :
  Receiver.q_err q = None ->
  Receiver.q_res q = None ->
  Receiver.run_task (task clock) q = Some (q', calls) ->
  Receiver.q_err q' = None ->
  Receiver.q_res q' = Some x ->
  Receiver.collect task [Receiver.Pop; Receiver.Finish 0; Receiver.Pop]
    [q] clock =
  Receiver.mkC [] [] [Some x] 1 true (S clock) calls 1 false.
Proof.
  intros He Hr Hrun He' Hr'.
  unfold Receiver.collect, Receiver.collect_init. cbn [fold_left length].
  assert (Receiver.collect_step task
            (Receiver.mkC [q] [] [] 1 false clock [] 0 false) Receiver.Pop =
          Receiver.mkC [] [q'] [] 1 false (S clock) calls 0 false) as ->.
  { unfold Receiver.collect_step. cbn. by rewrite He, Hr, Hrun. }
  assert (Receiver.collect_step task
            (Receiver.mkC [] [q'] [] 1 false (S clock) calls 0 false)
            (Receiver.Finish 0) =
          Receiver.mkC [q'] [] [] 1 false (S clock) calls 1 false) as ->.
  { reflexivity. }
  unfold Receiver.collect_step. cbn. rewrite He', Hr'.
  unfold Receiver.append_result. cbn. by case_decide.
Qed.

(** X28.  Progress for one block.  The monitor sends the notification
    for [next]; the default arm takes it, starts the fetch goroutine
    and collects its result; the result goes through [brch] to the
    drain loop, which verifies it, hands its receipts to the callback
    and advances [next] by one.  When the fetch, the verification and
    the callback succeed, the three passes leave the loop running with
    the block delivered and both channels empty. *)
Theorem fetched_block_is_delivered
    `{Codec} `{Node} `{VerifierOps} {CB : Type}
    (callback : CB -> list chain.Receipt -> result CB)
    (r : Receiver.receiver) (st : Receiver.lstate) (bn : BlockNotification)
    (q' : Receiver.req) (calls : list Receiver.call) (x : Receiver.res)
    (vr' : option Verifier) (cb' : CB) :
  (0 < Receiver.capacity r)%nat ->
  Receiver.l_rech st = false ->
  Receiver.l_brch st = [] ->
  Receiver.l_bnch st = [] ->
  HexInt_Value (bn_Height bn) = (Receiver.l_next st, None) ->
  is_i64 (Receiver.l_next st) ->
  Receiver.run_task
    (Receiver.fetch (Receiver.l_vr st) (Receiver.logFilter r)
       (Receiver.l_clock st))
    (Receiver.mkReq (Receiver.l_next st) (bn_Hash bn) (bn_Indexes bn)
       (bn_Events bn) Receiver.RPCCallRetry None None) = Some (q', calls) ->
  Receiver.q_err q' = None ->
  Receiver.q_res q' = Some x ->
  Receiver.verify_block (Receiver.l_vr st) x = Receiver.Verified vr' ->
  callback (Receiver.l_cb st) (Receiver.r_Receipts x) = Ok cb' ->
  Receiver.run callback r st
    [Receiver.Notify bn;
     Receiver.Default [Receiver.Pop; Receiver.Finish 0; Receiver.Pop];
     Receiver.BrchRecv] =
  Receiver.Running
    (Receiver.mkL (i64 (Receiver.l_next st + 1)) vr' [] [] false cb'
       (S (Receiver.l_clock st)) (Receiver.l_calls st ++ calls)
       (Receiver.l_monitors st) (Receiver.l_delivered st ++ [x])).
Proof.
  intros Hcap Hrech Hbrch Hbnch Hheight Hnext Hrun Herr Hres Hver Hcb.
  assert (Hh : Receiver.r_Height x = Receiver.l_next st).
  { eapply run_task_fetch in Hrun as (x' & Hx' & Hpost & _); [|done].
    rewrite Hres in Hx'. inversion Hx'; subst. exact Hpost. }
  cbn [Receiver.run Receiver.step]. rewrite Hbnch. cbn [length].
  destruct (decide (0 < Receiver.capacity r)%nat); [|done].
  cbn [Receiver.l_rech Receiver.l_brch Receiver.l_bnch app].
  rewrite Hrech, Hbrch.
  cbn [Receiver.build_batch Receiver.l_next].
  rewrite Hheight, Z.add_0_r, (i64_small _ Hnext).
  destruct (decide (Receiver.l_next st <> Receiver.l_next st)); [done|].
  destruct (decide (length [] < Receiver.capacity r)%nat);
    [|cbn [length] in *; lia].
  cbn [app Receiver.l_vr Receiver.l_clock].
  rewrite (collect_one _ _ q' _ calls x) by done.
  cbn [Receiver.c_panicked Receiver.c_brs Receiver.c_clock
       Receiver.c_calls].
  unfold Receiver.collected.
  cbn [Receiver.c_panicked Receiver.c_closed Receiver.c_qch andb negb].
  rewrite bool_decide_eq_true_2 by done. cbn [andb].
  unfold Receiver.batch_results, Receiver.filter_nil, Receiver.forward.
  cbn [omap list_omap id length Receiver.sort_by_height foldr
       Receiver.insert_by_height Receiver.forward_from Receiver.l_next].
  destruct (decide (0 < 1)%nat); [|lia].
  rewrite Hh, Z.add_0_r, (i64_small _ Hnext).
  destruct (decide (Receiver.l_next st = Receiver.l_next st)); [|done].
  cbn [length].
  destruct (decide (1 <= Receiver.capacity r)%nat); [|lia].
  cbn [Receiver.l_brch Receiver.drain Receiver.l_vr Receiver.l_cb
       Receiver.l_next Receiver.l_bnch Receiver.l_rech Receiver.l_clock
       Receiver.l_calls Receiver.l_monitors Receiver.l_delivered].
  rewrite Hver, Hcb. reflexivity.
Qed.

(** ** The further properties on the small node *)

Section OnTheSmallNodeAgain.
Import Mock.

Lemma syncVerifier_stalls_on_fetch_errors_witness :
  let s := @Receiver.syncVerifier codec silent_node verifier receiver
             [one_by_one; one_by_one] verifier_at_100 102 0 in
  Receiver.s_err s = Receiver.Blocked /\ Receiver.s_vr s = verifier_at_100.
Proof.
  apply (@syncVerifier_stalls_on_fetch_errors codec silent_node verifier
           receiver verifier_at_100 102 [one_by_one; one_by_one] 0).
  - vm_compute. reflexivity.
  - intros w h. eexists. vm_compute. reflexivity.
Defined.

Lemma fetched_receipts_are_complete_witness :
  exists q' x,
    fst <$> Receiver.run_task (Receiver.fetch None filter 0) request_2_1 =
      Some q' /\
    Receiver.q_res q' = Some x /\
    Forall (fun rc =>
              Forall (fun ev => chain.Next ev = "btp://dst")
                (chain.Events rc))
      (Receiver.r_Receipts x).
Proof.
  destruct (Receiver.run_task (Receiver.fetch None filter 0) request_2_1)
    as [[q' calls]|] eqn:Hrun; [|vm_compute in Hrun; discriminate].
  destruct (fetched_receipts_are_complete None filter 0 request_2_1 q' calls)
    as (_ & x & Hx & Hall); [reflexivity | exact Hrun |].
  exists q', x. split; [reflexivity|]. split; [exact Hx|].
  eapply Forall_impl; [exact Hall|]. intros rc [Hnext _]. exact Hnext.
Defined.

Lemma fetch_does_not_panic_witness :
  exists q' calls,
    Receiver.run_task (Receiver.fetch None filter 0) request_2_1 =
      Some (q', calls).
Proof.
  apply (fetch_does_not_panic None filter 0 request_2_1).
  - intros b el [= <-]. cbn. lia.
  - intros indexes0 events0 [= <-] [= <-]. cbn. lia.
Defined.

Lemma short_event_list_panics_witness :
  Receiver.step Sequencer.callback receiver
    (state_at_100 [notification_short]) (Receiver.Default one_by_one) =
    Receiver.Panicked "panic in goroutine".
Proof.
  apply (short_event_list_panics Sequencer.callback receiver
           (state_at_100 [notification_short]) notification_short
           (bytes_of "0xaa") (mkBlockHeader 100 [] [] (bytes_of "0x64"))
           "0x1" [] [] []);
    try reflexivity.
  - vm_compute. lia.
  - vm_compute. split; [discriminate | reflexivity].
Defined.

Lemma fetch_call_budget_witness :
  exists q' calls,
    Receiver.run_task (Receiver.fetch None filter 0) request_2_1 =
      Some (q', calls) /\
    (length calls <= 2 + 2)%nat.
Proof.
  destruct (Receiver.run_task (Receiver.fetch None filter 0) request_2_1)
    as [[q' calls]|] eqn:Hrun; [|vm_compute in Hrun; discriminate].
  destruct (fetch_call_budget None filter 0 request_2_1 q' calls Hrun)
    as (pre & ps & -> & Hpre & _ & Hps).
  exists q', (pre ++ ps). split; [reflexivity|].
  rewrite length_app. cbn in Hps.
  destruct Hpre as [->|[->|[Hvr _]]]; [cbn; lia | cbn; lia | done].
Defined.

Lemma gap_in_notifications_reconnects_witness :
  Receiver.step Sequencer.callback receiver
    (state_at_100 [notification_100; notification_102])
    (Receiver.Default one_by_one) =
    Receiver.Running
      (Receiver.mkL 100 None [] [] true (Sequencer.mkState 7 []) 1 [] [100]
         []).
Proof.
  apply (gap_in_notifications_reconnects Sequencer.callback receiver
           (state_at_100 [notification_100; notification_102])
           [notification_100] notification_102 [] 102 one_by_one);
    try reflexivity.
  - vm_compute. discriminate.
  - vm_compute. split; [reflexivity | exact I].
  - vm_compute. discriminate.
  - vm_compute. lia.
Defined.

Lemma overflow_is_retried_without_bound_witness :
  @Client.SendTransactionAndGetResult codec (busy_node 3 0) 3
    (mkTransactionParam "tx" "" "" "") = Client.Looping.
Proof.
  apply (@overflow_is_retried_without_bound codec (busy_node 3 0)
           (mkTransactionParam "tx" "" "" "") 3 0).
  intros w Hw.
  destruct w as [|[|[|w]]]; [reflexivity | reflexivity | reflexivity | lia].
Defined.

Lemma send_and_poll_until_the_result_witness :
  @Client.SendTransactionAndGetResult codec (busy_node 1 4) 3
    (mkTransactionParam "tx" "" "" "") =
    Client.Returned "0xbeef" (Some (mkTransactionResult "0x1" "")) None.
Proof.
  apply (@send_and_poll_until_the_result codec (busy_node 1 4)
           (mkTransactionParam "tx" "" "" "") 1 2 3 "0xbeef"
           (Ok (mkTransactionResult "0x1" ""))).
  - intros w Hw. assert (w = 0%nat) as -> by lia. reflexivity.
  - reflexivity.
  - intros j Hj. exists (-31002), "pending". split; [|left; reflexivity].
    destruct j as [|[|j]]; [reflexivity | reflexivity | lia].
  - reflexivity.
  - intros code m Hans. discriminate Hans.
  - lia.
  - lia.
Defined.

Lemma system_errors_of_SendTransaction_witness :
  @Client.SendTransactionAndGetResult codec (failing_node "E1") 1
    (mkTransactionParam "tx" "" "" "") =
    Client.Panicked "slice bounds out of range" /\
  @Client.SendTransactionAndGetResult codec (failing_node "E2001:full") 1
    (mkTransactionParam "tx" "" "" "") =
    Client.Returned "" None (Some (JsonrpcError (-31000) "E2001:full")).
Proof.
  split.
  - apply (@system_errors_of_SendTransaction codec (failing_node "E1")
             (mkTransactionParam "tx" "" "" "") "E1" 0);
      [reflexivity | cbn; lia].
  - apply (@system_errors_of_SendTransaction codec
             (failing_node "E2001:full")
             (mkTransactionParam "tx" "" "" "") "E2001:full" 0);
      [reflexivity | cbn; lia | vm_compute; discriminate].
Defined.

Lemma WaitForResults_exits_witness :
  let s := @Client.WaitForResults codec (busy_node 0 2) 0
             [Client.WaitTick; Client.WaitTick; Client.WaitCtxDone]
             "0xbeef" in
  fst s = Client.Returned "0xbeef" None
            (Some (ErrNew "Context Cancelled ReceiptWait Exiting ")) /\
  Client.w_calls (snd s) = 2%nat.
Proof.
  apply (@WaitForResults_exits codec (busy_node 0 2) 0 2 "0xbeef" []).
  - lia.
  - intros j Hj. exists (-31002), "pending". split; [|left; reflexivity].
    destruct j as [|[|j]]; [reflexivity | reflexivity | lia].
Defined.

Lemma header_round_trip_witness :
  IconOptions.NewIconOptionsByHeader
    {[ "Icon-Options" := ["timeout=a=b"] ]} =
  Some {[ "timeout" := "a=b" ]}.
Proof.
  apply (header_round_trip {[ "timeout" := "a=b" ]} [("timeout", "a=b")]).
  - unfold IconOptions.visits. by rewrite map_to_list_singleton.
  - intros Hempty.
    assert (Hl : ({[ "timeout" := "a=b" ]} : gmap string string) !!
                   "timeout" = None) by (by rewrite Hempty).
    rewrite lookup_singleton_eq in Hl. discriminate Hl.
  - intros k v [<- <-]%lookup_singleton_Some. unfold occurs. simpl.
    split; [discriminate|]. repeat split; intros Hin;
      repeat (destruct Hin as [Hin|Hin]; [discriminate Hin|]); exact Hin.
  - vm_compute. reflexivity.
Defined.

Lemma MonitorBlock_needs_its_second_callback_witness :
  Ws.MonitorBlock (V := nat) (S := list nat) (R := unit) ws_client tt
    (fun s _ v => (s ++ [v], None)) None (fun s _ _ => s)
    (Ws.mkNetwork (Ws.WOk ws_conn) None (Ws.WOk (Ws.mkWSResponse 0 ""))
       [Ws.Frame (Ws.Decoded 7%nat)]) [] =
    (Ws.mkClient "https://node/api/v3" ∅
       [Ws.Dial "wss://node/api/v3/block"; Ws.WriteJSON ws_conn;
        Ws.ReadJSON ws_conn; Ws.WriteCloseMessage ws_conn;
        Ws.CloseConn ws_conn],
     [],
     Ws.Returned
       (Some (Ws.Plain (ErrNew "Second Callback function (scb) is nil ")))).
Proof.
  destruct (MonitorBlock_needs_its_second_callback (V := nat)
              (S := list nat) (R := unit) ws_client tt
              (fun s _ v => (s ++ [v], None)) (fun s _ _ => s) ws_conn
              (Ws.mkWSResponse 0 "") [Ws.Frame (Ws.Decoded 7%nat)] [])
    as [Hnil _]; [reflexivity|].
  rewrite Hnil. reflexivity.
Defined.

Lemma MonitorEvent_reads_on_witness :
  Ws.MonitorEvent (V := nat) (S := list nat) (R := unit) ws_client tt
    (fun s _ v => (s ++ [v], None)) (fun s _ _ => s ++ [0%nat])
    (Ws.mkNetwork (Ws.WOk ws_conn) None (Ws.WOk (Ws.mkWSResponse 0 ""))
       [Ws.Frame (Ws.Decoded 7%nat); Ws.Frame (Ws.Decoded 8%nat)]) [] =
    (Ws.mkClient "https://node/api/v3" {[ "10.0.0.1:40000" := ws_conn ]}
       [Ws.Dial "wss://node/api/v3/event"; Ws.WriteJSON ws_conn;
        Ws.ReadJSON ws_conn; Ws.NextReader ws_conn; Ws.NextReader ws_conn],
     [0%nat; 7%nat; 8%nat],
     Ws.Reading).
Proof.
  etrans;
    [apply (MonitorEvent_reads_on (V := nat) (S := list nat) (R := unit)
              ws_client tt (fun s _ v => (s ++ [v], None))
              (fun s _ _ => s ++ [0%nat]) ws_conn (Ws.mkWSResponse 0 "")
              [7%nat; 8%nat] []); reflexivity|].
  cbn. rewrite insert_empty. reflexivity.
Defined.

Lemma fetched_block_is_delivered_witness :
  exists st,
    Receiver.run Sequencer.callback receiver (state_at_100 [])
      [Receiver.Notify notification_2_1; Receiver.Default one_by_one;
       Receiver.BrchRecv] = Receiver.Running st /\
    Receiver.r_Height <$> Receiver.l_delivered st = [100] /\
    Receiver.l_next st = 101 /\
    Receiver.l_brch st = [] /\ Receiver.l_bnch st = [].
Proof.
  destruct (Receiver.run_task (Receiver.fetch None filter 1) request_2_1)
    as [[q' calls]|] eqn:Hrun; [|vm_compute in Hrun; discriminate].
  destruct (Receiver.q_res q') as [x|] eqn:Hres;
    [|vm_compute in Hrun; injection Hrun as <- _; discriminate Hres].
  destruct (Sequencer.callback (Sequencer.mkState 7 [])
              (Receiver.r_Receipts x)) as [cb'|e] eqn:Hcb.
  2: { vm_compute in Hrun. injection Hrun as <- _.
       injection Hres as <-. vm_compute in Hcb. discriminate Hcb. }
  eexists. split.
  - apply (fetched_block_is_delivered Sequencer.callback receiver
             (state_at_100 []) notification_2_1 q' calls x None cb');
      try reflexivity.
    + vm_compute. lia.
    + vm_compute. split; [discriminate | reflexivity].
    + exact Hrun.
    + vm_compute in Hrun. injection Hrun as <- _. reflexivity.
    + exact Hres.
    + exact Hcb.
  - cbn [Receiver.l_delivered Receiver.l_next Receiver.l_brch
         Receiver.l_bnch state_at_100].
    vm_compute in Hrun. injection Hrun as <- _. injection Hres as <-.
    repeat split; reflexivity.
Defined.

End OnTheSmallNodeAgain.
